(** * A shallow embedding of the pseudocode interpreter

    The development follows the TypeScript sources:
    - [src/interpreter/memory.ts]      -> module [Memory]
    - [src/interpreter/lexer.ts]       -> module [Lexer]
    - [src/interpreter/interpreter.ts] -> module [Interp]

    Definitions come first, the theorems about them follow. *)

From Stdlib Require Import ZArith QArith Qround Lia Ascii String DecimalString.
From stdpp Require Import gmap strings list fin_maps.
From Equations Require Import Equations.

Local Open Scope Z_scope.

#[local] Set Warnings "-register-all".

(** ** JavaScript values

    A JS [number] is an IEEE double.  The model keeps the finite ones as
    exact rationals and has the three non-finite values; rounding and
    overflow of the arithmetic are not modelled. *)

Inductive number :=
| Fin (q : Q)
| PInf
| NInf
| NaN.

(** The values an expression of the interpreted language can have, and
    what a slot of the simulated RAM can hold.  An array is a JS object and
    is a reference into the heap of array objects. *)
Inductive any :=
| VUndefined
| VNumber (n : number)
| VString (s : string)
| VBoolean (b : bool)
| VArray (ref : nat).

Definition ofZ (z : Z) : number := Fin (inject_Z z).

(** The operators and built-ins of JavaScript the interpreter relies on. *)
Module JS.

Definition Qltb (a b : Q) : bool := negb (Qle_bool b a).

(** Truncation toward zero. *)
Definition Qtrunc (q : Q) : Z := if Qle_bool 0 q then Qfloor q else Qceiling q.

(** [a === b] on numbers: [NaN] is equal to nothing. *)
Definition eqb (a b : number) : bool :=
  match a, b with
  | Fin x, Fin y => Qeq_bool x y
  | PInf, PInf | NInf, NInf => true
  | _, _ => false
  end.

(** [a < b] *)
Definition ltb (a b : number) : bool :=
  match a, b with
  | NaN, _ | _, NaN => false
  | Fin x, Fin y => Qltb x y
  | NInf, NInf | PInf, _ | _, NInf => false
  | NInf, _ | _, PInf => true
  end.

(** [a <= b] *)
Definition leb (a b : number) : bool :=
  match a, b with
  | NaN, _ | _, NaN => false
  | Fin x, Fin y => Qle_bool x y
  | NInf, _ | _, PInf => true
  | PInf, _ | _, NInf => false
  end.

(** [a > b] and [a >= b] *)
Definition gtb (a b : number) : bool := ltb b a.
Definition geb (a b : number) : bool := leb b a.

Definition isZero (a : number) : bool := eqb a (ofZ 0).

(** [-a] *)
Definition neg (a : number) : number :=
  match a with
  | Fin x => Fin (Qopp x) | PInf => NInf | NInf => PInf | NaN => NaN
  end.

(** [a + b] *)
Definition add (a b : number) : number :=
  match a, b with
  | NaN, _ | _, NaN => NaN
  | Fin x, Fin y => Fin (Qplus x y)
  | PInf, NInf | NInf, PInf => NaN
  | PInf, _ | _, PInf => PInf
  | NInf, _ | _, NInf => NInf
  end.

(** [a - b] *)
Definition sub (a b : number) : number := add a (neg b).

(** The sign of a number that is not [NaN]: -1, 0 or 1. *)
Definition sign (a : number) : Z :=
  match a with
  | Fin x => if Qltb 0 x then 1 else if Qltb x 0 then -1 else 0
  | PInf => 1 | NInf => -1 | NaN => 0
  end.

Definition infinityOfSign (s : Z) : number :=
  if decide (s = 0) then NaN else if decide (0 < s) then PInf else NInf.

(** [a * b] *)
Definition mul (a b : number) : number :=
  match a, b with
  | NaN, _ | _, NaN => NaN
  | Fin x, Fin y => Fin (Qmult x y)
  | _, _ => infinityOfSign (sign a * sign b)
  end.

(** [a / b]; the model has a single zero, taken as positive. *)
Definition div (a b : number) : number :=
  match a, b with
  | NaN, _ | _, NaN => NaN
  | Fin x, Fin y => if Qeq_bool y 0 then infinityOfSign (sign a) else Fin (Qdiv x y)
  | Fin _, _ => ofZ 0
  | _, Fin _ => infinityOfSign (sign a * (if isZero b then 1 else sign b))
  | _, _ => NaN
  end.

(** [a % b], the remainder with the sign of the dividend. *)
Definition rem (a b : number) : number :=
  match a, b with
  | Fin x, Fin y =>
      if Qeq_bool y 0 then NaN
      else Fin (Qminus x (Qmult y (inject_Z (Qtrunc (Qdiv x y)))))
  | Fin x, (PInf | NInf) => Fin x
  | _, _ => NaN
  end.

(** [Math.floor(a)] *)
Definition floor (a : number) : number :=
  match a with Fin x => ofZ (Qfloor x) | _ => a end.

(** [Math.round(a)]: the nearest integer, halves rounded up. *)
Definition round (a : number) : number :=
  match a with Fin x => ofZ (Qfloor (Qplus x (1 # 2))) | _ => a end.

(** Truthiness of a number, as in [n || 0]. *)
Definition truthy (a : number) : bool :=
  match a with NaN => false | _ => negb (isZero a) end.

(** [isNaN(a)] *)
Definition isNaN (a : number) : bool :=
  match a with NaN => true | _ => false end.



(** [a === b]: the same type and the same value; objects by identity. *)
Definition strictEquals (a b : any) : bool :=
  match a, b with
  | VUndefined, VUndefined => true
  | VNumber x, VNumber y => eqb x y
  | VString x, VString y => String.eqb x y
  | VBoolean x, VBoolean y => Bool.eqb x y
  | VArray x, VArray y => Nat.eqb x y
  | _, _ => false
  end.

(** [a < b] on strings: the order of the code units. *)
Definition stringLtb (a b : string) : bool :=
  match String.compare a b with Lt => true | _ => false end.
Definition stringLeb (a b : string) : bool :=
  match String.compare a b with Gt => false | _ => true end.

(** What the host provides and the model does not define: the conversions
    between numbers and text, the case mappings, the power function and
    the random source ([Math_random k] is the answer to the call number
    [k]). *)
Record Host := mkHost {
  parseInt : string → number;
  parseFloat : string → number;
  numberToString : number → string;
  stringToNumber : string → number;
  toLowerCase : string → string;
  toUpperCase : string → string;
  Math_pow : number → number → number;
  Math_random : nat → number
}.

End JS.

(** Case analysis on a computed value that remembers the equation. *)
Definition inspect {A : Type} (x : A) : { y : A | x = y } := exist _ x eq_refl.

(** ** The memory arena, [memory.ts] *)

Module Memory.

(** The [Error]s the engine throws, one constructor per message. *)
Inductive MemError :=
| SizeNotPositive (size : Z)          (* "Memory allocation error: size must be positive, got .." *)
| NoContiguousBlock (size : Z)        (* "Memory allocation error: cannot find contiguous block of size .." *)
| InvalidFree (address : Z)           (* "Invalid free: address .. not allocated" *)
| ReadOutOfBounds (address : Z)       (* "Memory read error: address .. out of bounds (..)" *)
| ReadNotAllocated (address : Z)      (* "Memory read error: address .. not allocated" *)
| WriteOutOfBounds (address : Z)      (* "Memory write error: address .. out of bounds (..)" *)
| WriteNotAllocated (address : Z)     (* "Memory write error: address .. not allocated" *)
| UnknownDataType (type : string).    (* "Unknown data type: .." *)

(** A method either returns or throws. *)
Inductive result (A : Type) :=
| Return (a : A)
| Throw (e : MemError).
Arguments Return {A} a.
Arguments Throw {A} e.

(** The fields of [class MemoryEngine].  [ram] is the JS array of
    [memorySize] slots; a slot that holds [undefined] is either absent from
    the map or bound to [VUndefined]. *)
Record MemoryEngine := mkMemoryEngine {
  ram : gmap Z any;
  allocated : gset Z;
  allocations : gmap Z (Z * string);
  nextFreeAddress : Z;
  memorySize : Z
}.

(** [private readonly SYSTEM_RESERVED = 1024] *)
Definition SYSTEM_RESERVED : Z := 1024.

(** [constructor(size = 65536)] *)
Definition create (size : Z) : MemoryEngine :=
  {| ram := ∅; allocated := ∅; allocations := ∅;
     nextFreeAddress := SYSTEM_RESERVED; memorySize := size |}.

Definition DEFAULT_SIZE : Z := 65536.

(** The inner [for] loop of [findFreeBlock]: the first [i] in
    [0 .. size-1] with [allocated.has(address + i)], if any. *)
Definition firstObstruction (m : MemoryEngine) (address size : Z) : option Z :=
  snd <$> list_find (λ i, address + i ∈ allocated m) (seqZ 0 size).

(** The [while] loop of [findFreeBlock], from the current [address].  Each
    obstruction restarts the scan just after it. *)
Equations? scanFrom (m : MemoryEngine) (size address : Z) : result Z
  by wf (Z.to_nat (memorySize m - address)) lt :=
  scanFrom m size address with decide (address + size ≤ memorySize m) => {
    | right _ := Throw (NoContiguousBlock size);
    | left _ with inspect (firstObstruction m address size) => {
        | exist _ None _ := Return address;
        | exist _ (Some i) E := scanFrom m size (address + i + 1) } }.
Proof.
  unfold firstObstruction in E.
  destruct (list_find _ _) as [[k x]|] eqn:F; simplify_eq/=.
  apply list_find_Some in F as (Hk & _ & _).
  apply lookup_seqZ in Hk. lia.
Qed.

(** [private findFreeBlock(size)] *)
Definition findFreeBlock (m : MemoryEngine) (size : Z) : result Z :=
  scanFrom m size (nextFreeAddress m).

(** [private markAllocated(address, size, type)] *)
Definition markAllocated (m : MemoryEngine) (address size : Z) (type : string)
  : MemoryEngine :=
  {| ram := ram m;
     allocated := foldl (λ s i, {[address + i]} ∪ s) (allocated m) (seqZ 0 size);
     allocations := <[address := (size, type)]> (allocations m);
     nextFreeAddress := Z.max (nextFreeAddress m) (address + size);
     memorySize := memorySize m |}.

(** [allocate(size, type)]: the address and the engine after the call. *)
Definition allocate (m : MemoryEngine) (size : Z) (type : string)
  : result (Z * MemoryEngine) :=
  if decide (size ≤ 0) then Throw (SizeNotPositive size)
  else match findFreeBlock m size with
       | Throw e => Throw e
       | Return address => Return (address, markAllocated m address size type)
       end.

(** [private recalculateNextFreeAddress()] *)
Definition recalculateNextFreeAddress (m : MemoryEngine) : MemoryEngine :=
  {| ram := ram m; allocated := allocated m; allocations := allocations m;
     nextFreeAddress :=
       map_fold (λ address allocation maxEnd, Z.max maxEnd (address + allocation.1))
                SYSTEM_RESERVED (allocations m);
     memorySize := memorySize m |}.

(** [free(address)] *)
Definition free (m : MemoryEngine) (address : Z) : result MemoryEngine :=
  match allocations m !! address with
  | None => Throw (InvalidFree address)
  | Some allocation =>
      let cleared :=
        foldl (λ '(al, r) i, (al ∖ {[address + i]}, <[address + i := VUndefined]> r))
              (allocated m, ram m) (seqZ 0 allocation.1) in
      let m' := {| ram := cleared.2; allocated := cleared.1;
                   allocations := delete address (allocations m);
                   nextFreeAddress := nextFreeAddress m;
                   memorySize := memorySize m |} in
      Return (if decide (nextFreeAddress m ≤ address + allocation.1)
              then recalculateNextFreeAddress m' else m')
  end.

(** [read(address)] *)
Definition read (m : MemoryEngine) (address : Z) : result any :=
  if decide (address < 0 ∨ memorySize m ≤ address) then Throw (ReadOutOfBounds address)
  else if decide (address ∉ allocated m) then Throw (ReadNotAllocated address)
  else Return (default VUndefined (ram m !! address)).

(** [write(address, value)] *)
Definition write (m : MemoryEngine) (address : Z) (v : any) : result MemoryEngine :=
  if decide (address < 0 ∨ memorySize m ≤ address) then Throw (WriteOutOfBounds address)
  else if decide (address ∉ allocated m) then Throw (WriteNotAllocated address)
  else Return {| ram := <[address := v]> (ram m); allocated := allocated m;
                 allocations := allocations m;
                 nextFreeAddress := nextFreeAddress m;
                 memorySize := memorySize m |}.

(** [isAllocated(address)] *)
Definition isAllocated (m : MemoryEngine) (address : Z) : bool :=
  bool_decide (address ∈ allocated m).

(** The states an engine built by [create] can be in: every method call
    that returns leads to another one. *)
Inductive reachable (size : Z) : MemoryEngine → Prop :=
| reach_create : reachable size (create size)
| reach_allocate m n t a m' :
    reachable size m → allocate m n t = Return (a, m') → reachable size m'
| reach_free m a m' :
    reachable size m → free m a = Return m' → reachable size m'
| reach_write m a v m' :
    reachable size m → write m a v = Return m' → reachable size m'.

(** [getMemoryStats()]; the fields [allocated] and [free] of the result
    are [stats_allocated] and [stats_free] here. *)
Record MemoryStats := mkMemoryStats {
  stats_total : Z;
  stats_allocated : Z;
  stats_free : Z;
  stats_blocks : Z
}.

Definition getMemoryStats (m : MemoryEngine) : MemoryStats :=
  let allocated := Z.of_nat (size (allocated m)) in
  let free := memorySize m - allocated in
  let blocks := Z.of_nat (size (allocations m)) in
  {| stats_total := memorySize m; stats_allocated := allocated;
     stats_free := free; stats_blocks := blocks |}.

End Memory.

(** ** The tokenizer, [lexer.ts]

    The source text is a JS string, a sequence of UTF-16 code units; the
    model keeps it as a list of code units, and the index [i] of the source
    as the suffix of the text that starts at [i]. *)

Module Lexer.

Definition ch (a : ascii) : N := N_of_ascii a.
Definition str (s : string) : list N := ch <$> list_ascii_of_string s.

(** The arrow glyph U+2190. *)
Definition LEFT_ARROW : N := 8592%N.
Definition NEWLINE_CHAR : N := 10%N.
Definition TAB_CHAR : N := 9%N.
Definition CR_CHAR : N := 13%N.
Definition DOUBLE_QUOTE : N := 34%N.

Inductive TokenType :=
| KEYWORD | IDENTIFIER | NUMBER | STRING | OPERATOR | ASSIGNMENT | COMMA
| COLON | LPAREN | RPAREN | LBRACKET | RBRACKET | NEWLINE | EOF | COMMENT.

Record Token := mkToken {
  type : TokenType;
  value : list N;
  line : Z;
  column : Z
}.

Definition KEYWORDS : list (list N) :=
  str <$>
  [ "DECLARE"; "CONSTANT"; "IF"; "THEN"; "ELSE"; "ENDIF"; "WHILE"; "DO"; "ENDWHILE";
    "REPEAT"; "UNTIL"; "FOR"; "TO"; "STEP"; "NEXT"; "CASE"; "OF"; "OTHERWISE"; "ENDCASE";
    "INTEGER"; "REAL"; "STRING"; "CHAR"; "BOOLEAN"; "ARRAY";
    "INPUT"; "OUTPUT"; "PROCEDURE"; "ENDPROCEDURE"; "FUNCTION"; "ENDFUNCTION";
    "RETURN"; "RETURNS"; "CALL"; "BYVAL"; "BYREF"; "TRUE"; "FALSE";
    "AND"; "OR"; "NOT"; "DIV"; "MOD";
    "OPENFILE"; "CLOSEFILE"; "READFILE"; "WRITEFILE"; "EOF";
    "READ"; "WRITE"; "APPEND";
    "MALLOC"; "FREE"; "SIZE_OF"; "POINTER_TO_INTEGER"; "POINTER_TO_REAL";
    "POINTER_TO_CHAR"; "VOID_POINTER" ]%string.

(** The [Error]s of [tokenize]; each message ends in
    "at line .., column ..". *)
Inductive LexError :=
| UnterminatedString (line column : Z)
| UnterminatedCharacterLiteral (line column : Z)
| InvalidHexLiteral (line column : Z)
| UnexpectedCharacter (c : N) (line column : Z).

Definition between (lo hi c : N) : bool := ((lo <=? c) && (c <=? hi))%N.

(** [/\d/] *)
Definition isDigit (c : N) : bool := between (ch "0") (ch "9") c.
(** [/[0-9a-fA-F]/] *)
Definition isHexDigit (c : N) : bool :=
  isDigit c || between (ch "a") (ch "f") c || between (ch "A") (ch "F") c.
(** [/[\d.]/] *)
Definition isDigitOrDot (c : N) : bool := isDigit c || (c =? ch ".")%N.
(** [/[a-zA-Z_]/] *)
Definition isIdentStart (c : N) : bool :=
  between (ch "a") (ch "z") c || between (ch "A") (ch "Z") c || (c =? ch "_")%N.
(** [/[a-zA-Z0-9_]/] *)
Definition isIdentPart (c : N) : bool := isIdentStart c || isDigit c.
(** ['+-*/=<>&'.includes(char)] *)
Definition isOperatorChar (c : N) : bool :=
  bool_decide (c ∈ str "+-*/=<>&").

(** [code[i + k] === c], false past the end of the text. *)
Definition charAt (rest : list N) (k : nat) (c : N) : bool :=
  match rest !! k with Some d => (d =? c)%N | None => false end.

(** [while (i < code.length && p(code[i])) { s += code[i]; i++ }]:
    the characters collected and the text left. *)
Fixpoint span (p : N → bool) (rest : list N) : list N * list N :=
  match rest with
  | c :: rest' =>
      if p c then let '(s, r) := span p rest' in (c :: s, r) else ([], rest)
  | [] => ([], [])
  end.

(** The loop of a string or character literal after its opening quote:
    the literal and the text after the closing quote, or [None] when a
    newline or the end of the text comes first (both throw the same
    error). *)
Fixpoint scanQuoted (quote : N) (rest : list N) : option (list N * list N) :=
  match rest with
  | c :: rest' =>
      if (c =? quote)%N then Some ([], rest')
      else if (c =? NEWLINE_CHAR)%N then None
      else match scanQuoted quote rest' with
           | Some (s, r) => Some (c :: s, r)
           | None => None
           end
  | [] => None
  end.

Definition len (s : list N) : Z := Z.of_nat (length s).

(** One turn of the [while (i < code.length)] loop at character [c]:
    either the loop goes on, perhaps with a token pushed, or it throws. *)
Inductive Step :=
| Continue (pushed : option Token) (rest : list N) (line column : Z)
| Raise (e : LexError).

Definition iteration (c : N) (rest : list N) (line column : Z) : Step :=
  (* Skip whitespace except newlines *)
  if ((c =? ch " ") || (c =? TAB_CHAR) || (c =? CR_CHAR))%N then
    Continue None rest line (column + 1)
  (* Newlines *)
  else if (c =? NEWLINE_CHAR)%N then
    Continue (Some (mkToken NEWLINE [NEWLINE_CHAR] line column)) rest (line + 1) 1
  (* Comments *)
  else if (c =? ch "/")%N && charAt rest 0 (ch "/") then
    let '(comment, rest') := span (λ d, negb (d =? NEWLINE_CHAR)%N) (drop 1 rest) in
    let column' := column + 2 + len comment in
    Continue (Some (mkToken COMMENT comment line (column' - len comment)))
             rest' line column'
  (* String literals (double quotes) *)
  else if (c =? DOUBLE_QUOTE)%N then
    match scanQuoted DOUBLE_QUOTE rest with
    | None => Raise (UnterminatedString line column)
    | Some (s, rest') =>
        Continue (Some (mkToken STRING s line column)) rest' line (column + 1 + len s + 1)
    end
  (* Character literals (single quotes) *)
  else if (c =? ch "'")%N then
    match scanQuoted (ch "'") rest with
    | None => Raise (UnterminatedCharacterLiteral line column)
    | Some (s, rest') =>
        Continue (Some (mkToken STRING s line column)) rest' line (column + 1 + len s + 1)
    end
  (* Numbers (including hex literals) *)
  else if isDigit c then
    if (c =? ch "0")%N && (charAt rest 0 (ch "x") || charAt rest 0 (ch "X")) then
      let '(digits, rest') := span isHexDigit (drop 1 rest) in
      if decide (len (str "0x" ++ digits) = 2)
      then Raise (InvalidHexLiteral line column)
      else Continue (Some (mkToken NUMBER (str "0x" ++ digits) line column))
                    rest' line (column + 2 + len digits)
    else
      let '(num, rest') := span isDigitOrDot (c :: rest) in
      Continue (Some (mkToken NUMBER num line column)) rest' line (column + len num)
  (* Assignment operator, the arrow or <-- *)
  else if (c =? LEFT_ARROW)%N then
    Continue (Some (mkToken ASSIGNMENT (str "<--") line column)) rest line (column + 1)
  else if (c =? ch "<")%N && charAt rest 0 (ch "-") && charAt rest 1 (ch "-") then
    Continue (Some (mkToken ASSIGNMENT (str "<--") line column))
             (drop 2 rest) line (column + 3)
  (* Multi-character operators *)
  else if (c =? ch "<")%N && charAt rest 0 (ch "=") then
    Continue (Some (mkToken OPERATOR (str "<=") line column)) (drop 1 rest) line (column + 2)
  else if (c =? ch ">")%N && charAt rest 0 (ch "=") then
    Continue (Some (mkToken OPERATOR (str ">=") line column)) (drop 1 rest) line (column + 2)
  else if (c =? ch "<")%N && charAt rest 0 (ch ">") then
    Continue (Some (mkToken OPERATOR (str "<>") line column)) (drop 1 rest) line (column + 2)
  (* Single character operators *)
  else if isOperatorChar c then
    Continue (Some (mkToken OPERATOR [c] line column)) rest line (column + 1)
  (* Punctuation *)
  else if (c =? ch ",")%N then
    Continue (Some (mkToken COMMA [c] line column)) rest line (column + 1)
  else if (c =? ch ":")%N then
    Continue (Some (mkToken COLON [c] line column)) rest line (column + 1)
  else if (c =? ch "(")%N then
    Continue (Some (mkToken LPAREN [c] line column)) rest line (column + 1)
  else if (c =? ch ")")%N then
    Continue (Some (mkToken RPAREN [c] line column)) rest line (column + 1)
  else if (c =? ch "[")%N then
    Continue (Some (mkToken LBRACKET [c] line column)) rest line (column + 1)
  else if (c =? ch "]")%N then
    Continue (Some (mkToken RBRACKET [c] line column)) rest line (column + 1)
  (* Identifiers and keywords *)
  else if isIdentStart c then
    let '(identifier, rest') := span isIdentPart (c :: rest) in
    let type := if bool_decide (identifier ∈ KEYWORDS) then KEYWORD else IDENTIFIER in
    Continue (Some (mkToken type identifier line column)) rest' line (column + len identifier)
  (* Unknown character *)
  else Raise (UnexpectedCharacter c line column).

(** The whole [while] loop from the text [rest], then the push of the
    end-of-input token. *)
Equations? tokenizeFrom (rest : list N) (line column : Z) (tokens : list Token)
  : LexError + list Token by wf (length rest) lt :=
  tokenizeFrom [] line column tokens := inr (tokens ++ [mkToken EOF [] line column]);
  tokenizeFrom (c :: rest) line column tokens
    with inspect (iteration c rest line column) => {
    | exist _ (Raise e) _ := inl e;
    | exist _ (Continue pushed rest' line' column') E :=
        tokenizeFrom rest' line' column' (tokens ++ option_list pushed) }.
Proof.
  assert (Hspan : ∀ p l s r, span p l = (s, r) → (length r ≤ length l)%nat).
  { intros p l. induction l as [|d l IH]; intros s r; simpl.
    - intros [= <- <-]. done.
    - destruct (p d); [|intros [= <- <-]; done].
      destruct (span p l) as [s' r'] eqn:F. intros [= <- <-].
      specialize (IH _ _ eq_refl). lia. }
  assert (Hquoted : ∀ q l s r, scanQuoted q l = Some (s, r) → (length r < length l)%nat).
  { intros q l. induction l as [|d l IH]; intros s r; simpl; [done|].
    destruct (d =? q)%N; [intros [= <- <-]; lia |].
    destruct (d =? NEWLINE_CHAR)%N; [done |].
    destruct (scanQuoted q l) as [[s' r']|] eqn:F; [|done]. intros [= <- <-].
    specialize (IH _ _ eq_refl). lia. }
  assert (Hdrop : ∀ k (l : list N), (length (drop k l) ≤ length l)%nat).
  { intros k l. rewrite length_drop. lia. }
  unfold iteration in E.
  repeat match type of E with
         | (if ?b then _ else _) = _ => destruct b eqn:?
         | (let '(_, _) := ?x in _) = _ => destruct x as [? ?] eqn:?
         | match ?x with _ => _ end = _ => destruct x as [[? ?]|] eqn:?
         end;
    try discriminate; injection E as <- <- <- <-; simpl;
    repeat match goal with
           | H : span _ (_ :: _) = _, G : _ = true |- _ =>
               simpl in H; unfold isDigitOrDot, isIdentPart in H; rewrite G in H;
               simpl in H; destruct (span _ _) eqn:F in H; injection H as <- <-;
               apply Hspan in F
           | H : span _ (drop ?k ?l) = _ |- _ => apply Hspan in H; pose proof (Hdrop k l)
           | H : scanQuoted _ _ = _ |- _ => apply Hquoted in H
           | |- context [drop ?k ?l] => pose proof (Hdrop k l); generalize dependent (drop k l); intros
           end; try lia.
Qed.

(** [export function tokenize(code)] *)
Definition tokenize (code : list N) : LexError + list Token :=
  tokenizeFrom code 1 1 [].

End Lexer.

(** ** The evaluator, [interpreter.ts] and the declarations of [types.ts] *)

Module Interp.
Import JS.

(** *** Abstract syntax ([types.ts]) *)

Inductive DataType :=
| INTEGER | REAL | STRING | CHAR | BOOLEAN | ARRAY
| POINTER_TO_INTEGER | POINTER_TO_REAL | POINTER_TO_CHAR | VOID_POINTER.

(** Expression nodes; the last field of each is the source line.  The four
    pointer nodes are the ones the parser builds ([parsePrimary]);
    [PointerCast] is listed in the union but never built. *)
Inductive ExpressionNode :=
| Literal (value : any) (dataType : DataType) (line : Z)
| Identifier (name : string) (line : Z)
| ArrayAccess (array : string) (indices : list ExpressionNode) (line : Z)
| BinaryOp (operator : string) (left right : ExpressionNode) (line : Z)
| UnaryOp (operator : string) (operand : ExpressionNode) (line : Z)
| FunctionCall (name : string) (arguments : list ExpressionNode) (line : Z)
| AddressOf (target : ExpressionNode) (line : Z)
| Dereference (pointer : ExpressionNode) (line : Z)
| MemoryAllocation (size : ExpressionNode) (targetType : DataType) (line : Z)
| SizeOf (dataType : string) (line : Z)
| PointerCast (line : Z).

(** [expr.type] and [expr.line] *)
Definition exprType (e : ExpressionNode) : string :=
  match e with
  | Literal _ _ _ => "Literal" | Identifier _ _ => "Identifier"
  | ArrayAccess _ _ _ => "ArrayAccess" | BinaryOp _ _ _ _ => "BinaryOp"
  | UnaryOp _ _ _ => "UnaryOp" | FunctionCall _ _ _ => "FunctionCall"
  | AddressOf _ _ => "AddressOf" | Dereference _ _ => "Dereference"
  | MemoryAllocation _ _ _ => "MemoryAllocation" | SizeOf _ _ => "SizeOf"
  | PointerCast _ => "PointerCast"
  end.

Definition exprLine (e : ExpressionNode) : Z :=
  match e with
  | Literal _ _ l | Identifier _ l | ArrayAccess _ _ l | BinaryOp _ _ _ l
  | UnaryOp _ _ l | FunctionCall _ _ l | AddressOf _ l | Dereference _ l
  | MemoryAllocation _ _ l | SizeOf _ l | PointerCast l => l
  end.

(** [interface Parameter] *)
Record ParameterDecl := mkParameter {
  paramName : string;
  paramType : DataType;
  byRef : bool;
  arrayElementType : option DataType
}.

Inductive FileMode := READ | WRITE | APPEND.

(** Statement nodes.  An expression in statement position is possible by
    the type [ASTNode] and has no case in [executeNode]. *)
Inductive ASTNode :=
| DeclareNode (identifier : string) (dataType : DataType)
          (arrayBounds : option (list (Z * Z))) (arrayElementType : option DataType)
          (line : Z)
| Assignment (target value : ExpressionNode) (line : Z)
| Output (expressions : list ExpressionNode) (line : Z)
| Input (target : ExpressionNode) (line : Z)
| If (condition : ExpressionNode) (thenBlock : list ASTNode)
     (elseIfBlocks : option (list (ExpressionNode * list ASTNode)))
     (elseBlock : option (list ASTNode)) (line : Z)
| While (condition : ExpressionNode) (body : list ASTNode) (line : Z)
| Repeat (body : list ASTNode) (condition : ExpressionNode) (line : Z)
| For (variable : string) (start end_ step : ExpressionNode) (body : list ASTNode)
      (line : Z)
| Case (expression : ExpressionNode) (cases : list CaseBlock)
       (otherwiseBlock : option (list ASTNode)) (line : Z)
| Procedure (name : string) (parameters : list ParameterDecl) (body : list ASTNode)
            (line : Z)
| Function (name : string) (parameters : list ParameterDecl) (returnType : DataType)
           (body : list ASTNode) (line : Z)
| Call (name : string) (arguments : list ExpressionNode) (line : Z)
| Return (value : ExpressionNode) (line : Z)
| OpenFile (filename : ExpressionNode) (mode : FileMode) (line : Z)
| CloseFile (filename : ExpressionNode) (line : Z)
| ReadFile (filename target : ExpressionNode) (line : Z)
| WriteFile (filename data : ExpressionNode) (line : Z)
| MemoryFree (pointer : ExpressionNode) (line : Z)
| ExpressionStatement (expr : ExpressionNode)
with CaseBlock :=
| mkCaseBlock (value rangeStart rangeEnd : option ExpressionNode)
              (statements : list ASTNode).

Definition nodeType (n : ASTNode) : string :=
  match n with
  | DeclareNode _ _ _ _ _ => "Declare" | Assignment _ _ _ => "Assignment"
  | Output _ _ => "Output" | Input _ _ => "Input" | If _ _ _ _ _ => "If"
  | While _ _ _ => "While" | Repeat _ _ _ => "Repeat" | For _ _ _ _ _ _ => "For"
  | Case _ _ _ _ => "Case" | Procedure _ _ _ _ => "Procedure"
  | Function _ _ _ _ _ => "Function" | Call _ _ _ => "Call" | Return _ _ => "Return"
  | OpenFile _ _ _ => "OpenFile" | CloseFile _ _ => "CloseFile"
  | ReadFile _ _ _ => "ReadFile" | WriteFile _ _ _ => "WriteFile"
  | MemoryFree _ _ => "MemoryFree" | ExpressionStatement e => exprType e
  end.

Definition nodeLine (n : ASTNode) : Z :=
  match n with
  | DeclareNode _ _ _ _ l | Assignment _ _ l | Output _ l | Input _ l | If _ _ _ _ l
  | While _ _ l | Repeat _ _ l | For _ _ _ _ _ l | Case _ _ _ l | Procedure _ _ _ l
  | Function _ _ _ _ l | Call _ _ l | Return _ l | OpenFile _ _ l | CloseFile _ l
  | ReadFile _ _ l | WriteFile _ _ l | MemoryFree _ l => l
  | ExpressionStatement e => exprLine e
  end.

(** The parts of a [ProcedureNode] and of a [FunctionNode] that a call
    uses. *)
Record ProcedureNode := mkProcedure {
  procName : string;
  procParameters : list ParameterDecl;
  procBody : list ASTNode
}.

Record FunctionNode := mkFunction {
  funcName : string;
  funcParameters : list ParameterDecl;
  funcReturnType : DataType;
  funcBody : list ASTNode
}.

(** *** Run-time data ([types.ts]) *)

(** [interface Variable] ([Variable] is a reserved word here).  Variable records are JS objects and two names
    can refer to one record (a BYREF parameter), so the records live in a
    heap and names are bound to references. *)
Record VariableRecord := mkVariable {
  type : DataType;
  value : any;
  dimensions : option (list (Z * Z));
  elementType : option DataType;
  initialized : bool
}.

(** The objects [createArray] builds and [setArrayElement] updates: an
    element is [{ initialized, value }], an array maps its indices to
    elements or, for the outer dimensions, to arrays.  Both are JS objects,
    and an assignment can add an indexed slot to an element, so one type
    has the two named properties, each absent or present, and the slots.  A
    slot's key is the number used as index. *)
Inductive JSObject :=
| mkObject (initialized : option bool) (value : option any)
           (slots : list (number * JSObject)).

(** [interface ExecutionContext]; [procedures] and [functions] are the
    maps of the global context in every context and are kept once, in the
    interpreter. *)
Record ExecutionContext := mkContext {
  variables : gmap string nat;
  parent : option nat
}.

Inductive FrameType := FrameProcedure | FrameFunction | FrameMain.

(** [interface CallStackFrame] *)
Record CallStackFrame := mkFrame {
  frameName : string;
  frameLine : Z;
  frameType : FrameType
}.

(** [interface FileHandle] *)
Record FileHandle := mkFileHandle {
  mode : FileMode;
  data : list string;
  position : nat
}.

(** [const MAX_ITERATIONS = 10000; const MAX_RECURSION_DEPTH = 1000;] *)
Definition MAX_ITERATIONS : Z := 10000.
Definition MAX_RECURSION_DEPTH : Z := 1000.

(** The fields of [class Interpreter], together with the three heaps of
    the objects it allocates (variable records, array objects, execution
    contexts), the lines it has yielded so far ([output]) and the answers
    the input handler will give ([pendingInput]).  [globalContext] is the
    reference of the global context. *)
Record Interpreter := mkInterpreter {
  variableHeap : gmap nat VariableRecord;
  arrayHeap : gmap nat JSObject;
  contextHeap : gmap nat ExecutionContext;
  nextRef : nat;
  globalContext : nat;
  procedures : gmap string ProcedureNode;
  functions : gmap string FunctionNode;
  iterationCount : Z;
  recursionDepth : Z;
  debugMode : bool;
  hasStepCallback : bool;
  callStack : list CallStackFrame;
  fileHandles : gmap string FileHandle;
  fileWriteOutput : bool;
  fileUploadHandler : option (string → string);
  memory : Memory.MemoryEngine;
  variableAddresses : gmap string Z;
  randomCalls : nat;
  pendingInput : list string;
  output : list string
}.

(** What can be thrown: a [RuntimeError] with its message and line, the
    [ReturnValue] of a RETURN statement, or a [TypeError] of the JS engine
    itself (a property of [undefined], a missing method). *)
Inductive Exception :=
| RuntimeError (message : string) (line : Z)
| ReturnValue (value : any)
| TypeError (message : string).

(** The outcome of running a piece of the interpreter from a state: it
    returns, throws, waits for an input that never comes, or has not
    finished within the given number of nested calls and loop turns. *)
Inductive Outcome (A : Type) :=
| Done (a : A) (st : Interpreter)
| Thrown (e : Exception) (st : Interpreter)
| Suspended (st : Interpreter)
| Unfinished.
Arguments Done {A} a st.
Arguments Thrown {A} e st.
Arguments Suspended {A} st.
Arguments Unfinished {A}.

Definition M (A : Type) : Type := Interpreter → Outcome A.

Definition ret {A} (a : A) : M A := λ st, Done a st.
Definition throw {A} (e : Exception) : M A := λ st, Thrown e st.
Definition bind {A B} (m : M A) (k : A → M B) : M B :=
  λ st, match m st with
        | Done a st' => k a st'
        | Thrown e st' => Thrown e st'
        | Suspended st' => Suspended st'
        | Unfinished => Unfinished
        end.
Definition get : M Interpreter := λ st, Done st st.
Definition modify (f : Interpreter → Interpreter) : M unit := λ st, Done tt (f st).

(** [try { m } finally { f }] *)
Definition finally {A} (m : M A) (f : Interpreter → Interpreter) : M A :=
  λ st, match m st with
        | Done a st' => Done a (f st')
        | Thrown e st' => Thrown e (f st')
        | Suspended st' => Suspended st'
        | Unfinished => Unfinished
        end.

(** [try { m } catch (e) { h e }] *)
Definition catch {A} (m : M A) (h : Exception → M A) : M A :=
  λ st, match m st with
        | Thrown e st' => h e st'
        | r => r
        end.

Declare Scope interp_scope.
Delimit Scope interp_scope with interp.
Notation "'let*' x := m 'in' k" := (bind m (λ x, k))
  (at level 10, x pattern, m at level 100, k at level 200) : interp_scope.
Notation "m >> k" := (bind m (λ _, k))
  (at level 100, k at level 200, right associativity) : interp_scope.
Local Open Scope interp_scope.

(** [for (const x of xs) { f x }] *)
Fixpoint forEach {A} (f : A → M unit) (xs : list A) : M unit :=
  match xs with
  | [] => ret tt
  | x :: xs' => f x >> forEach f xs'
  end.

(** [xs.map(f)] for an [f] that can throw. *)
Fixpoint mapM {A B} (f : A → M B) (xs : list A) : M (list B) :=
  match xs with
  | [] => ret []
  | x :: xs' => let* y := f x in let* ys := mapM f xs' in ret (y :: ys)
  end.

(** Field updates of the interpreter state. *)
Definition setVariableHeap (x : gmap nat VariableRecord) (st : Interpreter) : Interpreter :=
  mkInterpreter x (arrayHeap st) (contextHeap st) (nextRef st) (globalContext st) (procedures st) (functions st) (iterationCount st) (recursionDepth st) (debugMode st) (hasStepCallback st) (callStack st) (fileHandles st) (fileWriteOutput st) (fileUploadHandler st) (memory st) (variableAddresses st) (randomCalls st) (pendingInput st) (output st).
Definition setArrayHeap (x : gmap nat JSObject) (st : Interpreter) : Interpreter :=
  mkInterpreter (variableHeap st) x (contextHeap st) (nextRef st) (globalContext st) (procedures st) (functions st) (iterationCount st) (recursionDepth st) (debugMode st) (hasStepCallback st) (callStack st) (fileHandles st) (fileWriteOutput st) (fileUploadHandler st) (memory st) (variableAddresses st) (randomCalls st) (pendingInput st) (output st).
Definition setContextHeap (x : gmap nat ExecutionContext) (st : Interpreter) : Interpreter :=
  mkInterpreter (variableHeap st) (arrayHeap st) x (nextRef st) (globalContext st) (procedures st) (functions st) (iterationCount st) (recursionDepth st) (debugMode st) (hasStepCallback st) (callStack st) (fileHandles st) (fileWriteOutput st) (fileUploadHandler st) (memory st) (variableAddresses st) (randomCalls st) (pendingInput st) (output st).
Definition setNextRef (x : nat) (st : Interpreter) : Interpreter :=
  mkInterpreter (variableHeap st) (arrayHeap st) (contextHeap st) x (globalContext st) (procedures st) (functions st) (iterationCount st) (recursionDepth st) (debugMode st) (hasStepCallback st) (callStack st) (fileHandles st) (fileWriteOutput st) (fileUploadHandler st) (memory st) (variableAddresses st) (randomCalls st) (pendingInput st) (output st).
Definition setProcedures (x : gmap string ProcedureNode) (st : Interpreter) : Interpreter :=
  mkInterpreter (variableHeap st) (arrayHeap st) (contextHeap st) (nextRef st) (globalContext st) x (functions st) (iterationCount st) (recursionDepth st) (debugMode st) (hasStepCallback st) (callStack st) (fileHandles st) (fileWriteOutput st) (fileUploadHandler st) (memory st) (variableAddresses st) (randomCalls st) (pendingInput st) (output st).
Definition setFunctions (x : gmap string FunctionNode) (st : Interpreter) : Interpreter :=
  mkInterpreter (variableHeap st) (arrayHeap st) (contextHeap st) (nextRef st) (globalContext st) (procedures st) x (iterationCount st) (recursionDepth st) (debugMode st) (hasStepCallback st) (callStack st) (fileHandles st) (fileWriteOutput st) (fileUploadHandler st) (memory st) (variableAddresses st) (randomCalls st) (pendingInput st) (output st).
Definition setIterationCount (x : Z) (st : Interpreter) : Interpreter :=
  mkInterpreter (variableHeap st) (arrayHeap st) (contextHeap st) (nextRef st) (globalContext st) (procedures st) (functions st) x (recursionDepth st) (debugMode st) (hasStepCallback st) (callStack st) (fileHandles st) (fileWriteOutput st) (fileUploadHandler st) (memory st) (variableAddresses st) (randomCalls st) (pendingInput st) (output st).
Definition setRecursionDepth (x : Z) (st : Interpreter) : Interpreter :=
  mkInterpreter (variableHeap st) (arrayHeap st) (contextHeap st) (nextRef st) (globalContext st) (procedures st) (functions st) (iterationCount st) x (debugMode st) (hasStepCallback st) (callStack st) (fileHandles st) (fileWriteOutput st) (fileUploadHandler st) (memory st) (variableAddresses st) (randomCalls st) (pendingInput st) (output st).
Definition setCallStack (x : list CallStackFrame) (st : Interpreter) : Interpreter :=
  mkInterpreter (variableHeap st) (arrayHeap st) (contextHeap st) (nextRef st) (globalContext st) (procedures st) (functions st) (iterationCount st) (recursionDepth st) (debugMode st) (hasStepCallback st) x (fileHandles st) (fileWriteOutput st) (fileUploadHandler st) (memory st) (variableAddresses st) (randomCalls st) (pendingInput st) (output st).
Definition setFileHandles (x : gmap string FileHandle) (st : Interpreter) : Interpreter :=
  mkInterpreter (variableHeap st) (arrayHeap st) (contextHeap st) (nextRef st) (globalContext st) (procedures st) (functions st) (iterationCount st) (recursionDepth st) (debugMode st) (hasStepCallback st) (callStack st) x (fileWriteOutput st) (fileUploadHandler st) (memory st) (variableAddresses st) (randomCalls st) (pendingInput st) (output st).
Definition setRandomCalls (x : nat) (st : Interpreter) : Interpreter :=
  mkInterpreter (variableHeap st) (arrayHeap st) (contextHeap st) (nextRef st) (globalContext st) (procedures st) (functions st) (iterationCount st) (recursionDepth st) (debugMode st) (hasStepCallback st) (callStack st) (fileHandles st) (fileWriteOutput st) (fileUploadHandler st) (memory st) (variableAddresses st) x (pendingInput st) (output st).
Definition setPendingInput (x : list string) (st : Interpreter) : Interpreter :=
  mkInterpreter (variableHeap st) (arrayHeap st) (contextHeap st) (nextRef st) (globalContext st) (procedures st) (functions st) (iterationCount st) (recursionDepth st) (debugMode st) (hasStepCallback st) (callStack st) (fileHandles st) (fileWriteOutput st) (fileUploadHandler st) (memory st) (variableAddresses st) (randomCalls st) x (output st).
Definition setOutput (x : list string) (st : Interpreter) : Interpreter :=
  mkInterpreter (variableHeap st) (arrayHeap st) (contextHeap st) (nextRef st) (globalContext st) (procedures st) (functions st) (iterationCount st) (recursionDepth st) (debugMode st) (hasStepCallback st) (callStack st) (fileHandles st) (fileWriteOutput st) (fileUploadHandler st) (memory st) (variableAddresses st) (randomCalls st) (pendingInput st) x.

(** [new Interpreter(..)]: the global context is the first object. *)
Definition create (inputs : list string) (debug step fileWrite : bool)
                  (upload : option (string → string)) : Interpreter :=
  {| variableHeap := ∅; arrayHeap := ∅;
     contextHeap := {[ 0%nat := mkContext ∅ None ]};
     nextRef := 1; globalContext := 0;
     procedures := ∅; functions := ∅;
     iterationCount := 0; recursionDepth := 0;
     debugMode := debug; hasStepCallback := step;
     callStack := [mkFrame "main" 1 FrameMain];
     fileHandles := ∅; fileWriteOutput := fileWrite; fileUploadHandler := upload;
     memory := Memory.create Memory.DEFAULT_SIZE; variableAddresses := ∅;
     randomCalls := 0; pendingInput := inputs; output := [] |}.

(** *** Objects and references *)

(** A fresh variable record, [{ type, value, .. }]. *)
Definition allocVariable (v : VariableRecord) : M nat :=
  λ st, Done (nextRef st)
             (setNextRef (S (nextRef st))
                (setVariableHeap (<[nextRef st := v]> (variableHeap st)) st)).

(** A fresh array object. *)
Definition allocArray (o : JSObject) : M nat :=
  λ st, Done (nextRef st)
             (setNextRef (S (nextRef st))
                (setArrayHeap (<[nextRef st := o]> (arrayHeap st)) st)).

(** A fresh execution context. *)
Definition allocContext (c : ExecutionContext) : M nat :=
  λ st, Done (nextRef st)
             (setNextRef (S (nextRef st))
                (setContextHeap (<[nextRef st := c]> (contextHeap st)) st)).

(** [context.variables.set(name, record)] *)
Definition bindName (context : nat) (name : string) (ref : nat) : M unit :=
  modify (λ st, setContextHeap
                  (alter (λ c, mkContext (<[name := ref]> (variables c)) (parent c))
                         context (contextHeap st)) st).

(** A read of the record behind a reference; references are never
    dangling, the [TypeError] is there to make the function total. *)
Definition readVariable (ref : nat) : M VariableRecord :=
  λ st, match variableHeap st !! ref with
        | Some v => Done v st
        | None => Thrown (TypeError "Cannot read properties of undefined") st
        end.

(** [variable.value = v; variable.initialized = true;] *)
Definition assignVariable (ref : nat) (v : any) : M unit :=
  modify (λ st, setVariableHeap
                  (alter (λ r, mkVariable (type r) v (dimensions r) (elementType r) true)
                         ref (variableHeap st)) st).

(** The [while (current)] loop of [getVariable], for at most [n] contexts
    of the parent chain. *)
Fixpoint lookupChain (n : nat) (heap : gmap nat ExecutionContext)
                     (current : option nat) (name : string) : option nat :=
  match n, current with
  | S n', Some c =>
      match heap !! c with
      | Some ctx =>
          match variables ctx !! name with
          | Some ref => Some ref
          | None => lookupChain n' heap (parent ctx) name
          end
      | None => None
      end
  | _, _ => None
  end.

(** [private getVariable(name, context)]: the record found, as a
    reference.  A parent chain has no cycle, so it is no longer than the
    number of contexts. *)
Definition getVariable (name : string) (context : nat) (st : Interpreter) : option nat :=
  lookupChain (S (size (contextHeap st))) (contextHeap st) (Some context) name.

(** What [arr] and [arr[idx]] can be in [getArrayElement] and
    [setArrayElement]: a primitive value ([undefined] included) or an
    object. *)
Inductive JSRef :=
| RPrimitive (v : any)
| RObject (o : JSObject).

(** Two numbers name the same property. *)
Definition keyEqb (a b : number) : bool :=
  match a, b with
  | NaN, NaN => true
  | _, _ => JS.eqb a b
  end.

Fixpoint lookupSlot (key : number) (slots : list (number * JSObject)) : option JSObject :=
  match slots with
  | [] => None
  | (k, o) :: slots' => if keyEqb k key then Some o else lookupSlot key slots'
  end.

Fixpoint storeSlot (key : number) (o : JSObject) (slots : list (number * JSObject))
  : list (number * JSObject) :=
  match slots with
  | [] => [(key, o)]
  | (k, o') :: slots' =>
      if keyEqb k key then (k, o) :: slots' else (k, o') :: storeSlot key o slots'
  end.

(** The value of a variable seen as the [arr] argument. *)
Definition resolve (v : any) (st : Interpreter) : JSRef :=
  match v with
  | VArray ref => match arrayHeap st !! ref with
                  | Some o => RObject o
                  | None => RPrimitive VUndefined
                  end
  | _ => RPrimitive v
  end.

(** The index of a character, when the number is one. *)
Definition charIndex (idx : number) (s : string) : option nat :=
  match idx with
  | Fin q => if Qeq_bool q (inject_Z (Qfloor q)) && (0 <=? Qfloor q)
                && (Qfloor q <? Z.of_nat (String.length s))
             then Some (Z.to_nat (Qfloor q)) else None
  | _ => None
  end.

(** [arr[idx]] as a read. *)
Definition getProperty (arr : JSRef) (idx : number) : Exception + JSRef :=
  match arr with
  | RPrimitive VUndefined => inl (TypeError "Cannot read properties of undefined")
  | RPrimitive (VString s) =>
      match charIndex idx s with
      | Some k => inr (RPrimitive (VString (String.substring k 1 s)))
      | None => inr (RPrimitive VUndefined)
      end
  | RPrimitive _ => inr (RPrimitive VUndefined)
  | RObject (mkObject _ _ slots) =>
      match lookupSlot idx slots with
      | Some o => inr (RObject o)
      | None => inr (RPrimitive VUndefined)
      end
  end.

(** [element.initialized] as a condition. *)
Definition readInitialized (element : JSRef) : Exception + bool :=
  match element with
  | RPrimitive VUndefined => inl (TypeError "Cannot read properties of undefined")
  | RPrimitive _ => inr false
  | RObject (mkObject i _ _) => inr (default false i)
  end.

(** [element.value] *)
Definition readValue (element : JSRef) : any :=
  match element with
  | RObject (mkObject _ v _) => default VUndefined v
  | RPrimitive _ => VUndefined
  end.

Definition outOfBounds (idx : number) (lower upper : Z) : bool :=
  JS.ltb idx (ofZ lower) || JS.gtb idx (ofZ upper).

(** [private getArrayElement(arr, indices, dimensions, line)] *)
Fixpoint getArrayElement (arr : JSRef) (indices : list number)
                         (dimensions : list (Z * Z)) (line : Z) : Exception + any :=
  match indices, dimensions with
  | [], _ | _, [] => inl (TypeError "undefined is not iterable")
  | [idx], (lower, upper) :: _ =>
      if outOfBounds idx lower upper
      then inl (RuntimeError "Array index out of bounds" line)
      else match getProperty arr idx with
           | inl e => inl e
           | inr element =>
               match readInitialized element with
               | inl e => inl e
               | inr false => inl (RuntimeError "Array element accessed before assignment" line)
               | inr true => inr (readValue element)
               end
           end
  | idx :: rest, (lower, upper) :: dimensions' =>
      if outOfBounds idx lower upper
      then inl (RuntimeError "Array index out of bounds" line)
      else match getProperty arr idx with
           | inl e => inl e
           | inr sub => getArrayElement sub rest dimensions' line
           end
  end.

(** [private setArrayElement(arr, indices, value, dimensions, line)]: the
    object [arr] after the update.  Class bodies are strict code, where a
    property of a primitive cannot be set. *)
Fixpoint setArrayElement (arr : JSRef) (indices : list number) (v : any)
                         (dimensions : list (Z * Z)) (line : Z) : Exception + JSObject :=
  match indices, dimensions with
  | [], _ | _, [] => inl (TypeError "undefined is not iterable")
  | [idx], (lower, upper) :: _ =>
      if outOfBounds idx lower upper
      then inl (RuntimeError "Array index out of bounds" line)
      else match arr with
           | RPrimitive _ => inl (TypeError "Cannot set properties of a primitive")
           | RObject (mkObject i w slots) =>
               inr (mkObject i w (storeSlot idx (mkObject (Some true) (Some v) []) slots))
           end
  | idx :: rest, (lower, upper) :: dimensions' =>
      if outOfBounds idx lower upper
      then inl (RuntimeError "Array index out of bounds" line)
      else match getProperty arr idx with
           | inl e => inl e
           | inr sub =>
               match setArrayElement sub rest v dimensions' line, arr with
               | inl e, _ => inl e
               | inr sub', RObject (mkObject i w slots) =>
                   inr (mkObject i w (storeSlot idx sub' slots))
               | inr _, RPrimitive _ => inl (TypeError "Cannot set properties of a primitive")
               end
           end
  end.

(** [private createArray(dimensions)]; [None] is the [TypeError] of an
    empty dimension list. *)
Fixpoint createArray (dimensions : list (Z * Z)) : option JSObject :=
  match dimensions with
  | [] => None
  | [(lower, upper)] =>
      Some (mkObject None None
              ((λ i, (ofZ i, mkObject (Some false) (Some VUndefined) []))
                 <$> seqZ lower (upper - lower + 1)))
  | (lower, upper) :: dimensions' =>
      if decide (lower ≤ upper) then
        match createArray dimensions' with
        | Some sub =>
            Some (mkObject None None ((λ i, (ofZ i, sub)) <$> seqZ lower (upper - lower + 1)))
        | None => None
        end
      else Some (mkObject None None [])
  end.

(** *** Expressions *)

Section Evaluator.
Variable host : Host.

(** [private valueToString(value)] *)
Definition valueToString (v : any) : string :=
  match v with
  | VBoolean b => if b then "TRUE" else "FALSE"
  | VUndefined => ""
  | VNumber n => numberToString host n
  | VString s => s
  | VArray _ => "[object Object]"
  end.

(** [String(value)] *)
Definition jsString (v : any) : string :=
  match v with
  | VBoolean b => if b then "true" else "false"
  | VUndefined => "undefined"
  | VNumber n => numberToString host n
  | VString s => s
  | VArray _ => "[object Object]"
  end.

(** The conversion to a number that [<=], [>=] and [+] apply to an
    operand. *)
Definition toNumber (v : any) : number :=
  match v with
  | VUndefined => NaN
  | VNumber n => n
  | VString s => stringToNumber host s
  | VBoolean b => if b then ofZ 1 else ofZ 0
  | VArray _ => NaN
  end.

(** [value + n] for a number [n], as in [variable.value += ..]. *)
Definition jsPlus (v : any) (n : number) : any :=
  match v with
  | VString _ | VArray _ => VString (jsString v +:+ numberToString host n)
  | _ => VNumber (JS.add (toNumber v) n)
  end.

(** [typeof v === 'number' ? v : parseFloat(String(v))] *)
Definition caseNumber (v : any) : number :=
  match v with
  | VNumber n => n
  | _ => parseFloat host (jsString v)
  end.

(** [s.substring(from, to)] *)
Definition clampIndex (n : number) (len : nat) : nat :=
  match n with
  | Fin q => Z.to_nat (Z.min (Z.max (Qtrunc q) 0) (Z.of_nat len))
  | PInf => len
  | NInf | NaN => 0
  end.

Definition substring (s : string) (from to : number) : string :=
  let a := clampIndex from (String.length s) in
  let b := clampIndex to (String.length s) in
  String.substring (Nat.min a b) (Nat.max a b - Nat.min a b) s.

(** [content.split('\n')] *)
Fixpoint splitLines (current : string) (s : string) : list string :=
  match s with
  | EmptyString => [current]
  | String c s' =>
      if Ascii.eqb c "010"%char then current :: splitLines "" s'
      else splitLines (current +:+ String c "") s'
  end.

(** The interpreter seen from inside one of its methods: the methods it
    can call on [this].  A call through [this] is a deeper level of the
    run; a turn of a [while] or [for] loop counts as one too. *)
Record Self := mkSelf {
  this_evaluateExpression : ExpressionNode → nat → M any;
  this_executeNode : ASTNode → nat → M unit;
  this_executeSyncNode : ASTNode → nat → M unit;
  this_whileLoop : bool → ExpressionNode → list ASTNode → Z → nat → M unit;
  this_repeatLoop : bool → list ASTNode → ExpressionNode → Z → nat → M unit;
  this_forLoop : bool → bool → nat → number → number → list ASTNode → nat → M unit
}.

(** The statements of a function body run through [executeSyncNode], all
    others through [executeNode]; the two copies of each statement
    method in the source differ in nothing else and are one definition
    here, with the flag [sync]. *)
Definition runNode (this : Self) (sync : bool) : ASTNode → nat → M unit :=
  if sync then this_executeSyncNode this else this_executeNode this.

Definition liftResult {A} (r : Exception + A) : M A :=
  match r with
  | inl e => throw e
  | inr a => ret a
  end.

(** [private evaluateIdentifier(node, context)] *)
Definition evaluateIdentifier (name : string) (line : Z) (context : nat) : M any :=
  let* st := get in
  match getVariable name context st with
  | None => throw (RuntimeError ("Variable '" +:+ name +:+ "' not declared") line)
  | Some ref =>
      let* variable := readVariable ref in
      if initialized variable then ret (value variable)
      else throw (RuntimeError ("Variable '" +:+ name +:+ "' used before assignment") line)
  end.

(** [indices.map(idx => { .. return Math.floor(val); })] *)
Definition evaluateIndices (this : Self) (indices : list ExpressionNode)
                           (context : nat) (line : Z) : M (list number) :=
  mapM (λ idx,
          let* val := this_evaluateExpression this idx context in
          match val with
          | VNumber n => ret (JS.floor n)
          | _ => throw (RuntimeError "Array index must be a number" line)
          end) indices.

(** The array variable of an access: declared, and of type ARRAY. *)
Definition arrayVariable (array : string) (context : nat) (line : Z) : M nat :=
  let* st := get in
  match getVariable array context st with
  | None => throw (RuntimeError ("Array '" +:+ array +:+ "' not declared") line)
  | Some ref =>
      let* variable := readVariable ref in
      match type variable with
      | ARRAY => ret ref
      | _ => throw (RuntimeError ("'" +:+ array +:+ "' is not an array") line)
      end
  end.

(** [private evaluateArrayAccess(node, context)] *)
Definition evaluateArrayAccess (this : Self) (array : string)
           (indices : list ExpressionNode) (line : Z) (context : nat) : M any :=
  let* ref := arrayVariable array context line in
  let* indices := evaluateIndices this indices context line in
  let* variable := readVariable ref in
  let* st := get in
  liftResult (getArrayElement (resolve (value variable) st) indices
                              (default [] (dimensions variable)) line).

(** The [switch (node.operator)] of [evaluateBinaryOp], on the values of
    the two operands. *)
Definition applyBinaryOp (operator : string) (left right : any) (line : Z)
  : Exception + any :=
  let arithmetic (f : number → number → Exception + any) :=
    match left, right with
    | VNumber l, VNumber r => f l r
    | _, _ => inl (RuntimeError "Cannot perform arithmetic on non-numbers" line)
    end in
  let division (f : number → number → number) :=
    arithmetic (λ l r, if JS.isZero r then inl (RuntimeError "Division by zero" line)
                       else inr (VNumber (f l r))) in
  let comparison (onNumbers : number → number → bool)
                 (onStrings : string → string → bool) :=
    match left, right with
    | VNumber l, VNumber r => inr (VBoolean (onNumbers l r))
    | VString l, VString r => inr (VBoolean (onStrings l r))
    | _, _ => inl (RuntimeError "Invalid comparison" line)
    end in
  let logical (f : bool → bool → bool) :=
    match left, right with
    | VBoolean l, VBoolean r => inr (VBoolean (f l r))
    | _, _ => inl (RuntimeError "Logical operators require boolean operands" line)
    end in
  if String.eqb operator "+" then arithmetic (λ l r, inr (VNumber (JS.add l r)))
  else if String.eqb operator "-" then arithmetic (λ l r, inr (VNumber (JS.sub l r)))
  else if String.eqb operator "*" then arithmetic (λ l r, inr (VNumber (JS.mul l r)))
  else if String.eqb operator "/" then division JS.div
  else if String.eqb operator "DIV" then division (λ l r, JS.floor (JS.div l r))
  else if String.eqb operator "MOD" then division JS.rem
  else if String.eqb operator "&" then
    inr (VString (valueToString left +:+ valueToString right))
  else if String.eqb operator "=" then inr (VBoolean (strictEquals left right))
  else if String.eqb operator "<>" then inr (VBoolean (negb (strictEquals left right)))
  else if String.eqb operator "<" then comparison JS.ltb stringLtb
  else if String.eqb operator ">" then
    comparison JS.gtb (λ l r, stringLtb r l)
  else if String.eqb operator "<=" then comparison JS.leb stringLeb
  else if String.eqb operator ">=" then
    comparison JS.geb (λ l r, stringLeb r l)
  else if String.eqb operator "AND" then logical andb
  else if String.eqb operator "OR" then logical orb
  else inl (RuntimeError ("Unknown operator: " +:+ operator) line).

(** [private evaluateBinaryOp(node, context)] *)
Definition evaluateBinaryOp (this : Self) (operator : string)
           (left right : ExpressionNode) (line : Z) (context : nat) : M any :=
  let* l := this_evaluateExpression this left context in
  let* r := this_evaluateExpression this right context in
  liftResult (applyBinaryOp operator l r line).

(** [private evaluateUnaryOp(node, context)] *)
Definition evaluateUnaryOp (this : Self) (operator : string) (operand : ExpressionNode)
           (line : Z) (context : nat) : M any :=
  let* v := this_evaluateExpression this operand context in
  if String.eqb operator "-" then
    match v with
    | VNumber n => ret (VNumber (JS.neg n))
    | _ => throw (RuntimeError "Cannot negate non-number" line)
    end
  else if String.eqb operator "NOT" then
    match v with
    | VBoolean b => ret (VBoolean (negb b))
    | _ => throw (RuntimeError "NOT requires boolean operand" line)
    end
  else throw (RuntimeError ("Unknown unary operator: " +:+ operator) line).

(** [private evaluateBuiltInFunction(name, args, context, line)];
    [None] is the [undefined] of a name that is no built-in. *)
Definition evaluateBuiltInFunction (this : Self) (name : string)
           (args : list ExpressionNode) (context : nat) (line : Z) : M (option any) :=
  let arg (k : nat) : M any :=
    match args !! k with
    | Some e => this_evaluateExpression this e context
    | None => throw (TypeError "Cannot read properties of undefined")
    end in
  let arity (n : nat) (message : string) (k : M (option any)) : M (option any) :=
    if decide (length args = n) then k else throw (RuntimeError message line) in
  if String.eqb name "LENGTH" then
    arity 1%nat "LENGTH requires 1 parameter"
      (let* str := arg 0%nat in
       match str with
       | VString s => ret (Some (VNumber (ofZ (Z.of_nat (String.length s)))))
       | _ => throw (RuntimeError "LENGTH requires string parameter" line)
       end)
  else if String.eqb name "SUBSTRING" then
    arity 3%nat "SUBSTRING requires 3 parameters"
      (let* substr := arg 0%nat in
       let* start := arg 1%nat in
       let* len := arg 2%nat in
       match substr, start, len with
       | VString s, VNumber from, VNumber n =>
           if JS.ltb from (ofZ 1) then
             throw (RuntimeError "SUBSTRING start position must be >= 1" line)
           else if JS.ltb n (ofZ 0) then
             throw (RuntimeError "SUBSTRING length cannot be negative" line)
           else ret (Some (VString (substring s (JS.sub from (ofZ 1))
                                                (JS.add (JS.sub from (ofZ 1)) n))))
       | _, _, _ => throw (RuntimeError "SUBSTRING parameter type mismatch" line)
       end)
  else if String.eqb name "UCASE" then
    arity 1%nat "UCASE requires 1 parameter"
      (let* v := arg 0%nat in
       match v with
       | VString s => ret (Some (VString (toUpperCase host s)))
       | _ => throw (RuntimeError "UCASE requires string parameter" line)
       end)
  else if String.eqb name "LCASE" then
    arity 1%nat "LCASE requires 1 parameter"
      (let* v := arg 0%nat in
       match v with
       | VString s => ret (Some (VString (toLowerCase host s)))
       | _ => throw (RuntimeError "LCASE requires string parameter" line)
       end)
  else if String.eqb name "INT" then
    arity 1%nat "INT requires 1 parameter"
      (let* v := arg 0%nat in
       ret (Some (VNumber
              match v with
              | VNumber n => JS.floor n
              | VString s => if JS.isNaN (parseInt host s) then ofZ 0 else parseInt host s
              | VBoolean b => if b then ofZ 1 else ofZ 0
              | _ => ofZ 0
              end)))
  else if String.eqb name "REAL" then
    arity 1%nat "REAL requires 1 parameter"
      (let* v := arg 0%nat in
       ret (Some (VNumber
              match v with
              | VNumber n => n
              | VString s => if JS.isNaN (parseFloat host s) then ofZ 0 else parseFloat host s
              | VBoolean b => if b then ofZ 1 else ofZ 0
              | _ => ofZ 0
              end)))
  else if String.eqb name "STRING" then
    arity 1%nat "STRING requires 1 parameter"
      (let* v := arg 0%nat in ret (Some (VString (valueToString v))))
  else if String.eqb name "ROUND" then
    arity 2%nat "ROUND requires 2 parameters"
      (let* roundVal := arg 0%nat in
       let* decimals := arg 1%nat in
       match roundVal, decimals with
       | VNumber x, VNumber d =>
           let multiplier := Math_pow host (ofZ 10) d in
           ret (Some (VNumber (JS.div (JS.round (JS.mul x multiplier)) multiplier)))
       | _, _ => throw (RuntimeError "ROUND parameter type mismatch" line)
       end)
  else if String.eqb name "RANDOM" then
    if decide (length args = 0%nat) then
      let* st := get in
      modify (setRandomCalls (S (randomCalls st))) >>
      ret (Some (VNumber (Math_random host (randomCalls st))))
    else throw (RuntimeError "RANDOM takes no parameters" line)
  else if String.eqb name "EOF" then
    arity 1%nat "EOF requires 1 parameter"
      (let* v := arg 0%nat in
       let filename := valueToString v in
       if String.eqb filename "" then throw (RuntimeError "Filename cannot be empty" line)
       else
         let* st := get in
         match fileHandles st !! filename with
         | None => throw (RuntimeError ("File '" +:+ filename +:+ "' is not open") line)
         | Some fileHandle =>
             match mode fileHandle with
             | READ => ret (Some (VBoolean
                              (Nat.leb (length (data fileHandle)) (position fileHandle))))
             | _ => throw (RuntimeError
                             "EOF can only be used with files opened for reading" line)
             end
         end)
  else ret None.

(** The parameter loop of [executeProcedure] and [executeFunction]. *)
Fixpoint bindParameters (this : Self) (parameters : list ParameterDecl)
         (args : list ExpressionNode) (localContext callerContext : nat)
         (callLine : Z) : M unit :=
  match parameters, args with
  | param :: parameters', arg :: args' =>
      (if byRef param then
         match arg with
         | Identifier varName _ =>
             let* st := get in
             match getVariable varName callerContext st with
             | None => throw (RuntimeError ("Variable '" +:+ varName +:+ "' not found")
                                           callLine)
             | Some variable => bindName localContext (paramName param) variable
             end
         | _ => throw (RuntimeError "BYREF parameter must be a variable" callLine)
         end
       else
         let* v := this_evaluateExpression this arg callerContext in
         let* variable := allocVariable (mkVariable (paramType param) v None None true) in
         bindName localContext (paramName param) variable) >>
      bindParameters this parameters' args' localContext callerContext callLine
  | _, _ => ret tt
  end.

(** [this.recursionDepth++] and the check that follows. *)
Definition enterCall (callLine : Z) : M unit :=
  let* st := get in
  modify (setRecursionDepth (recursionDepth st + 1)) >>
  if decide (recursionDepth st + 1 > MAX_RECURSION_DEPTH)
  then throw (RuntimeError "Maximum recursion depth exceeded" callLine)
  else ret tt.

Definition newLocalContext : M nat :=
  let* st := get in
  allocContext (mkContext ∅ (Some (globalContext st))).

(** [private executeFunction(func, args, callerContext, callLine)] *)
Definition executeFunction (this : Self) (func : FunctionNode)
           (args : list ExpressionNode) (callerContext : nat) (callLine : Z) : M any :=
  if decide (length args ≠ length (funcParameters func)) then
    throw (RuntimeError ("Incorrect number of arguments for function '"
                         +:+ funcName func +:+ "'") callLine)
  else
    enterCall callLine >>
    let* localContext := newLocalContext in
    bindParameters this (funcParameters func) args localContext callerContext callLine >>
    finally
      (catch
         (forEach (λ stmt, this_executeSyncNode this stmt localContext) (funcBody func) >>
          throw (RuntimeError ("Function '" +:+ funcName func
                               +:+ "' did not return a value") callLine))
         (λ e, match e with
               | ReturnValue v => ret v
               | _ => throw e
               end))
      (λ st, setRecursionDepth (recursionDepth st - 1) st).

(** [private evaluateFunctionCall(node, context)] *)
Definition evaluateFunctionCall (this : Self) (name : string)
           (args : list ExpressionNode) (line : Z) (context : nat) : M any :=
  let* builtIn := evaluateBuiltInFunction this name args context line in
  match builtIn with
  | Some v => ret v
  | None =>
      let* st := get in
      match functions st !! name with
      | Some func => executeFunction this func args context line
      | None => throw (RuntimeError ("Function '" +:+ name +:+ "' not found") line)
      end
  end.

(** [private evaluateExpression(expr, context)].  The pointer nodes have
    no case and reach [default]. *)
Definition evaluateExpression (this : Self) (expr : ExpressionNode) (context : nat)
  : M any :=
  match expr with
  | Literal v _ _ => ret v
  | Identifier name line => evaluateIdentifier name line context
  | ArrayAccess array indices line => evaluateArrayAccess this array indices line context
  | BinaryOp operator lhs rhs line =>
      evaluateBinaryOp this operator lhs rhs line context
  | UnaryOp operator operand line => evaluateUnaryOp this operator operand line context
  | FunctionCall name args line => evaluateFunctionCall this name args line context
  | _ => throw (RuntimeError ("Unknown expression type: " +:+ exprType expr)
                             (exprLine expr))
  end.

(** *** Statements *)

(** [yield line] *)
Definition yield (text : string) : M unit :=
  modify (λ st, setOutput (output st ++ [text]) st).

(** [await this.inputHandler(..)]: the next answer, or a wait without
    end when there is none. *)
Definition awaitInput : M string :=
  λ st, match pendingInput st with
        | [] => Suspended st
        | input :: rest => Done input (setPendingInput rest st)
        end.

(** [private executeDeclare(node, context)] *)
Definition executeDeclare (identifier : string) (dataType : DataType)
           (arrayBounds : option (list (Z * Z))) (arrayElementType : option DataType)
           (context : nat) : M unit :=
  match dataType with
  | ARRAY =>
      match arrayBounds with
      | None => throw (TypeError "Cannot read properties of undefined")
      | Some dimensions =>
          match createArray dimensions with
          | None => throw (TypeError "undefined is not iterable")
          | Some arr =>
              let* ref := allocArray arr in
              let* variable := allocVariable
                  (mkVariable ARRAY (VArray ref) (Some dimensions) arrayElementType false) in
              bindName context identifier variable
          end
      end
  | _ =>
      let* variable := allocVariable (mkVariable dataType VUndefined None None false) in
      bindName context identifier variable
  end.

(** [this.setArrayElement(variable.value, indices, value,
    variable.dimensions!, line)], with the updated object put back. *)
Definition storeArrayElement (ref : nat) (indices : list number) (v : any) (line : Z)
  : M unit :=
  let* variable := readVariable ref in
  let* st := get in
  let* arr := liftResult (setArrayElement (resolve (value variable) st) indices v
                                          (default [] (dimensions variable)) line) in
  match value variable with
  | VArray object => modify (λ st, setArrayHeap (<[object := arr]> (arrayHeap st)) st)
  | _ => ret tt
  end.

(** The two branches on [node.target.type] that assignment and READFILE
    share: store the value [v] computes from the declared type of the
    target. *)
Definition storeTarget (this : Self) (target : ExpressionNode) (line : Z) (context : nat)
           (v : DataType → any) : M unit :=
  match target with
  | Identifier varName _ =>
      let* st := get in
      match getVariable varName context st with
      | None => throw (RuntimeError ("Variable '" +:+ varName +:+ "' not declared") line)
      | Some ref =>
          let* variable := readVariable ref in
          assignVariable ref (v (type variable))
      end
  | ArrayAccess array indices _ =>
      let* ref := arrayVariable array context line in
      let* indices := evaluateIndices this indices context line in
      let* variable := readVariable ref in
      storeArrayElement ref indices (v (default STRING (elementType variable))) line
  | _ => ret tt
  end.

(** [private async* executeAssignment(node, context)] and
    [executeSyncAssignment] *)
Definition executeAssignment (this : Self) (target valueExpr : ExpressionNode)
           (line : Z) (context : nat) : M unit :=
  let* v := evaluateExpression this valueExpr context in
  storeTarget this target line context (λ _, v).

(** [parts.join(' ')] *)
Fixpoint join (parts : list string) : string :=
  match parts with
  | [] => ""
  | [part] => part
  | part :: parts' => part +:+ " " +:+ join parts'
  end.

(** [private async* executeOutput(node, context)] *)
Definition executeOutput (this : Self) (expressions : list ExpressionNode)
           (context : nat) : M unit :=
  let* parts := mapM (λ expr, let* v := evaluateExpression this expr context in
                              ret (valueToString v)) expressions in
  yield (join parts).

(** The [switch (variable.type)] of INPUT and READFILE. *)
Definition convertInput (declared : DataType) (input : string) : any :=
  match declared with
  | INTEGER => VNumber (if truthy (parseInt host input) then parseInt host input
                        else ofZ 0)
  | REAL => VNumber (if truthy (parseFloat host input) then parseFloat host input
                     else ofZ 0)
  | BOOLEAN => VBoolean (String.eqb (toLowerCase host input) "true")
  | _ => VString input
  end.

(** [private async* executeInput(node, context)] *)
Definition executeInput (this : Self) (target : ExpressionNode) (line : Z)
           (context : nat) : M unit :=
  match target with
  | Identifier varName _ =>
      let* st := get in
      match getVariable varName context st with
      | None => throw (RuntimeError ("Variable '" +:+ varName +:+ "' not declared") line)
      | Some ref =>
          let* variable := readVariable ref in
          let* input := awaitInput in
          assignVariable ref (convertInput (type variable) input) >>
          (* Echo the entered value to output *)
          yield input
      end
  | ArrayAccess array indices _ =>
      let* ref := arrayVariable array context line in
      let* indices := evaluateIndices this indices context line in
      let* variable := readVariable ref in
      let* input := awaitInput in
      storeArrayElement ref indices
        (convertInput (default STRING (elementType variable)) input) line >>
      yield input
  | _ => ret tt
  end.

Definition expectBoolean (v : any) (message : string) (line : Z) : M bool :=
  match v with
  | VBoolean b => ret b
  | _ => throw (RuntimeError message line)
  end.

Definition runBlock (this : Self) (sync : bool) (block : list ASTNode) (context : nat)
  : M unit :=
  forEach (λ stmt, runNode this sync stmt context) block.

(** The loop over [node.elseIfBlocks]; the result is [executed]. *)
Fixpoint runElseIfs (this : Self) (sync : bool)
         (blocks : list (ExpressionNode * list ASTNode)) (line : Z) (context : nat)
  : M bool :=
  match blocks with
  | [] => ret false
  | (condition, block) :: blocks' =>
      let* v := evaluateExpression this condition context in
      let* c := expectBoolean v "ELSE IF condition must be boolean" line in
      if c then runBlock this sync block context >> ret true
      else runElseIfs this sync blocks' line context
  end.

(** [private async* executeIf(node, context)] and [executeSyncIf] *)
Definition executeIf (this : Self) (sync : bool) (condition : ExpressionNode)
           (thenBlock : list ASTNode)
           (elseIfBlocks : option (list (ExpressionNode * list ASTNode)))
           (elseBlock : option (list ASTNode)) (line : Z) (context : nat) : M unit :=
  let* v := evaluateExpression this condition context in
  let* c := expectBoolean v "IF condition must be boolean" line in
  if c then runBlock this sync thenBlock context
  else match elseIfBlocks, elseBlock with
       | Some blocks, _ =>
           let* executed := runElseIfs this sync blocks line context in
           match executed, elseBlock with
           | false, Some block => runBlock this sync block context
           | _, _ => ret tt
           end
       | None, Some block => runBlock this sync block context
       | None, None => ret tt
       end.

(** [private async* executeWhile(node, context)] and [executeSyncWhile]:
    one turn of [while (true)], then the loop again. *)
Definition whileLoop (this : Self) (sync : bool) (condition : ExpressionNode)
           (body : list ASTNode) (line : Z) (context : nat) : M unit :=
  let* v := evaluateExpression this condition context in
  let* c := expectBoolean v "WHILE condition must be boolean" line in
  if c then runBlock this sync body context >>
            this_whileLoop this sync condition body line context
  else ret tt.

(** [private async* executeRepeat(node, context)] and
    [executeSyncRepeat] *)
Definition repeatLoop (this : Self) (sync : bool) (body : list ASTNode)
           (condition : ExpressionNode) (line : Z) (context : nat) : M unit :=
  runBlock this sync body context >>
  let* v := evaluateExpression this condition context in
  let* c := expectBoolean v "UNTIL condition must be boolean" line in
  if c then ret tt else this_repeatLoop this sync body condition line context.

(** [variable.value += Math.floor(step)] *)
Definition advance (ref : nat) (step : number) : M unit :=
  modify (λ st, setVariableHeap
                  (alter (λ r, mkVariable (type r) (jsPlus (value r) (JS.floor step))
                                          (dimensions r) (elementType r) (initialized r))
                         ref (variableHeap st)) st).

(** The two [while] loops of [executeFor]: [up] for [step > 0]. *)
Definition forLoop (this : Self) (sync up : bool) (variable : nat)
           (end_ step : number) (body : list ASTNode) (context : nat) : M unit :=
  let* record := readVariable variable in
  if (if up then JS.leb (toNumber (value record)) end_
      else JS.geb (toNumber (value record)) end_)
  then runBlock this sync body context >>
       advance variable step >>
       this_forLoop this sync up variable end_ step body context
  else ret tt.

(** [private async* executeFor(node, context)] and [executeSyncFor] *)
Definition executeFor (this : Self) (sync : bool) (variable : string)
           (start end_ step : ExpressionNode) (body : list ASTNode) (line : Z)
           (context : nat) : M unit :=
  let* st := get in
  let* ref :=
    match getVariable variable context st with
    | Some ref => ret ref
    | None =>
        (* Auto-declare loop variable if it doesn't exist *)
        let* ref := allocVariable (mkVariable INTEGER (VNumber (ofZ 0)) None None false) in
        bindName context variable ref >> ret ref
    end in
  let* startValue := evaluateExpression this start context in
  let* endValue := evaluateExpression this end_ context in
  let* stepValue := evaluateExpression this step context in
  match startValue, endValue, stepValue with
  | VNumber s, VNumber e, VNumber t =>
      if JS.isZero t then throw (RuntimeError "FOR loop STEP cannot be zero" line)
      else
        assignVariable ref (VNumber (JS.floor s)) >>
        forLoop this sync (JS.gtb t (ofZ 0)) ref e t body context
  | _, _, _ => throw (RuntimeError "FOR loop bounds must be numbers" line)
  end.

(** The loop over [node.cases]; the result tells whether a case
    matched. *)
Fixpoint runCases (this : Self) (sync : bool) (v : any) (cases : list CaseBlock)
         (context : nat) : M bool :=
  match cases with
  | [] => ret false
  | mkCaseBlock single rangeStart rangeEnd statements :: cases' =>
      let* matched :=
        match single, rangeStart, rangeEnd with
        | Some e, _, _ =>
            let* caseValue := evaluateExpression this e context in
            ret (strictEquals v caseValue)
        | None, Some s, Some e =>
            let* rangeStart := evaluateExpression this s context in
            let* rangeEnd := evaluateExpression this e context in
            ret (JS.geb (caseNumber v) (caseNumber rangeStart)
                 && JS.leb (caseNumber v) (caseNumber rangeEnd))
        | _, _, _ => ret false
        end in
      if matched then runBlock this sync statements context >> ret true
      else runCases this sync v cases' context
  end.

(** [private async* executeCase(node, context)] and [executeSyncCase] *)
Definition executeCase (this : Self) (sync : bool) (expression : ExpressionNode)
           (cases : list CaseBlock) (otherwiseBlock : option (list ASTNode))
           (context : nat) : M unit :=
  let* v := evaluateExpression this expression context in
  let* matched := runCases this sync v cases context in
  match matched, otherwiseBlock with
  | false, Some block => runBlock this sync block context
  | _, _ => ret tt
  end.

(** [private async* executeProcedure(procedure, args, callerContext,
    callLine)] *)
Definition executeProcedure (this : Self) (procedure : ProcedureNode)
           (args : list ExpressionNode) (callerContext : nat) (callLine : Z) : M unit :=
  if decide (length args ≠ length (procParameters procedure)) then
    throw (RuntimeError ("Incorrect number of arguments for procedure '"
                         +:+ procName procedure +:+ "'") callLine)
  else
    enterCall callLine >>
    let* localContext := newLocalContext in
    bindParameters this (procParameters procedure) args localContext callerContext
                   callLine >>
    (* Add to call stack *)
    modify (λ st, setCallStack
                    (callStack st ++ [mkFrame (procName procedure) callLine FrameProcedure])
                    st) >>
    finally
      (forEach (λ stmt, this_executeNode this stmt localContext) (procBody procedure))
      (λ st, setRecursionDepth (recursionDepth st - 1)
               (setCallStack (removelast (callStack st)) st)).

(** [private async* executeCall(node, context)] *)
Definition executeCall (this : Self) (name : string) (args : list ExpressionNode)
           (line : Z) (context : nat) : M unit :=
  let* st := get in
  match procedures st !! name, functions st !! name with
  | Some procedure, _ => executeProcedure this procedure args context line
  | None, Some _ =>
      throw (RuntimeError ("Use assignment to call function '" +:+ name +:+ "', not CALL")
                          line)
  | None, None => throw (RuntimeError ("Procedure '" +:+ name +:+ "' not found") line)
  end.

Definition modeName (m : FileMode) : string :=
  match m with READ => "READ" | WRITE => "WRITE" | APPEND => "APPEND" end.

(** The file name of a file statement: evaluated, printed, not empty. *)
Definition evaluateFilename (this : Self) (filename : ExpressionNode) (line : Z)
           (context : nat) : M string :=
  let* v := evaluateExpression this filename context in
  if String.eqb (valueToString v) "" then
    throw (RuntimeError "Filename cannot be empty" line)
  else ret (valueToString v).

Definition openHandle (filename : string) (line : Z) : M FileHandle :=
  let* st := get in
  match fileHandles st !! filename with
  | Some fileHandle => ret fileHandle
  | None => throw (RuntimeError ("File '" +:+ filename +:+ "' is not open") line)
  end.

Definition setHandle (filename : string) (fileHandle : FileHandle) : M unit :=
  modify (λ st, setFileHandles (<[filename := fileHandle]> (fileHandles st)) st).

(** [private async* executeOpenFile(node, context)] *)
Definition executeOpenFile (this : Self) (filename : ExpressionNode) (m : FileMode)
           (line : Z) (context : nat) : M unit :=
  let* filename := evaluateFilename this filename line context in
  let* st := get in
  match fileHandles st !! filename with
  | Some _ => throw (RuntimeError ("File '" +:+ filename +:+ "' is already open") line)
  | None =>
      let* fileHandle :=
        match m with
        | READ =>
            match fileUploadHandler st with
            | None => throw (RuntimeError
                "Cannot open file for reading: No file upload handler available" line)
            | Some upload => ret (mkFileHandle READ (splitLines "" (upload filename)) 0%nat)
            end
        | WRITE => ret (mkFileHandle WRITE [] 0%nat)
        | APPEND =>
            match fileHandles st !! filename with
            | Some existingHandle =>
                ret (mkFileHandle APPEND (data existingHandle)
                                  (length (data existingHandle)))
            | None => ret (mkFileHandle APPEND [] 0%nat)
            end
        end in
      setHandle filename fileHandle >>
      yield ("Opened file '" +:+ filename +:+ "' in " +:+ modeName m +:+ " mode")
  end.

(** [private async* executeCloseFile(node, context)] *)
Definition executeCloseFile (this : Self) (filename : ExpressionNode) (line : Z)
           (context : nat) : M unit :=
  let* filename := evaluateFilename this filename line context in
  let* fileHandle := openHandle filename line in
  match mode fileHandle with
  | WRITE | APPEND =>
      yield ("Closed file '" +:+ filename +:+ "' ("
             +:+ numberToString host (ofZ (Z.of_nat (length (data fileHandle))))
             +:+ " lines written)")
  | READ =>
      modify (λ st, setFileHandles (delete filename (fileHandles st)) st) >>
      yield ("Closed file '" +:+ filename +:+ "'")
  end.

(** [private async* executeReadFile(node, context)] *)
Definition executeReadFile (this : Self) (filename target : ExpressionNode) (line : Z)
           (context : nat) : M unit :=
  let* filename := evaluateFilename this filename line context in
  let* fileHandle := openHandle filename line in
  match mode fileHandle with
  | READ =>
      match data fileHandle !! position fileHandle with
      | Some text =>
          setHandle filename
            (mkFileHandle READ (data fileHandle) (S (position fileHandle))) >>
          storeTarget this target line context (λ declared, convertInput declared text) >>
          yield text
      | None =>
          throw (RuntimeError ("Attempt to read past end of file '" +:+ filename +:+ "'")
                              line)
      end
  | _ => throw (RuntimeError ("File '" +:+ filename +:+ "' not opened for reading") line)
  end.

(** [private async* executeWriteFile(node, context)] *)
Definition executeWriteFile (this : Self) (filename dataExpr : ExpressionNode) (line : Z)
           (context : nat) : M unit :=
  let* filename := evaluateFilename this filename line context in
  let* fileHandle := openHandle filename line in
  match mode fileHandle with
  | READ => throw (RuntimeError ("File '" +:+ filename +:+ "' not opened for writing") line)
  | _ =>
      let* dataValue := evaluateExpression this dataExpr context in
      let dataString := valueToString dataValue in
      let* fileHandle := openHandle filename line in
      setHandle filename
        (mkFileHandle (mode fileHandle) (data fileHandle ++ [dataString])
                      (S (position fileHandle))) >>
      let* st := get in
      if fileWriteOutput st
      then yield ("[Write to " +:+ filename +:+ "] " +:+ dataString)
      else ret tt
  end.

(** The start of [executeNode]: the iteration budget, then the update
    of the current line when stepping. *)
Definition countIteration (line : Z) : M unit :=
  let* st := get in
  modify (setIterationCount (iterationCount st + 1)) >>
  if decide (iterationCount st + 1 > MAX_ITERATIONS)
  then throw (RuntimeError "Execution timeout: Possible infinite loop" line)
  else
    if debugMode st && hasStepCallback st then
      modify (λ st, match reverse (callStack st) with
                    | top :: below =>
                        setCallStack
                          (reverse (mkFrame (frameName top) line (frameType top) :: below))
                          st
                    | [] => st
                    end)
    else ret tt.

(** [private async* executeNode(node, context)].  The class has no
    method [executeMemoryFree]: the call of it is a [TypeError]. *)
Definition executeNode (this : Self) (node : ASTNode) (context : nat) : M unit :=
  countIteration (nodeLine node) >>
  match node with
  | DeclareNode identifier dataType arrayBounds arrayElementType _ =>
      executeDeclare identifier dataType arrayBounds arrayElementType context
  | Assignment target v line => executeAssignment this target v line context
  | Output expressions _ => executeOutput this expressions context
  | Input target line => executeInput this target line context
  | If condition thenBlock elseIfBlocks elseBlock line =>
      executeIf this false condition thenBlock elseIfBlocks elseBlock line context
  | While condition body line => whileLoop this false condition body line context
  | Repeat body condition line => repeatLoop this false body condition line context
  | For variable start end_ step body line =>
      executeFor this false variable start end_ step body line context
  | Case expression cases otherwiseBlock _ =>
      executeCase this false expression cases otherwiseBlock context
  | Call name args line => executeCall this name args line context
  | Return v _ =>
      let* returnValue := evaluateExpression this v context in
      throw (ReturnValue returnValue)
  | OpenFile filename m line => executeOpenFile this filename m line context
  | CloseFile filename line => executeCloseFile this filename line context
  | ReadFile filename target line => executeReadFile this filename target line context
  | WriteFile filename dataExpr line =>
      executeWriteFile this filename dataExpr line context
  | MemoryFree _ _ => throw (TypeError "this.executeMemoryFree is not a function")
  | _ => throw (RuntimeError ("Unknown node type: " +:+ nodeType node) (nodeLine node))
  end.

(** [private executeSyncNode(node, context)] *)
Definition executeSyncNode (this : Self) (node : ASTNode) (context : nat) : M unit :=
  match node with
  | DeclareNode identifier dataType arrayBounds arrayElementType _ =>
      executeDeclare identifier dataType arrayBounds arrayElementType context
  | Assignment target v line => executeAssignment this target v line context
  | If condition thenBlock elseIfBlocks elseBlock line =>
      executeIf this true condition thenBlock elseIfBlocks elseBlock line context
  | While condition body line => whileLoop this true condition body line context
  | Repeat body condition line => repeatLoop this true body condition line context
  | For variable start end_ step body line =>
      executeFor this true variable start end_ step body line context
  | Case expression cases otherwiseBlock _ =>
      executeCase this true expression cases otherwiseBlock context
  | Return v _ =>
      let* returnValue := evaluateExpression this v context in
      throw (ReturnValue returnValue)
  | _ => throw (RuntimeError ("Unsupported statement in function: " +:+ nodeType node)
                             (nodeLine node))
  end.

(** The interpreter whose calls through [this] can nest [fuel] deep. *)
Fixpoint interp (fuel : nat) : Self :=
  match fuel with
  | O => mkSelf (λ _ _ _, Unfinished) (λ _ _ _, Unfinished) (λ _ _ _, Unfinished)
                (λ _ _ _ _ _ _, Unfinished) (λ _ _ _ _ _ _, Unfinished)
                (λ _ _ _ _ _ _ _ _, Unfinished)
  | S fuel' =>
      let this := interp fuel' in
      mkSelf (evaluateExpression this) (executeNode this) (executeSyncNode this)
             (whileLoop this) (repeatLoop this) (forLoop this)
  end.

(** [public async* execute(ast)]: register the procedures and the
    functions, then run the other statements in the global context. *)
Definition execute (this : Self) (ast : list ASTNode) : M unit :=
  forEach (λ node,
             match node with
             | Procedure name parameters body _ =>
                 modify (λ st, setProcedures
                                 (<[name := mkProcedure name parameters body]>
                                    (procedures st)) st)
             | Function name parameters returnType body _ =>
                 modify (λ st, setFunctions
                                 (<[name := mkFunction name parameters returnType body]>
                                    (functions st)) st)
             | _ => ret tt
             end) ast >>
  let* st := get in
  forEach (λ node,
             match node with
             | Procedure _ _ _ _ | Function _ _ _ _ _ => ret tt
             | _ => executeNode this node (globalContext st)
             end) ast.

(** [public async* executeProgram(ast)], for runs that nest at most
    [fuel] deep. *)
Definition executeProgram (fuel : nat) (ast : list ASTNode) : M unit :=
  execute (interp fuel) ast.

End Evaluator.

(** [lines.join('\n')] *)
Fixpoint joinLines (lines : list string) : string :=
  match lines with
  | [] => ""
  | [line] => line
  | line :: lines' => line +:+ String "010" (joinLines lines')
  end.

(** [public getFileContent(filename)]; [None] is [null]. *)
Definition getFileContent (filename : string) (st : Interpreter) : option string :=
  (λ fileHandle, joinLines (data fileHandle)) <$> fileHandles st !! filename.

End Interp.

(** ** A host for the examples

    The conversions of the host, written out for plain decimal text (and hex
    text in [parseInt]), ASCII letters and integer exponents; the theorems
    hold for every host, the examples and instances use this one. *)

Module ReferenceHost.
Import JS.

Definition code (c : ascii) : Z := Z.of_nat (nat_of_ascii c).

Definition digitValue (base : Z) (c : ascii) : option Z :=
  let n := code c in
  let v := if (48 <=? n) && (n <=? 57) then Some (n - 48)
           else if (97 <=? n) && (n <=? 102) then Some (n - 87)
           else if (65 <=? n) && (n <=? 70) then Some (n - 55)
           else None in
  match v with
  | Some d => if d <? base then Some d else None
  | None => None
  end.

Definition isSpace (c : ascii) : bool :=
  let n := code c in (n =? 32) || ((9 <=? n) && (n <=? 13)).

Fixpoint skipSpaces (s : string) : string :=
  match s with
  | String c s' => if isSpace c then skipSpaces s' else s
  | EmptyString => s
  end.

(** The digits at the start of [s]: their value after [acc], how many
    there are, and the rest of the text. *)
Fixpoint readDigits (base acc : Z) (s : string) : Z * nat * string :=
  match s with
  | String c s' =>
      match digitValue base c with
      | Some d => let '(v, n, r) := readDigits base (acc * base + d) s' in (v, S n, r)
      | None => (acc, 0%nat, s)
      end
  | EmptyString => (acc, 0%nat, s)
  end.

Definition readSign (s : string) : bool * string :=
  match s with
  | String "-" s' => (true, s')
  | String "+" s' => (false, s')
  | _ => (false, s)
  end.

Definition signed (negative : bool) (q : Q) : number :=
  Fin (if negative then Qopp q else q).

Definition parseInt (s : string) : number :=
  let '(negative, s1) := readSign (skipSpaces s) in
  let '(base, s2) :=
    match s1 with
    | String "0" (String "x" r) | String "0" (String "X" r) => (16, r)
    | _ => (10, s1)
    end in
  let '(v, n, _) := readDigits base 0 s2 in
  if decide (n = 0%nat) then NaN else signed negative (inject_Z v).

Definition startsWith (p s : string) : bool := String.prefix p s.

(** A decimal literal at the start of [s]: its value and the rest. *)
Definition readDecimal (s : string) : option (Q * string) :=
  let '(i, n1, r1) := readDigits 10 0 s in
  let '(f, n2, r2) :=
    match r1 with
    | String "." r => readDigits 10 0 r
    | _ => (0, 0%nat, r1)
    end in
  if decide ((n1 + n2)%nat = 0%nat) then None
  else
    let mantissa := Qplus (inject_Z i) (Qdiv (inject_Z f) (inject_Z (10 ^ Z.of_nat n2))) in
    let rest := match r1 with String "." _ => r2 | _ => r1 end in
    match rest with
    | String e r3 =>
        if (code e =? 101) || (code e =? 69) then
          let '(negative, r4) := readSign r3 in
          let '(x, n3, r5) := readDigits 10 0 r4 in
          if decide (n3 = 0%nat) then Some (mantissa, rest)
          else Some (Qmult mantissa (Qpower 10 (if negative then - x else x)), r5)
        else Some (mantissa, rest)
    | EmptyString => Some (mantissa, rest)
    end.

Definition readNumber (s : string) : option (number * string) :=
  let '(negative, s1) := readSign s in
  if startsWith "Infinity" s1 then
    Some (if negative then NInf else PInf, String.substring 8 (String.length s1 - 8) s1)
  else match readDecimal s1 with
       | Some (q, r) => Some (signed negative q, r)
       | None => None
       end.

Definition parseFloat (s : string) : number :=
  match readNumber (skipSpaces s) with
  | Some (n, _) => n
  | None => NaN
  end.

(** The conversion of a whole string: empty text is 0, anything left
    after the literal makes it [NaN]. *)
Definition stringToNumber (s : string) : number :=
  match skipSpaces s with
  | EmptyString => ofZ 0
  | s1 => match readNumber s1 with
          | Some (n, r) => match skipSpaces r with EmptyString => n | _ => NaN end
          | None => NaN
          end
  end.

Definition showZ (z : Z) : string := NilZero.string_of_int (Z.to_int z).

(** The first [n] decimals of a fraction [0 <= q < 1]. *)
Fixpoint decimals (n : nat) (q : Q) : string :=
  match n with
  | O => ""
  | S n' =>
      if Qeq_bool q 0 then ""
      else let d := Qfloor (Qmult q 10) in
           showZ d +:+ decimals n' (Qred (Qminus (Qmult q 10) (inject_Z d)))
  end.

Definition numberToString (n : number) : string :=
  match n with
  | NaN => "NaN"
  | PInf => "Infinity"
  | NInf => "-Infinity"
  | Fin q =>
      let a := if Qltb q 0 then Qopp q else q in
      let i := Qfloor a in
      let f := Qred (Qminus a (inject_Z i)) in
      (if Qltb q 0 then "-" else "") +:+ showZ i +:+
      (if Qeq_bool f 0 then "" else "." +:+ decimals 17 f)
  end.

Definition mapChars (f : Z → Z) (s : string) : string :=
  string_of_list_ascii
    ((λ c, ascii_of_nat (Z.to_nat (f (code c)))) <$> list_ascii_of_string s).

Definition toLowerCase : string → string :=
  mapChars (λ n, if (65 <=? n) && (n <=? 90) then n + 32 else n).
Definition toUpperCase : string → string :=
  mapChars (λ n, if (97 <=? n) && (n <=? 122) then n - 32 else n).

Definition Math_pow (b e : number) : number :=
  match b, e with
  | Fin x, Fin y => if Qeq_bool y (inject_Z (Qfloor y)) then Fin (Qpower x (Qfloor y)) else NaN
  | _, _ => NaN
  end.

Definition Math_random (k : nat) : number := Fin (1 # 2).

Definition host : Host :=
  mkHost parseInt parseFloat numberToString stringToNumber toLowerCase toUpperCase
         Math_pow Math_random.

End ReferenceHost.

(* ================================================================== *)
(** * Theorems *)

Section MemoryFacts.
Import Memory.

(** [size] consecutive slots from [b] are all free. *)
Definition free_run (m : MemoryEngine) (b size : Z) : Prop :=
  ∀ i, 0 ≤ i < size → b + i ∉ allocated m.

(** [a] is the lowest address from [lo] on at which a free run of [size]
    slots starts and fits before the end of the arena. *)
Definition lowest_free_run (m : MemoryEngine) (lo size a : Z) : Prop :=
  lo ≤ a ∧ a + size ≤ memorySize m ∧ free_run m a size ∧
  ∀ b, lo ≤ b < a → ¬ free_run m b size.

Lemma firstObstruction_None m address size :
  firstObstruction m address size = None ↔ free_run m address size.
Proof.
  unfold firstObstruction, free_run. rewrite fmap_None, list_find_None, Forall_forall.
  split.
  - intros H i Hi. apply (H i). apply elem_of_seqZ. lia.
  - intros H i Hi%elem_of_seqZ. apply H. lia.
Qed.

Lemma firstObstruction_Some m address size i :
  firstObstruction m address size = Some i →
  0 ≤ i < size ∧ address + i ∈ allocated m.
Proof.
  unfold firstObstruction. intros H.
  destruct (list_find _ _) as [[k x]|] eqn:E; simplify_eq/=.
  apply list_find_Some in E as (Hk & Hx & _).
  apply lookup_seqZ in Hk. split; [lia | done].
Qed.

(** What the scan of [findFreeBlock] computes from any start address. *)
Lemma scanFrom_spec m size address :
  0 < size →
  match scanFrom m size address with
  | Return a => lowest_free_run m address size a
  | Throw e =>
      e = NoContiguousBlock size ∧
      ∀ b, address ≤ b → b + size ≤ memorySize m → ¬ free_run m b size
  end.
Proof.
  intros Hsize. funelim (scanFrom m size address).
  - (* the block would not fit *)
    split; [done |]. intros b ? ?. lia.
  - (* obstruction at [address + i]: restart after it *)
    specialize (H Hsize).
    pose proof (firstObstruction_Some _ _ _ _ E) as [Hi Hin].
    assert (Hcover : ∀ b, address ≤ b ≤ address + i → ¬ free_run m b size).
    { intros b Hb Hfree. apply (Hfree (address + i - b)); [lia |].
      by replace (b + (address + i - b)) with (address + i) by lia. }
    destruct (scanFrom m size (address + i + 1)) as [a|err].
    + destruct H as (Hlo & Hfit & Hfree & Hmin).
      repeat split; [lia | done | done |].
      intros b Hb. destruct (decide (b ≤ address + i)).
      * apply Hcover. lia.
      * apply Hmin. lia.
    + destruct H as [-> Hnone]. split; [done |].
      intros b Hb Hfit. destruct (decide (b ≤ address + i)).
      * apply Hcover. lia.
      * apply Hnone; lia.
  - (* no obstruction: this is the block *)
    match goal with E : firstObstruction _ _ _ = None |- _ =>
      pose proof (proj1 (firstObstruction_None _ _ _) E) as Hfree end.
    repeat split; [lia | lia | done |]. intros b ?. lia.
Qed.

Lemma elem_of_markAllocated m address size type x :
  x ∈ allocated (markAllocated m address size type) ↔
  x ∈ allocated m ∨ address ≤ x < address + size.
Proof.
  unfold markAllocated; simpl.
  assert (G : ∀ (l : list Z) (s : gset Z),
               x ∈ foldl (λ s i, {[address + i]} ∪ s) s l ↔
                     x ∈ s ∨ ∃ i, i ∈ l ∧ x = address + i).
  { induction l as [|j l IH]; intros s; simpl.
    - split; [auto | intros [?|(i & Hi & _)]; [done | by apply elem_of_nil in Hi]].
    - rewrite IH. split.
      + intros [[->%elem_of_singleton|?]%elem_of_union|(i & Hi & ->)].
        * right. exists j. split; [left | done].
        * by left.
        * right. exists i. split; [by right | done].
      + intros [?|(i & [->|Hi]%elem_of_cons & ->)].
        * left. set_unfold. by right.
        * left. set_unfold. by left.
        * right. eauto. }
  rewrite G. split.
  - intros [?|(i & Hi%elem_of_seqZ & ->)]; [by left | right; lia].
  - intros [?|Hx]; [by left |]. right. exists (x - address).
    split; [apply elem_of_seqZ; lia | lia].
Qed.

Lemma elem_of_cleared (address : Z) (l : list Z) (al : gset Z) (r : gmap Z any) x :
  x ∈ (foldl (λ '(al, r) i, (al ∖ {[address + i]}, <[address + i := VUndefined]> r))
             (al, r) l).1 ↔
  x ∈ al ∧ ∀ i, i ∈ l → x ≠ address + i.
Proof.
  revert al r. induction l as [|j l IH]; intros al r; simpl.
  - split; [intros ?; split; [done | intros i Hi; by apply elem_of_nil in Hi] | tauto].
  - rewrite IH. split.
    + intros [[? ?%not_elem_of_singleton]%elem_of_difference Hl].
      split; [done |]. intros i [->|?]%elem_of_cons; auto.
    + intros [? Hl]. split.
      * apply elem_of_difference. split; [done |].
        apply not_elem_of_singleton. apply Hl. left.
      * intros i ?. apply Hl. by right.
Qed.

(** The watermark never drops below the reserved region, and the size of
    the arena never changes. *)
Lemma map_fold_max_lower (al : gmap Z (Z * string)) :
  SYSTEM_RESERVED ≤
  map_fold (λ address allocation maxEnd, Z.max maxEnd (address + allocation.1))
           SYSTEM_RESERVED al.
Proof.
  apply (map_fold_weak_ind (λ r _, SYSTEM_RESERVED ≤ r)); [done |].
  intros k x m0 r _ Hr. lia.
Qed.

Lemma reachable_inv size m :
  reachable size m → SYSTEM_RESERVED ≤ nextFreeAddress m ∧ memorySize m = size.
Proof.
  induction 1 as [|m n t a m' _ [IH1 IH2] Hal|m a m' _ [IH1 IH2] Hfr|m a v m' _ [IH1 IH2] Hwr].
  - done.
  - unfold allocate in Hal. case_decide; [done |].
    destruct (findFreeBlock m n); simplify_eq/=. split; [lia | done].
  - unfold free in Hfr. destruct (allocations m !! a); simplify_eq/=.
    case_decide; simpl; [|done]. split; [apply map_fold_max_lower | done].
  - unfold write in Hwr. repeat case_decide; simplify_eq/=. done.
Qed.

Lemma allocate_Return m size type a m' :
  allocate m size type = Return (a, m') →
  0 < size ∧ scanFrom m size (nextFreeAddress m) = Return a ∧
  m' = markAllocated m a size type.
Proof.
  unfold allocate, findFreeBlock. case_decide; [done |].
  destruct (scanFrom _ _ _) eqn:E; intros [= <- <-]. split; [lia | done].
Qed.

(** Freeing the start of a live block makes its first slot unreadable. *)
Lemma free_then_read m a sz ty :
  allocations m !! a = Some (sz, ty) → 0 < sz → 0 ≤ a < memorySize m →
  ∃ m3, free m a = Return m3 ∧ read m3 a = Throw (ReadNotAllocated a).
Proof.
  intros Hal Hsz Ha. unfold free. rewrite Hal. simpl.
  eexists; split; [reflexivity |].
  set (cl := foldl _ _ _).
  assert (Hgone : a ∉ cl.1).
  { subst cl. rewrite elem_of_cleared. intros [_ H].
    assert (0 ∈ seqZ 0 sz) as H0 by (apply elem_of_seqZ; lia).
    apply (H 0 H0). lia. }
  destruct (decide (nextFreeAddress m ≤ a + sz)); unfold read; simpl;
    (rewrite decide_False by lia); by rewrite decide_True.
Qed.

(** C3. An address obtained from a successful [allocate] can be written
    and read back: [write(a, v)] followed by [read(a)] returns [v]; and
    after [free(a)], before or after the write, [read(a)] fails with the
    not-allocated error. *)
Theorem write_read_free_roundtrip size0 m n t a m1 v :
  reachable size0 m →
  allocate m n t = Return (a, m1) →
  (∃ m2, write m1 a v = Return m2 ∧ read m2 a = Return v ∧
         ∃ m3, free m2 a = Return m3 ∧ read m3 a = Throw (ReadNotAllocated a)) ∧
  (∃ m3, free m1 a = Return m3 ∧ read m3 a = Throw (ReadNotAllocated a)).
Proof.
  intros Hreach Halloc.
  apply reachable_inv in Hreach as [Hres _].
  apply allocate_Return in Halloc as (Hn & Hscan & ->).
  pose proof (scanFrom_spec m n (nextFreeAddress m) Hn) as Hspec.
  rewrite Hscan in Hspec. destruct Hspec as (Hlo & Hfit & _ & _).
  unfold SYSTEM_RESERVED in Hres.
  assert (Hin : a ∈ allocated (markAllocated m a n t)).
  { apply elem_of_markAllocated. right. lia. }
  split.
  - unfold write. rewrite decide_False by (simpl; lia).
    rewrite decide_False by (intros H; by apply H).
    eexists. split; [reflexivity |]. split.
    + unfold read. simpl. rewrite decide_False by lia.
      rewrite decide_False by (intros H; by apply H).
      by rewrite lookup_insert_eq.
    + apply (free_then_read _ a n t); simpl; [apply lookup_insert_eq | lia | lia].
  - apply (free_then_read _ a n t); simpl; [apply lookup_insert_eq | lia | lia].
Qed.

Lemma write_read_free_roundtrip_witness :
  (∃ m2, write (markAllocated (create DEFAULT_SIZE) 1024 4 "INTEGER") 1024 (VNumber (ofZ 7))
         = Return m2 ∧ read m2 1024 = Return (VNumber (ofZ 7)) ∧
         ∃ m3, free m2 1024 = Return m3 ∧ read m3 1024 = Throw (ReadNotAllocated 1024)) ∧
  (∃ m3, free (markAllocated (create DEFAULT_SIZE) 1024 4 "INTEGER") 1024 = Return m3 ∧
         read m3 1024 = Throw (ReadNotAllocated 1024)).
Proof.
  apply (write_read_free_roundtrip DEFAULT_SIZE (create DEFAULT_SIZE) 4 "INTEGER").
  - apply reach_create.
  - vm_compute. reflexivity.
Defined.

(** The arena after [allocate(1)], [allocate(1)], [free(1024)]: slot 1024
    is free again but the watermark stays at 1026. *)
Definition holeEngine : MemoryEngine :=
  let m1 := markAllocated (create DEFAULT_SIZE) 1024 1 "INTEGER" in
  let m2 := markAllocated m1 1025 1 "INTEGER" in
  match free m2 1024 with Return m3 => m3 | Throw _ => m2 end.

Lemma holeEngine_reachable : reachable DEFAULT_SIZE holeEngine.
Proof.
  eapply (reach_free _ (markAllocated (markAllocated (create DEFAULT_SIZE) 1024 1 "INTEGER")
                                      1025 1 "INTEGER") 1024).
  - eapply (reach_allocate _ _ 1 "INTEGER" 1025).
    + eapply (reach_allocate _ _ 1 "INTEGER" 1024); [apply reach_create |].
      vm_compute. reflexivity.
    + vm_compute. reflexivity.
  - vm_compute. reflexivity.
Qed.

(** C4, as stated, fails: on [holeEngine] a successful [allocate(1)]
    returns 1026 although the single slot at 1024, which lies in the
    region from the reserved boundary on, is free. *)
Lemma allocate_not_lowest_from_reserved :
  ¬ (∀ m size type a m',
       reachable DEFAULT_SIZE m → 0 < size →
       allocate m size type = Return (a, m') →
       lowest_free_run m SYSTEM_RESERVED size a).
Proof.
  intros H.
  destruct (H holeEngine 1 "INTEGER" 1026
              (markAllocated holeEngine 1026 1 "INTEGER")
              holeEngine_reachable ltac:(lia)) as (_ & _ & _ & Hmin).
  { vm_compute. reflexivity. }
  apply (Hmin 1024); [unfold SYSTEM_RESERVED; lia |].
  intros i Hi. assert (i = 0) as -> by lia.
  apply (bool_decide_unpack _). vm_compute. exact I.
Qed.

(** C4, amended.  On an arena built by the engine's own methods and for a
    positive size, a successful [allocate] returns the lowest address from
    the free-address watermark [nextFreeAddress] on (itself never below the
    reserved boundary 1024) at which [size] consecutive slots are free and
    fit before the arena end, and marks the block; [allocate] fails, with
    the no-contiguous-block error, exactly when no such run exists from the
    watermark on. *)
Theorem allocate_lowest_from_watermark size0 m size type :
  reachable size0 m → 0 < size →
  match allocate m size type with
  | Return (a, m') =>
      SYSTEM_RESERVED ≤ nextFreeAddress m ∧
      lowest_free_run m (nextFreeAddress m) size a ∧
      m' = markAllocated m a size type
  | Throw e =>
      e = NoContiguousBlock size ∧
      ∀ b, nextFreeAddress m ≤ b → b + size ≤ memorySize m → ¬ free_run m b size
  end.
Proof.
  intros Hreach Hsize. apply reachable_inv in Hreach as [Hres _].
  pose proof (scanFrom_spec m size (nextFreeAddress m) Hsize) as Hspec.
  unfold allocate, findFreeBlock. rewrite decide_False by lia.
  destruct (scanFrom m size (nextFreeAddress m)) as [a|e]; [|done].
  done.
Qed.

Lemma allocate_lowest_from_watermark_witness :
  match allocate holeEngine 1 "INTEGER" with
  | Return (a, m') =>
      SYSTEM_RESERVED ≤ nextFreeAddress holeEngine ∧
      lowest_free_run holeEngine (nextFreeAddress holeEngine) 1 a ∧
      m' = markAllocated holeEngine a 1 "INTEGER"
  | Throw e =>
      e = NoContiguousBlock 1 ∧
      ∀ b, nextFreeAddress holeEngine ≤ b → b + 1 ≤ memorySize holeEngine →
           ¬ free_run holeEngine b 1
  end.
Proof.
  apply (allocate_lowest_from_watermark DEFAULT_SIZE holeEngine 1 "INTEGER").
  - exact holeEngine_reachable.
  - lia.
Defined.

Example allocate_first :
  (λ r, match r with Return (a, _) => Some a | Throw _ => None end)
    (allocate (create DEFAULT_SIZE) 4 "INTEGER") = Some 1024.
Proof. vm_compute. reflexivity. Qed.

Example allocate_after_hole :
  (λ r, match r with Return (a, _) => Some a | Throw _ => None end)
    (allocate holeEngine 1 "INTEGER") = Some 1026.
Proof. vm_compute. reflexivity. Qed.

End MemoryFacts.

Section MemoryInvariants.
Import Memory.

(** The shape every engine built by its own methods has: the allocated
    slots are exactly the slots of the recorded blocks, every block is not
    empty and lies between the reserved region and both the watermark and
    the arena end, and no two blocks overlap. *)
Record wellFormed (m : MemoryEngine) : Prop := mkWellFormed {
  wf_watermark : SYSTEM_RESERVED ≤ nextFreeAddress m;
  wf_allocated : ∀ x, x ∈ allocated m ↔
                      ∃ a al, allocations m !! a = Some al ∧ a ≤ x < a + al.1;
  wf_block : ∀ a al, allocations m !! a = Some al →
                     0 < al.1 ∧ SYSTEM_RESERVED ≤ a ∧
                     a + al.1 ≤ nextFreeAddress m ∧ a + al.1 ≤ memorySize m;
  wf_disjoint : ∀ a al b bl,
      allocations m !! a = Some al → allocations m !! b = Some bl → a ≠ b →
      a + al.1 ≤ b ∨ b + bl.1 ≤ a
}.

Lemma map_fold_max_upper (al : gmap Z (Z * string)) a block :
  al !! a = Some block →
  a + block.1 ≤
  map_fold (λ address allocation maxEnd, Z.max maxEnd (address + allocation.1))
           SYSTEM_RESERVED al.
Proof.
  revert a block.
  apply (map_fold_weak_ind (λ r (m0 : gmap Z (Z * string)),
           ∀ a block, m0 !! a = Some block → a + block.1 ≤ r)).
  - intros a block H. by rewrite lookup_empty in H.
  - intros k x m0 r Hk IH a block. destruct (decide (a = k)) as [->|Hne].
    + rewrite lookup_insert_eq. intros [= <-]. lia.
    + rewrite lookup_insert_ne by done. intros H. specialize (IH _ _ H). lia.
Qed.

(** What [free] leaves of the engine, whichever way the watermark goes. *)
Lemma free_Return m a m' :
  free m a = Return m' →
  ∃ al, allocations m !! a = Some al ∧
        allocations m' = delete a (allocations m) ∧
        memorySize m' = memorySize m ∧
        (∀ x, x ∈ allocated m' ↔ x ∈ allocated m ∧ ¬ (a ≤ x < a + al.1)) ∧
        (∀ x, ¬ (a ≤ x < a + al.1) → ram m' !! x = ram m !! x) ∧
        (nextFreeAddress m' = nextFreeAddress m ∧ a + al.1 < nextFreeAddress m ∨
         nextFreeAddress m' =
           map_fold (λ address allocation maxEnd, Z.max maxEnd (address + allocation.1))
                    SYSTEM_RESERVED (delete a (allocations m))).
Proof.
  unfold free. destruct (allocations m !! a) as [al|] eqn:Hal; [|done].
  intros [= <-]. exists al. split; [done |].
  assert (Hram : ∀ (l : list Z) (s : gset Z) (r : gmap Z any) x,
             (∀ i, i ∈ l → x ≠ a + i) →
             (foldl (λ '(al, r) i, (al ∖ {[a + i]}, <[a + i := VUndefined]> r))
                    (s, r) l).2 !! x = r !! x).
  { induction l as [|j l IH]; intros s r x Hx; simpl; [done |].
    rewrite IH by (intros i Hi; apply Hx; by right).
    apply lookup_insert_ne. intros Heq. apply (Hx j); [by left | done]. }
  assert (Hrange : ∀ x, (∀ i, i ∈ seqZ 0 al.1 → x ≠ a + i) ↔ ¬ (a ≤ x < a + al.1)).
  { intros x. split.
    - intros H Hx. apply (H (x - a)); [apply elem_of_seqZ; lia | lia].
    - intros H i Hi%elem_of_seqZ. lia. }
  destruct (decide (nextFreeAddress m ≤ a + al.1)); simpl;
    (split; [done |]); (split; [done |]);
    (split; [intros x; rewrite elem_of_cleared, Hrange; done |]);
    (split; [intros x Hx; apply Hram; by apply Hrange |]).
  - by right.
  - left. split; [done | lia].
Qed.

Lemma reachable_wellFormed size m : reachable size m → wellFormed m.
Proof.
  induction 1 as [|m n t a m' _ IH Hal|m a m' _ IH Hfr|m a v m' _ IH Hwr].
  - split; simpl; [done | | |].
    + intros x. split; [set_solver |]. intros (a & al & H & _).
      by rewrite lookup_empty in H.
    + intros a al H. by rewrite lookup_empty in H.
    + intros a al b bl H. by rewrite lookup_empty in H.
  - destruct IH as [Hw Ha Hb Hd].
    apply allocate_Return in Hal as (Hn & Hscan & ->).
    pose proof (scanFrom_spec m n (nextFreeAddress m) Hn) as Hspec.
    rewrite Hscan in Hspec. destruct Hspec as (Hlo & Hfit & Hfree & _).
    assert (Hfresh : allocations m !! a = None).
    { destruct (allocations m !! a) as [al|] eqn:E; [|done].
      destruct (Hb _ _ E) as (Hpos & _). exfalso. apply (Hfree 0); [lia |].
      apply Ha. exists a, al. split; [done | lia]. }
    split.
    + simpl. lia.
    + intros x. rewrite elem_of_markAllocated, Ha. simpl. split.
      * intros [(b & bl & Hbl & Hx)|Hx].
        -- exists b, bl. split; [|done]. rewrite lookup_insert_ne; [done | congruence].
        -- exists a, (n, t). split; [apply lookup_insert_eq | done].
      * intros (b & bl & Hbl & Hx). destruct (decide (b = a)) as [->|Hne].
        -- rewrite lookup_insert_eq in Hbl. injection Hbl as <-. by right.
        -- rewrite lookup_insert_ne in Hbl by done. left. eauto.
    + simpl. intros b bl. destruct (decide (b = a)) as [->|Hne].
      * rewrite lookup_insert_eq. intros [= <-]. simpl. lia.
      * rewrite lookup_insert_ne by done. intros Hbl.
        destruct (Hb _ _ Hbl) as (? & ? & ? & ?). lia.
    + simpl. intros b bl c cl.
      destruct (decide (b = a)) as [->|Hb'], (decide (c = a)) as [->|Hc'];
        rewrite ?lookup_insert_eq, ?lookup_insert_ne by done.
      * done.
      * intros [= <-] Hcl _. destruct (Hb _ _ Hcl) as (? & ? & ? & ?). simpl. lia.
      * intros Hbl [= <-] _. destruct (Hb _ _ Hbl) as (? & ? & ? & ?). simpl. lia.
      * apply Hd.
  - destruct IH as [Hw Ha Hb Hd].
    apply free_Return in Hfr as (al & Hal & Hallocs & Hsize & Hset & _ & Hnext).
    split.
    + destruct Hnext as [[-> _]| ->]; [done | apply map_fold_max_lower].
    + intros x. rewrite Hset, Ha, Hallocs. split.
      * intros [(b & bl & Hbl & Hx) Hout]. exists b, bl. split; [|done].
        apply lookup_delete_Some. split; [|done]. intros <-.
        rewrite Hal in Hbl. injection Hbl as <-. done.
      * intros (b & bl & [Hne Hbl]%lookup_delete_Some & Hx). split; [eauto |].
        destruct (Hd _ _ _ _ Hal Hbl Hne); lia.
    + intros b bl. rewrite Hallocs, Hsize. intros [Hne Hbl]%lookup_delete_Some.
      destruct (Hb _ _ Hbl) as (? & ? & ? & ?).
      repeat split; try done.
      destruct Hnext as [[-> _]| ->]; [done |].
      apply (map_fold_max_upper (delete a (allocations m)) b bl).
      by apply lookup_delete_Some.
    + intros b bl c cl. rewrite Hallocs.
      intros [_ Hbl]%lookup_delete_Some [_ Hcl]%lookup_delete_Some. by apply Hd.
  - destruct IH as [Hw Ha Hb Hd].
    unfold write in Hwr. repeat case_decide; simplify_eq/=. by split.
Qed.

End MemoryInvariants.

Section MemoryExtras.
Import Memory.

(** On an engine built by its own methods nothing is allocated at or
    above the watermark. *)
Lemma above_watermark_free m x :
  wellFormed m → nextFreeAddress m ≤ x → x ∉ allocated m.
Proof.
  intros [_ Ha Hb _] Hx (a & al & Hal & Hin)%Ha.
  destruct (Hb _ _ Hal) as (_ & _ & ? & _). lia.
Qed.

(** [allocate] is a bump allocator: on an engine built by the engine's own
    methods it returns the watermark itself whenever [size] slots fit
    between the watermark and the arena end, and fails otherwise; slots
    freed below the watermark are not handed out again. *)
Theorem allocate_at_watermark size0 m size type :
  reachable size0 m → 0 < size →
  allocate m size type =
  if decide (nextFreeAddress m + size ≤ memorySize m)
  then Return (nextFreeAddress m, markAllocated m (nextFreeAddress m) size type)
  else Throw (NoContiguousBlock size).
Proof.
  intros Hwf%reachable_wellFormed Hsize.
  assert (Hrun : free_run m (nextFreeAddress m) size).
  { intros i Hi. apply above_watermark_free; [done | lia]. }
  pose proof (scanFrom_spec m size (nextFreeAddress m) Hsize) as Hspec.
  unfold allocate, findFreeBlock. rewrite decide_False by lia.
  destruct (scanFrom m size (nextFreeAddress m)) as [a|e].
  - destruct Hspec as (Hlo & Hfit & _ & Hmin).
    assert (a = nextFreeAddress m) as ->.
    { destruct (decide (a = nextFreeAddress m)); [done |].
      exfalso. apply (Hmin (nextFreeAddress m)); [lia | done]. }
    by rewrite decide_True.
  - destruct Hspec as [-> Hnone]. rewrite decide_False; [done |].
    intros Hfit. by apply (Hnone (nextFreeAddress m)).
Qed.

Lemma allocate_at_watermark_witness :
  allocate holeEngine 2 "REAL" =
  if decide (nextFreeAddress holeEngine + 2 ≤ memorySize holeEngine)
  then Return (nextFreeAddress holeEngine,
               markAllocated holeEngine (nextFreeAddress holeEngine) 2 "REAL")
  else Throw (NoContiguousBlock 2).
Proof.
  apply (allocate_at_watermark DEFAULT_SIZE holeEngine 2 "REAL").
  - exact holeEngine_reachable.
  - lia.
Defined.

(** On an engine built by its own methods the live blocks partition the
    allocated slots: [isAllocated] holds exactly on the slots of the
    recorded blocks, every block is not empty and lies between the reserved
    region and the arena end, and two different blocks do not overlap. *)
Theorem live_blocks_partition size0 m :
  reachable size0 m →
  (∀ x, isAllocated m x = true ↔
        ∃ a sz ty, allocations m !! a = Some (sz, ty) ∧ a ≤ x < a + sz) ∧
  (∀ a sz ty, allocations m !! a = Some (sz, ty) →
              0 < sz ∧ SYSTEM_RESERVED ≤ a ∧ a + sz ≤ size0) ∧
  (∀ a sa ta b sb tb,
      allocations m !! a = Some (sa, ta) → allocations m !! b = Some (sb, tb) →
      a ≠ b → a + sa ≤ b ∨ b + sb ≤ a).
Proof.
  intros Hreach. pose proof (reachable_wellFormed _ _ Hreach) as [_ Ha Hb Hd].
  apply reachable_inv in Hreach as [_ Hsize]. split; [|split].
  - intros x. unfold isAllocated. rewrite bool_decide_eq_true, Ha. split.
    + intros (a & [sz ty] & ? & ?). by exists a, sz, ty.
    + intros (a & sz & ty & ? & ?). by exists a, (sz, ty).
  - intros a sz ty Hal. destruct (Hb _ _ Hal) as (? & ? & _ & ?). simpl in *. lia.
  - intros a sa ta b sb tb Hal Hbl Hne. apply (Hd _ _ _ _ Hal Hbl Hne).
Qed.

Lemma live_blocks_partition_witness :
  (∀ x, isAllocated holeEngine x = true ↔
        ∃ a sz ty, allocations holeEngine !! a = Some (sz, ty) ∧ a ≤ x < a + sz) ∧
  (∀ a sz ty, allocations holeEngine !! a = Some (sz, ty) →
              0 < sz ∧ SYSTEM_RESERVED ≤ a ∧ a + sz ≤ DEFAULT_SIZE) ∧
  (∀ a sa ta b sb tb,
      allocations holeEngine !! a = Some (sa, ta) →
      allocations holeEngine !! b = Some (sb, tb) →
      a ≠ b → a + sa ≤ b ∨ b + sb ≤ a).
Proof. apply (live_blocks_partition DEFAULT_SIZE holeEngine). exact holeEngine_reachable. Defined.

(** [free] of the start of a live block releases exactly that block: every
    slot of the block becomes unreadable, a second [free] of the address
    throws, the other blocks stay recorded and every other allocated slot
    reads as before. *)
Theorem free_releases_block size0 m a sz ty :
  reachable size0 m →
  allocations m !! a = Some (sz, ty) →
  ∃ m', free m a = Return m' ∧
        (∀ i, 0 ≤ i < sz → read m' (a + i) = Throw (ReadNotAllocated (a + i))) ∧
        free m' a = Throw (InvalidFree a) ∧
        (∀ b, b ≠ a → allocations m' !! b = allocations m !! b) ∧
        (∀ x, x ∈ allocated m → ¬ (a ≤ x < a + sz) → read m' x = read m x).
Proof.
  intros Hwf%reachable_wellFormed Hal. destruct Hwf as [_ Ha Hb _].
  destruct (free m a) as [m'|e] eqn:Hfree.
  2: { unfold free in Hfree. by rewrite Hal in Hfree. }
  exists m'. split; [done |].
  apply free_Return in Hfree as (al & Hal' & Hallocs & Hsize & Hset & Hram & _).
  rewrite Hal in Hal'. injection Hal' as <-. simpl in *.
  destruct (Hb _ _ Hal) as (Hpos & Hlow & _ & Hfit). simpl in *.
  unfold SYSTEM_RESERVED in Hlow.
  split; [|split; [|split]].
  - intros i Hi. unfold read. rewrite Hsize, decide_False by lia.
    rewrite decide_True; [done |]. rewrite Hset. intros [_ Hout]. lia.
  - unfold free. by rewrite Hallocs, lookup_delete_eq.
  - intros b Hne. by rewrite Hallocs, lookup_delete_ne.
  - intros x Hx Hout. unfold read. rewrite Hsize.
    destruct (decide (x < 0 ∨ memorySize m ≤ x)); [done |].
    rewrite !decide_False.
    + by rewrite Hram.
    + intros H. by apply H.
    + intros H. apply H. by apply Hset.
Qed.

Lemma free_releases_block_witness :
  ∃ m', free holeEngine 1025 = Return m' ∧
        (∀ i, 0 ≤ i < 1 → read m' (1025 + i) = Throw (ReadNotAllocated (1025 + i))) ∧
        free m' 1025 = Throw (InvalidFree 1025) ∧
        (∀ b, b ≠ 1025 → allocations m' !! b = allocations holeEngine !! b) ∧
        (∀ x, x ∈ allocated holeEngine → ¬ (1025 ≤ x < 1025 + 1) →
              read m' x = read holeEngine x).
Proof.
  apply (free_releases_block DEFAULT_SIZE holeEngine 1025 1 "INTEGER").
  - exact holeEngine_reachable.
  - vm_compute. reflexivity.
Defined.

(** Only the start of a live block can be freed: [free] of a slot inside
    a block, or of a slot that is not allocated, throws. *)
Theorem free_needs_block_start size0 m x :
  reachable size0 m →
  (x ∉ allocated m ∨
   ∃ a sz ty, allocations m !! a = Some (sz, ty) ∧ a < x < a + sz) →
  free m x = Throw (InvalidFree x).
Proof.
  intros Hwf%reachable_wellFormed Hx. destruct Hwf as [_ Ha Hb Hd].
  unfold free. destruct (allocations m !! x) as [al|] eqn:Hal; [exfalso | done].
  destruct (Hb _ _ Hal) as (Hpos & _).
  destruct Hx as [Hx|(a & sz & ty & Hbl & Hin)].
  - apply Hx, Ha. exists x, al. split; [done | lia].
  - assert (x ≠ a) as Hne by lia.
    destruct (Hd _ _ _ _ Hal Hbl Hne); simpl in *; lia.
Qed.

Lemma free_needs_block_start_witness :
  free (markAllocated (create DEFAULT_SIZE) 1024 4 "INTEGER") 1026 = Throw (InvalidFree 1026).
Proof.
  apply (free_needs_block_start DEFAULT_SIZE).
  - eapply (reach_allocate _ _ 4 "INTEGER" 1024); [apply reach_create |].
    vm_compute. reflexivity.
  - right. exists 1024, 4, "INTEGER". split; [vm_compute; reflexivity | lia].
Defined.

(** The slots of a block as a set. *)
Definition blockSlots (a sz : Z) : gset Z := list_to_set ((λ i, a + i) <$> seqZ 0 sz).

Lemma size_blockSlots a sz : 0 ≤ sz → Z.of_nat (size (blockSlots a sz)) = sz.
Proof.
  intros Hsz. unfold blockSlots. rewrite size_list_to_set.
  - rewrite length_fmap, length_seqZ. lia.
  - apply NoDup_fmap_2; [intros i j; lia | apply NoDup_seqZ].
Qed.

Lemma elem_of_blockSlots a sz x : x ∈ blockSlots a sz ↔ a ≤ x < a + sz.
Proof.
  unfold blockSlots. rewrite elem_of_list_to_set, list_elem_of_fmap. split.
  - intros (i & -> & Hi%elem_of_seqZ). lia.
  - intros Hx. exists (x - a). split; [lia | apply elem_of_seqZ; lia].
Qed.

(** [getMemoryStats] counts what [allocate] and [free] do: a successful
    [allocate(size)] raises the allocated count by [size] and the block
    count by one and lowers the free count by [size]; a successful [free]
    of a block of [sz] slots undoes as much. *)
Theorem stats_follow_allocate_free size0 m :
  reachable size0 m →
  (∀ n t a m', allocate m n t = Return (a, m') →
     stats_allocated (getMemoryStats m') = stats_allocated (getMemoryStats m) + n ∧
     stats_free (getMemoryStats m') = stats_free (getMemoryStats m) - n ∧
     stats_blocks (getMemoryStats m') = stats_blocks (getMemoryStats m) + 1 ∧
     stats_total (getMemoryStats m') = size0) ∧
  (∀ a sz ty m', allocations m !! a = Some (sz, ty) → free m a = Return m' →
     stats_allocated (getMemoryStats m') = stats_allocated (getMemoryStats m) - sz ∧
     stats_free (getMemoryStats m') = stats_free (getMemoryStats m) + sz ∧
     stats_blocks (getMemoryStats m') = stats_blocks (getMemoryStats m) - 1 ∧
     stats_total (getMemoryStats m') = size0).
Proof.
  intros Hreach. pose proof (reachable_wellFormed _ _ Hreach) as [_ Ha Hb _].
  apply reachable_inv in Hreach as [_ Hsize]. split.
  - intros n t a m' Hal.
    apply allocate_Return in Hal as (Hn & Hscan & ->).
    pose proof (scanFrom_spec m n (nextFreeAddress m) Hn) as Hspec.
    rewrite Hscan in Hspec. destruct Hspec as (_ & _ & Hfree & _).
    assert (Hset : allocated (markAllocated m a n t) = blockSlots a n ∪ allocated m).
    { apply set_eq. intros x.
      rewrite elem_of_markAllocated, elem_of_union, elem_of_blockSlots. tauto. }
    assert (Hdisj : blockSlots a n ## allocated m).
    { intros x Hx%elem_of_blockSlots Hin. apply (Hfree (x - a)); [lia |].
      by replace (a + (x - a)) with x by lia. }
    assert (Hfresh : allocations m !! a = None).
    { destruct (allocations m !! a) as [al|] eqn:E; [|done].
      destruct (Hb _ _ E) as (Hpos & _). exfalso. apply (Hfree 0); [lia |].
      apply Ha. exists a, al. split; [done | lia]. }
    unfold getMemoryStats. cbn [stats_allocated stats_free stats_blocks stats_total].
    rewrite Hset, size_union by done. cbn [allocations markAllocated memorySize].
    rewrite map_size_insert_None by done.
    pose proof (size_blockSlots a n ltac:(lia)). lia.
  - intros a sz ty m' Hal Hfr.
    apply free_Return in Hfr as (al & Hal' & Hallocs & Hmem & Hset & _ & _).
    rewrite Hal in Hal'. injection Hal' as <-. simpl in *.
    destruct (Hb _ _ Hal) as (Hpos & _). simpl in Hpos.
    assert (Hdiff : allocated m' = allocated m ∖ blockSlots a sz).
    { apply set_eq. intros x. rewrite Hset, elem_of_difference, elem_of_blockSlots. tauto. }
    assert (Hsub : blockSlots a sz ⊆ allocated m).
    { intros x Hx%elem_of_blockSlots. apply Ha. by exists a, (sz, ty). }
    unfold getMemoryStats. cbn [stats_allocated stats_free stats_blocks stats_total].
    rewrite Hdiff, size_difference, Hallocs, Hmem by done.
    rewrite map_size_delete, Hal.
    pose proof (size_blockSlots a sz ltac:(lia)).
    pose proof (subseteq_size _ _ Hsub).
    assert (size (allocations m) ≠ 0%nat).
    { intros Hempty%map_size_empty_inv. by rewrite Hempty, lookup_empty in Hal. }
    lia.
Qed.

Lemma stats_follow_allocate_free_witness :
  (∀ n t a m', allocate holeEngine n t = Return (a, m') →
     stats_allocated (getMemoryStats m') = stats_allocated (getMemoryStats holeEngine) + n ∧
     stats_free (getMemoryStats m') = stats_free (getMemoryStats holeEngine) - n ∧
     stats_blocks (getMemoryStats m') = stats_blocks (getMemoryStats holeEngine) + 1 ∧
     stats_total (getMemoryStats m') = DEFAULT_SIZE) ∧
  (∀ a sz ty m', allocations holeEngine !! a = Some (sz, ty) →
     free holeEngine a = Return m' →
     stats_allocated (getMemoryStats m') = stats_allocated (getMemoryStats holeEngine) - sz ∧
     stats_free (getMemoryStats m') = stats_free (getMemoryStats holeEngine) + sz ∧
     stats_blocks (getMemoryStats m') = stats_blocks (getMemoryStats holeEngine) - 1 ∧
     stats_total (getMemoryStats m') = DEFAULT_SIZE).
Proof. apply (stats_follow_allocate_free DEFAULT_SIZE holeEngine). exact holeEngine_reachable. Defined.

End MemoryExtras.

Section LexerFacts.
Import Lexer.

(** The position an error message carries. *)
Definition errorPosition (e : LexError) : Z * Z :=
  match e with
  | UnterminatedString l c | UnterminatedCharacterLiteral l c
  | InvalidHexLiteral l c | UnexpectedCharacter _ l c => (l, c)
  end.

Definition validPosition (p : Z * Z) : Prop := 1 ≤ p.1 ∧ 1 ≤ p.2.

Ltac iteration_cases E :=
  unfold iteration in E;
  repeat match type of E with
         | (if ?b then _ else _) = _ => destruct b eqn:?
         | (let '(_, _) := ?x in _) = _ => destruct x as [? ?] eqn:?
         | match ?x with _ => _ end = _ => destruct x as [[? ?]|] eqn:?
         end;
  try discriminate.

(** One turn of the loop keeps the position valid, pushes no
    end-of-input token, and throws only with a valid position. *)
Lemma iteration_Continue c rest line column pushed rest' line' column' :
  iteration c rest line column = Continue pushed rest' line' column' →
  1 ≤ line → 1 ≤ column →
  1 ≤ line' ∧ 1 ≤ column' ∧ ∀ t, pushed = Some t → type t ≠ EOF.
Proof.
  intros E Hl Hc. unfold len in *.
  iteration_cases E; injection E as <- <- <- <-;
    (split; [lia | split; [unfold len; lia |]]);
    intros t [= <-]; simpl; try discriminate; by case_bool_decide.
Qed.

Lemma iteration_Raise c rest line column e :
  iteration c rest line column = Raise e →
  1 ≤ line → 1 ≤ column → validPosition (errorPosition e).
Proof.
  intros E Hl Hc. iteration_cases E; injection E as <-; split; simpl; lia.
Qed.

Lemma tokenizeFrom_spec rest ln cl tokens :
  1 ≤ ln → 1 ≤ cl → (∀ t, t ∈ tokens → type t ≠ EOF) →
  match tokenizeFrom rest ln cl tokens with
  | inl e => validPosition (errorPosition e)
  | inr toks =>
      ∃ pre l c, toks = pre ++ [mkToken EOF [] l c] ∧ validPosition (l, c) ∧
                 ∀ t, t ∈ pre → type t ≠ EOF
  end.
Proof.
  funelim (tokenizeFrom rest ln cl tokens); intros Hl Hc Htok.
  - eexists tokens, _, _. by repeat split.
  - match goal with E : iteration _ _ _ _ = Continue _ _ _ _ |- _ =>
      pose proof (iteration_Continue _ _ _ _ _ _ _ _ E Hl Hc) as (Hl' & Hc' & Hp) end.
    apply H; [done | done |].
    intros t [Ht|Ht]%elem_of_app; [by apply Htok |].
    destruct pushed as [t'|]; simpl in Ht.
    + apply list_elem_of_singleton in Ht as ->. by apply Hp.
    + by apply elem_of_nil in Ht.
  - match goal with E : iteration _ _ _ _ = Raise _ |- _ =>
      exact (iteration_Raise _ _ _ _ _ E Hl Hc) end.
Qed.

(** C8. [tokenize] is a total function of the source text: on every
    input it either throws one of its four errors (unexpected character,
    unterminated string, unterminated character literal, hex literal
    without digits), which carries a line and a column that are at least
    1, or returns a token list that ends with the end-of-input token and
    has no other end-of-input token. *)
Theorem tokenize_total code :
  match tokenize code with
  | inl e => validPosition (errorPosition e)
  | inr toks =>
      ∃ pre l c, toks = pre ++ [mkToken EOF [] l c] ∧ validPosition (l, c) ∧
                 ∀ t, t ∈ pre → type t ≠ EOF
  end.
Proof.
  apply tokenizeFrom_spec; [done | done |].
  intros t Ht. by apply elem_of_nil in Ht.
Qed.

Example tokenize_assignment :
  tokenize (str "x <-- 0x1F") =
  inr [ mkToken IDENTIFIER (str "x") 1 1; mkToken ASSIGNMENT (str "<--") 1 3;
        mkToken NUMBER (str "0x1F") 1 7; mkToken EOF [] 1 11 ].
Proof. vm_compute. reflexivity. Qed.

Example tokenize_arrow :
  tokenize (str "IF a" ++ [LEFT_ARROW] ++ str "1 // c" ++ [NEWLINE_CHAR]) =
  inr [ mkToken KEYWORD (str "IF") 1 1; mkToken IDENTIFIER (str "a") 1 4;
        mkToken ASSIGNMENT (str "<--") 1 5; mkToken NUMBER (str "1") 1 6;
        mkToken COMMENT (str " c") 1 10; mkToken NEWLINE [NEWLINE_CHAR] 1 12;
        mkToken EOF [] 2 1 ].
Proof. vm_compute. reflexivity. Qed.

Example tokenize_bad_hex : tokenize (str "a 0x") = inl (InvalidHexLiteral 1 3).
Proof. vm_compute. reflexivity. Qed.

Example tokenize_unterminated :
  tokenize (str "OUTPUT 'abc") = inl (UnterminatedCharacterLiteral 1 8).
Proof. vm_compute. reflexivity. Qed.

Example tokenize_unknown : tokenize (str "a ; b") = inl (UnexpectedCharacter (ch ";") 1 3).
Proof. vm_compute. reflexivity. Qed.

End LexerFacts.

Section LexerExtras.
Import Lexer.

Lemma span_app p l s r :
  span p l = (s, r) → l = s ++ r ∧ Forall (λ d, p d = true) s.
Proof.
  revert s r. induction l as [|d l IH]; intros s r; simpl.
  - intros [= <- <-]. by split.
  - destruct (p d) eqn:Hd; [|intros [= <- <-]; by split].
    destruct (span p l) as [s' r'] eqn:F. intros [= <- <-].
    destruct (IH _ _ eq_refl) as [-> Hs]. split; [done | by constructor].
Qed.

Lemma scanQuoted_app q l s r :
  scanQuoted q l = Some (s, r) →
  l = s ++ q :: r ∧ Forall (λ d, d ≠ q ∧ d ≠ NEWLINE_CHAR) s.
Proof.
  revert s r. induction l as [|d l IH]; intros s r; simpl; [done |].
  destruct (d =? q)%N eqn:Hq.
  { apply N.eqb_eq in Hq as ->. intros [= <- <-]. by split. }
  destruct (d =? NEWLINE_CHAR)%N eqn:Hn; [done |].
  destruct (scanQuoted q l) as [[s' r']|] eqn:F; [|done]. intros [= <- <-].
  destruct (IH _ _ eq_refl) as [-> Hs]. split; [done |].
  constructor; [|done]. by split; apply N.eqb_neq.
Qed.

Lemma charAt_0 rest c : charAt rest 0 c = true → ∃ r, rest = c :: r.
Proof.
  unfold charAt. destruct rest as [|d r]; simpl; [done |].
  intros ->%N.eqb_eq. by exists r.
Qed.

Lemma charAt_1 rest c : charAt rest 1 c = true → ∃ d r, rest = d :: c :: r.
Proof.
  unfold charAt. destruct rest as [|d [|e r]]; simpl; [done | done |].
  intros ->%N.eqb_eq. by exists d, r.
Qed.

Lemma cons_app_eq {A} (x : A) l c r : l = c ++ r → x :: l = (x :: c) ++ r.
Proof. by intros ->. Qed.
Lemma app_app_eq {A} (s l c r : list A) : l = c ++ r → s ++ l = (s ++ c) ++ r.
Proof. intros ->. by rewrite app_assoc. Qed.
Lemma app_nil_eq {A} (r : list A) : r = [] ++ r.
Proof. done. Qed.

Ltac lexer_cases E :=
  unfold iteration in E;
  repeat match type of E with
         | (if ?b then _ else _) = _ => destruct b eqn:?
         | (let '(_, _) := ?x in _) = _ => destruct x as [? ?] eqn:?
         | match ?x with _ => _ end = _ => destruct x as [[? ?]|] eqn:?
         end;
  try discriminate.


(** The position after the characters [s], counted as [tokenize] counts:
    a newline starts the next line at column 1, every other character is
    one column. *)
Definition advancePosition (p : Z * Z) (s : list N) : Z * Z :=
  foldl (λ '(l, c) d, if (d =? NEWLINE_CHAR)%N then (l + 1, 1) else (l, c + 1)) p s.

Definition isNewlineToken (t : Token) : bool :=
  match type t with NEWLINE => true | _ => false end.

Definition countNewlines (s : list N) : Z :=
  Z.of_nat (length (filter (λ d, d = NEWLINE_CHAR) s)).

Definition countNewlineTokens (ts : list Token) : Z :=
  Z.of_nat (length (filter (λ t, isNewlineToken t = true) ts)).

Lemma advancePosition_plain s : ∀ l c,
  Forall (λ d, d ≠ NEWLINE_CHAR) s → advancePosition (l, c) s = (l, c + len s).
Proof.
  unfold advancePosition, len.
  induction s as [|d s IH]; intros l c Hs; simpl.
  - f_equal. lia.
  - inversion Hs as [|? ? Hd Hs']; subst.
    apply N.eqb_neq in Hd. rewrite Hd, IH by done. f_equal. lia.
Qed.

Lemma advancePosition_app p s1 s2 :
  advancePosition p (s1 ++ s2) = advancePosition (advancePosition p s1) s2.
Proof. apply foldl_app. Qed.

Lemma advancePosition_line s : ∀ l c,
  (advancePosition (l, c) s).1 = l + countNewlines s.
Proof.
  unfold advancePosition, countNewlines.
  induction s as [|d s IH]; intros l c; simpl; [lia |].
  rewrite filter_cons. destruct (d =? NEWLINE_CHAR)%N eqn:Hd.
  - apply N.eqb_eq in Hd. rewrite decide_True by done. rewrite IH. simpl. lia.
  - apply N.eqb_neq in Hd. rewrite decide_False by done. by rewrite IH.
Qed.

Lemma countNewlines_plain s : Forall (λ d, d ≠ NEWLINE_CHAR) s → countNewlines s = 0.
Proof.
  unfold countNewlines. induction 1 as [|d s Hd _ IH]; [done |].
  rewrite filter_cons, decide_False by done. exact IH.
Qed.

Lemma countNewlines_newline : countNewlines [NEWLINE_CHAR] = 1.
Proof. unfold countNewlines. by rewrite filter_cons, decide_True. Qed.

Lemma countNewlines_app s1 s2 : countNewlines (s1 ++ s2) = countNewlines s1 + countNewlines s2.
Proof. unfold countNewlines. rewrite filter_app, length_app. lia. Qed.

Lemma countNewlineTokens_app s1 s2 :
  countNewlineTokens (s1 ++ s2) = countNewlineTokens s1 + countNewlineTokens s2.
Proof. unfold countNewlineTokens. rewrite filter_app, length_app. lia. Qed.

Lemma plain_isHexDigit d : isHexDigit d = true → d ≠ NEWLINE_CHAR.
Proof. intros H ->. by vm_compute in H. Qed.
Lemma plain_isDigitOrDot d : isDigitOrDot d = true → d ≠ NEWLINE_CHAR.
Proof. intros H ->. by vm_compute in H. Qed.
Lemma plain_isIdentPart d : isIdentPart d = true → d ≠ NEWLINE_CHAR.
Proof. intros H ->. by vm_compute in H. Qed.
Lemma plain_notNewline d : negb (d =? NEWLINE_CHAR)%N = true → d ≠ NEWLINE_CHAR.
Proof. intros H ->. by vm_compute in H. Qed.

(** One turn of the loop consumes a prefix of the text that is either
    one newline, for which it pushes the NEWLINE token and moves to the next
    line, or has no newline in it, and then the column moves by its
    length and no NEWLINE token is pushed. *)
Lemma iteration_consumes c rest line column pushed rest' line' column' :
  iteration c rest line column = Continue pushed rest' line' column' →
  ∃ consumed,
    c :: rest = consumed ++ rest' ∧
    ((consumed = [NEWLINE_CHAR] ∧ line' = line + 1 ∧ column' = 1 ∧
      countNewlineTokens (option_list pushed) = 1) ∨
     (Forall (λ d, d ≠ NEWLINE_CHAR) consumed ∧ line' = line ∧
      column' = column + len consumed ∧
      countNewlineTokens (option_list pushed) = 0)).
Proof.
  intros E. lexer_cases E; injection E as <- <- <- <-.
  all: repeat match goal with
  | H : (_ && _)%bool = true |- _ => apply andb_true_iff in H as [? ?]
  | H : (_ =? _)%N = true |- _ => apply N.eqb_eq in H
  | H : (_ =? _)%N = false |- _ => apply N.eqb_neq in H
  | H : span _ _ = _ |- _ => apply span_app in H as [? ?]
  | H : scanQuoted _ _ = _ |- _ => apply scanQuoted_app in H as [? ?]
  end.
  all: try match goal with
  | H : (_ || _)%bool = true |- _ =>
      assert (c ≠ NEWLINE_CHAR) by (intros ->; by vm_compute in H)
  end.
  all: repeat match goal with
  | H : (charAt _ 0 _ || charAt _ 0 _)%bool = true |- _ =>
      apply orb_true_iff in H as [H|H]
  end.
  all: repeat match goal with
  | H : charAt ?r _ _ = true |- _ =>
      is_var r; destruct r as [|? [|? ?]]; try discriminate H
  | H : charAt _ _ _ = true |- _ => apply N.eqb_eq in H
  end.
  all: cbn [drop] in *; subst.
  all: eexists; (split;
    [ repeat first [ eassumption | apply app_nil_eq | apply cons_app_eq | apply app_app_eq ]
    | first
        [ left; by repeat split
        | right; split;
          [ repeat first
              [ apply Forall_nil; done
              | apply Forall_cons_2; [first [assumption | by vm_compute] |]
              | apply Forall_app; split
              | eapply Forall_impl; [eassumption |];
                intros ? HP;
                first [ by apply plain_notNewline | by apply plain_isHexDigit
                      | by apply plain_isDigitOrDot | by apply plain_isIdentPart
                      | exact (proj2 HP) ] ]
          | split; [reflexivity |];
            split; [unfold len; cbn [length]; rewrite ?length_app; cbn [length]; lia |];
            unfold countNewlineTokens; simpl; try case_bool_decide; reflexivity ] ] ]).
Qed.

(** The loop from [rest], as one turn and the loop from what is left. *)
Lemma tokenizeFrom_Continue c rest l cl toks p rest' l' c' :
  iteration c rest l cl = Continue p rest' l' c' →
  tokenizeFrom (c :: rest) l cl toks = tokenizeFrom rest' l' c' (toks ++ option_list p).
Proof.
  intros E. funelim (tokenizeFrom (c :: rest) l cl toks).
  - match goal with
    | H1 : iteration ?c ?r ?l ?cl = Continue _ _ _ _,
      H2 : iteration ?c ?r ?l ?cl = Continue _ _ _ _ |- _ =>
        rewrite H1 in H2; injection H2 as <- <- <- <-
    end. reflexivity.
  - congruence.
Qed.

Lemma tokenizeFrom_position rest l c toks out :
  tokenizeFrom rest l c toks = inr out →
  ∃ mid, out = toks ++ mid ++ [mkToken EOF [] (advancePosition (l, c) rest).1
                                        (advancePosition (l, c) rest).2] ∧
         countNewlineTokens mid = countNewlines rest.
Proof.
  funelim (tokenizeFrom rest l c toks).
  - intros [= <-]. exists []. split; reflexivity.
  - intros Hout.
    match goal with E : iteration _ _ _ _ = Continue _ _ _ _ |- _ =>
      destruct (iteration_consumes _ _ _ _ _ _ _ _ E) as (consumed & Hsplit & Hcase) end.
    destruct (H _ Hout) as (mid & -> & Hcount).
    exists (option_list pushed ++ mid). rewrite Hsplit, advancePosition_app.
    rewrite countNewlineTokens_app, countNewlines_app, Hcount.
    destruct Hcase as [(-> & -> & -> & ->)|(Hplain & -> & -> & ->)].
    + split; [by rewrite <- !app_assoc | by rewrite countNewlines_newline].
    + rewrite (advancePosition_plain consumed), (countNewlines_plain consumed) by done.
      split; [by rewrite <- !app_assoc | reflexivity].
  - done.
Qed.

(** The end-of-input token carries the position of the end of the text:
    its line is one more than the number of newline characters of the text,
    which is also the number of NEWLINE tokens before it, and its column is
    one more than the number of characters after the last newline. *)
Theorem eof_token_position code toks :
  tokenize code = inr toks →
  ∃ pre, toks = pre ++ [mkToken EOF [] (1 + countNewlines code)
                                 (advancePosition (1, 1) code).2] ∧
         countNewlineTokens pre = countNewlines code.
Proof.
  intros (mid & -> & Hcount)%tokenizeFrom_position. exists mid.
  by rewrite advancePosition_line.
Qed.

Lemma eof_token_position_witness :
  ∃ pre, [ mkToken IDENTIFIER (str "a") 1 1; mkToken NEWLINE [NEWLINE_CHAR] 1 2;
           mkToken IDENTIFIER (str "bc") 2 1; mkToken EOF [] 2 3 ]
         = pre ++ [mkToken EOF [] (1 + countNewlines (str "a" ++ [NEWLINE_CHAR] ++ str "bc"))
                           (advancePosition (1, 1) (str "a" ++ [NEWLINE_CHAR] ++ str "bc")).2] ∧
         countNewlineTokens pre = countNewlines (str "a" ++ [NEWLINE_CHAR] ++ str "bc").
Proof.
  apply (eof_token_position (str "a" ++ [NEWLINE_CHAR] ++ str "bc")).
  vm_compute. reflexivity.
Defined.

Lemma scanQuoted_complete q s r :
  q ≠ NEWLINE_CHAR → Forall (λ d, d ≠ q ∧ d ≠ NEWLINE_CHAR) s →
  scanQuoted q (s ++ q :: r) = Some (s, r).
Proof.
  intros Hq. induction 1 as [|d s [Hd Hn] _ IH]; simpl.
  - by rewrite N.eqb_refl.
  - apply N.eqb_neq in Hd, Hn. by rewrite Hd, Hn, IH.
Qed.

(** A quoted literal comes back as it was written: a text between two
    double quotes, or between two single quotes, that has no such quote and
    no newline in it is one STRING token with exactly that text, then the
    end of input; no character in it is an escape. *)
Theorem quoted_literal_roundtrip q s :
  q = DOUBLE_QUOTE ∨ q = ch "'" →
  Forall (λ d, d ≠ q ∧ d ≠ NEWLINE_CHAR) s →
  tokenize (q :: s ++ [q]) = inr [mkToken STRING s 1 1; mkToken EOF [] 1 (len s + 3)].
Proof.
  intros Hq Hs. unfold tokenize.
  assert (E : iteration q (s ++ [q]) 1 1
              = Continue (Some (mkToken STRING s 1 1)) [] 1 (1 + 1 + len s + 1)).
  { unfold iteration.
    destruct Hq as [-> | ->];
      repeat match goal with
             | |- context [(?a =? ?b)%N] =>
                 let v := eval vm_compute in (a =? b)%N in
                 change ((a =? b)%N) with v
             end;
      cbn [andb orb];
      (rewrite scanQuoted_complete; [reflexivity | by vm_compute | done]). }
  rewrite (tokenizeFrom_Continue _ _ _ _ _ _ _ _ _ E).
  simp tokenizeFrom. simpl. by replace (1 + 1 + len s + 1) with (len s + 3) by lia.
Qed.

Lemma quoted_literal_roundtrip_witness :
  tokenize (DOUBLE_QUOTE :: str "a\b 'c'" ++ [DOUBLE_QUOTE])
  = inr [mkToken STRING (str "a\b 'c'") 1 1; mkToken EOF [] 1 (len (str "a\b 'c'") + 3)].
Proof.
  apply (quoted_literal_roundtrip DOUBLE_QUOTE (str "a\b 'c'")).
  - by left.
  - apply (bool_decide_unpack _). vm_compute. exact I.
Defined.


(** The texts of the OPERATOR tokens. *)
Definition OPERATORS : list (list N) :=
  str <$> ["+"; "-"; "*"; "/"; "="; "<"; ">"; "&"; "<="; ">="; "<>"]%string.

(** What the text of a token is, by its type. *)
Definition wellFormedToken (t : Token) : Prop :=
  1 ≤ line t ∧ 1 ≤ column t ∧
  match type t with
  | KEYWORD => value t ∈ KEYWORDS
  | IDENTIFIER =>
      (value t ∉ KEYWORDS) ∧
      ∃ c s, value t = c :: s ∧ isIdentStart c = true ∧
             Forall (λ d, isIdentPart d = true) s
  | NUMBER =>
      (∃ digits, value t = str "0x" ++ digits ∧ digits ≠ [] ∧
                 Forall (λ d, isHexDigit d = true) digits) ∨
      (∃ c s, value t = c :: s ∧ isDigit c = true ∧
              Forall (λ d, isDigitOrDot d = true) s)
  | STRING | COMMENT => Forall (λ d, d ≠ NEWLINE_CHAR) (value t)
  | OPERATOR => value t ∈ OPERATORS
  | ASSIGNMENT => value t = str "<--"
  | COMMA => value t = str ","
  | COLON => value t = str ":"
  | LPAREN => value t = str "("
  | RPAREN => value t = str ")"
  | LBRACKET => value t = str "["
  | RBRACKET => value t = str "]"
  | NEWLINE => value t = [NEWLINE_CHAR]
  | EOF => value t = []
  end.

Lemma span_head p c rest s r :
  p c = true → span p (c :: rest) = (s, r) →
  ∃ s', s = c :: s' ∧ Forall (λ d, p d = true) s'.
Proof.
  intros Hc. simpl. rewrite Hc. destruct (span p rest) as [s' r'] eqn:F.
  intros [= <- <-]. exists s'. split; [done |]. by apply span_app in F as [_ ?].
Qed.

Lemma operator_char c : isOperatorChar c = true → [c] ∈ OPERATORS.
Proof.
  unfold isOperatorChar. intros H%bool_decide_eq_true.
  repeat (apply elem_of_cons in H as [->|H]; [apply (bool_decide_unpack _); by vm_compute |]).
  by apply elem_of_nil in H.
Qed.

Lemma iteration_token c rest ln cl t rest' ln' cl' :
  iteration c rest ln cl = Continue (Some t) rest' ln' cl' →
  1 ≤ ln → 1 ≤ cl → wellFormedToken t.
Proof.
  intros E Hl Hc. lexer_cases E; injection E as <- <- <- <-.
  all: unfold wellFormedToken; cbn [line column value type].
  all: (split; [lia |]); (split; [unfold len; lia |]).
  all: repeat match goal with
  | H : (_ && _)%bool = true |- _ => apply andb_true_iff in H as [? ?]
  | H : (_ =? _)%N = true |- _ => apply N.eqb_eq in H
  end.
  all: try reflexivity.
  all: try (subst; reflexivity).
  all: try (apply (bool_decide_unpack _); by vm_compute).
  all: try by apply operator_char.
  - apply span_app in Heqp as [_ Hp]. eapply Forall_impl; [exact Hp |].
    intros d Hd. by apply plain_notNewline.
  - match goal with H : scanQuoted _ _ = _ |- _ => apply scanQuoted_app in H as [_ Hp] end.
    eapply Forall_impl; [exact Hp |]. by intros d [_ ?].
  - match goal with H : scanQuoted _ _ = _ |- _ => apply scanQuoted_app in H as [_ Hp] end.
    eapply Forall_impl; [exact Hp |]. by intros d [_ ?].
  - left. exists l. split; [reflexivity |]. split.
    + intros ->. by apply n.
    + by apply span_app in Heqp as [_ ?].
  - right. match goal with H : isDigit c = true |- _ => rename H into Hd end.
    assert (isDigitOrDot c = true) as Hdd by (unfold isDigitOrDot; by rewrite Hd).
    destruct (span_head _ _ _ _ _ Hdd Heqp) as (s' & -> & Hs). by exists c, s'.
  - match goal with H : isIdentStart c = true |- _ => rename H into Hd end.
    assert (isIdentPart c = true) as Hdd by (unfold isIdentPart; by rewrite Hd).
    destruct (span_head _ _ _ _ _ Hdd Heqp) as (s' & -> & Hs).
    case_bool_decide; [done |]. split; [done |]. by exists c, s'.
Qed.

Lemma tokenizeFrom_wellFormed rest ln cl toks out :
  1 ≤ ln → 1 ≤ cl → Forall wellFormedToken toks →
  tokenizeFrom rest ln cl toks = inr out → Forall wellFormedToken out.
Proof.
  funelim (tokenizeFrom rest ln cl toks); intros Hl Hc Htoks.
  - intros [= <-]. apply Forall_app. split; [done |].
    apply Forall_singleton. by repeat split.
  - match goal with E : iteration _ _ _ _ = Continue _ _ _ _ |- _ =>
      pose proof (iteration_Continue _ _ _ _ _ _ _ _ E Hl Hc) as (Hl' & Hc' & _);
      pose proof E as E'
    end.
    apply H; [done | done |]. apply Forall_app. split; [done |].
    destruct pushed as [t|]; simpl; [|done].
    apply Forall_singleton. by apply (iteration_token _ _ _ _ _ _ _ _ E').
  - done.
Qed.

(** Every token [tokenize] returns has the text its type announces, at a
    line and a column that are at least 1: a KEYWORD is one of the
    keywords and an IDENTIFIER is none (the comparison is exact, so a keyword
    in lower case is an identifier); a NUMBER is "0x" followed by at least
    one hexadecimal digit, or a digit followed by digits and dots, how many
    dots ever; an OPERATOR is one of the eleven operators, an ASSIGNMENT is
    "<--" whichever way it was written; strings and comments hold no
    newline. *)
Theorem tokens_wellFormed code toks :
  tokenize code = inr toks → Forall wellFormedToken toks.
Proof. by apply tokenizeFrom_wellFormed. Qed.

Lemma tokens_wellFormed_witness :
  Forall wellFormedToken
    [ mkToken IDENTIFIER (str "if") 1 1; mkToken NUMBER (str "1.2.3") 1 4;
      mkToken ASSIGNMENT (str "<--") 1 10; mkToken NUMBER (str "0xA") 1 11;
      mkToken EOF [] 1 14 ].
Proof.
  apply (tokens_wellFormed (str "if 1.2.3 " ++ [LEFT_ARROW] ++ str "0xA")).
  vm_compute. reflexivity.
Defined.

End LexerExtras.

Section InterpFacts.
Import JS Interp.
Variable host : Host.


Example mixed_equality :
  applyBinaryOp host "=" (VNumber (ofZ 1)) (VString "1") 7 = inr (VBoolean false) ∧
  applyBinaryOp host "<" (VNumber (ofZ 1)) (VString "1") 7
    = inl (RuntimeError "Invalid comparison" 7).
Proof. split; reflexivity. Qed.

(** [evaluateExpression] has no case for the address-of node, whatever the
    state and the context. *)
Lemma evaluate_AddressOf this target line context st :
  evaluateExpression host this (AddressOf target line) context st
  = Thrown (RuntimeError "Unknown expression type: AddressOf" line) st.
Proof. reflexivity. Qed.

(** [executeAssignment] has no branch for a dereference target: the value
    is evaluated and dropped. *)
Lemma assign_through_Dereference this pointer l v t l' line context st :
  executeAssignment host this (Dereference pointer l) (Literal v t l') line context st
  = Done tt st.
Proof. reflexivity. Qed.

(** **** Numbers that are integers *)

Lemma Qle_bool_inject_Z a b : Qle_bool (inject_Z a) (inject_Z b) = (a <=? b).
Proof. unfold Qle_bool. simpl. by rewrite !Z.mul_1_r. Qed.

Lemma Qeq_bool_inject_Z a b : Qeq_bool (inject_Z a) (inject_Z b) = (a =? b).
Proof. unfold Qeq_bool. simpl. by rewrite !Z.mul_1_r. Qed.

Lemma keyEqb_refl k : keyEqb k k = true.
Proof. destruct k; simpl; try done. apply Qeq_bool_iff. reflexivity. Qed.

Lemma keyEqb_ofZ a b : keyEqb (ofZ a) (ofZ b) = (a =? b).
Proof. apply Qeq_bool_inject_Z. Qed.


Lemma add_ofZ a b : JS.add (ofZ a) (ofZ b) = ofZ (a + b).
Proof. unfold JS.add, ofZ, Qplus, inject_Z. simpl. by rewrite !Z.mul_1_r. Qed.

(** **** Array objects *)

Lemma lookup_storeSlot k o slots : lookupSlot k (storeSlot k o slots) = Some o.
Proof.
  induction slots as [|[k' o'] slots IH]; simpl.
  - by rewrite keyEqb_refl.
  - destruct (keyEqb k' k) eqn:E; simpl; rewrite E; [done | apply IH].
Qed.

Lemma lookupSlot_fresh (x : JSObject) (l : list Z) i :
  i ∈ l → lookupSlot (ofZ i) ((λ j, (ofZ j, x)) <$> l) = Some x.
Proof.
  induction l as [|j l IH]; [by intros ?%elem_of_nil |].
  intros Hi. rewrite fmap_cons. cbn [lookupSlot]. rewrite keyEqb_ofZ. destruct (Z.eqb_spec j i) as [->|Hne]; [done |].
  apply IH. apply elem_of_cons in Hi as [->|Hi]; done.
Qed.

(** The indices [idxs] are within the bounds [dims], one index for each
    dimension. *)
Definition withinBounds (idxs : list Z) (dims : list (Z * Z)) : Prop :=
  Forall2 (λ i d, d.1 ≤ i ≤ d.2) idxs dims.




(** **** The FOR loop *)

(** [getVariable] looks at the contexts only. *)
Lemma getVariable_contexts name context st st' :
  contextHeap st' = contextHeap st →
  getVariable name context st' = getVariable name context st.
Proof. unfold getVariable. by intros ->. Qed.

(** The statement [OUTPUT variable] in a state where the variable holds a
    number: one iteration is counted and one line is output. *)
Definition afterCount (line : Z) (st : Interpreter) : Interpreter :=
  let st1 := setIterationCount (iterationCount st + 1) st in
  if debugMode st && hasStepCallback st then
    match reverse (callStack st1) with
    | top :: below =>
        setCallStack (reverse (mkFrame (frameName top) line (frameType top) :: below)) st1
    | [] => st1
    end
  else st1.

Lemma countIteration_ok line st :
  iterationCount st + 1 ≤ MAX_ITERATIONS →
  countIteration line st = Done tt (afterCount line st).
Proof.
  intros H. unfold countIteration, afterCount, bind, get, modify. simpl.
  rewrite decide_False by lia.
  destruct (debugMode st && hasStepCallback st); reflexivity.
Qed.

Lemma countIteration_timeout line st :
  iterationCount st + 1 > MAX_ITERATIONS →
  countIteration line st
  = Thrown (RuntimeError "Execution timeout: Possible infinite loop" line)
           (setIterationCount (iterationCount st + 1) st).
Proof.
  intros H. unfold countIteration, bind, get, modify. simpl.
  by rewrite decide_True by lia.
Qed.

Lemma afterCount_fields line st :
  variableHeap (afterCount line st) = variableHeap st ∧
  contextHeap (afterCount line st) = contextHeap st ∧
  output (afterCount line st) = output st ∧
  iterationCount (afterCount line st) = iterationCount st + 1 ∧
  recursionDepth (afterCount line st) = recursionDepth st ∧
  procedures (afterCount line st) = procedures st ∧
  functions (afterCount line st) = functions st ∧
  nextRef (afterCount line st) = nextRef st ∧
  debugMode (afterCount line st) = debugMode st ∧
  hasStepCallback (afterCount line st) = hasStepCallback st ∧
  length (callStack (afterCount line st)) = length (callStack st).
Proof.
  unfold afterCount. destruct (debugMode st && hasStepCallback st); [|done].
  simpl. destruct (reverse (callStack st)) as [|top below] eqn:E; [done |].
  simpl. repeat split; try done.
  rewrite length_reverse. simpl. rewrite <- (length_reverse (callStack st)), E. done.
Qed.

(** The values the loop variable takes from [v] on, [n] of them, [k]
    apart. *)
Definition visits (v k : Z) (n : nat) : list Z :=
  (λ j, v + Z.of_nat j * k) <$> seq 0 n.


(** The loop test of [executeFor] on an integer value of the variable. *)
Definition continues (up : bool) (end_ : number) (x : Z) : bool :=
  if up then JS.leb (ofZ x) end_ else JS.geb (ofZ x) end_.

(** One statement [OUTPUT variable] as loop body. *)
Definition observe (variable : string) (l1 l2 : Z) : list ASTNode :=
  [Output [Identifier variable l1] l2].

Lemma observe_runs fuel variable l1 l2 context st ref record :
  getVariable variable context st = Some ref →
  variableHeap st !! ref = Some record →
  initialized record = true →
  iterationCount st + 1 ≤ MAX_ITERATIONS →
  runBlock (interp host (S fuel)) false (observe variable l1 l2) context st
  = Done tt (setOutput (output st ++ [valueToString host (value record)])
                       (afterCount l2 st)).
Proof.
  intros Hget Hvar Hinit Hbudget.
  unfold runBlock, observe, forEach, runNode. cbn [interp this_executeNode].
  unfold executeNode. cbn [nodeLine]. unfold bind at 1 2.
  rewrite countIteration_ok by done.
  destruct (afterCount_fields l2 st) as (Hv & Hc & Ho & _).
  unfold executeOutput, mapM, evaluateExpression, evaluateIdentifier, bind, get,
    readVariable, ret, yield, modify.
  rewrite (getVariable_contexts _ _ st) by done.
  rewrite Hget, Hv, Hvar, Hinit. simpl. by rewrite Ho.
Qed.


(** [executeFor] on literal bounds, for a declared variable. *)
Lemma executeFor_literals this sync variable s e t tys tye tyt ls le lt body line
      context st ref :
  getVariable variable context st = Some ref →
  executeFor host this sync variable (Literal (VNumber s) tys ls)
             (Literal (VNumber e) tye le) (Literal (VNumber t) tyt lt) body line context st
  = if JS.isZero t then Thrown (RuntimeError "FOR loop STEP cannot be zero" line) st
    else forLoop host this sync (JS.gtb t (ofZ 0)) ref e t body context
           (setVariableHeap
              (alter (λ r, mkVariable (type r) (VNumber (JS.floor s)) (dimensions r)
                                      (elementType r) true)
                     ref (variableHeap st)) st).
Proof.
  intros Hget. unfold executeFor, evaluateExpression, bind, get, ret. rewrite Hget.
  cbv beta iota. destruct (JS.isZero t); reflexivity.
Qed.


(** **** Recursion depth *)


(** The state after one empty [OUTPUT]. *)
Definition afterOutput (l : Z) (st : Interpreter) : Interpreter :=
  setOutput (output (afterCount l st) ++ [""]) (afterCount l st).

Lemma afterOutput_fields l st :
  iterationCount (afterOutput l st) = iterationCount st + 1 ∧
  output (afterOutput l st) = output st ++ [""] ∧
  recursionDepth (afterOutput l st) = recursionDepth st ∧
  procedures (afterOutput l st) = procedures st ∧
  nextRef (afterOutput l st) = nextRef st.
Proof.
  destruct (afterCount_fields l st) as (_ & _ & Ho & Hi & Hd & Hp & _ & Hn & _).
  unfold afterOutput.
  change (iterationCount (setOutput ?o ?s)) with (iterationCount s).
  change (recursionDepth (setOutput ?o ?s)) with (recursionDepth s).
  change (procedures (setOutput ?o ?s)) with (procedures s).
  change (nextRef (setOutput ?o ?s)) with (nextRef s).
  change (output (setOutput ?o ?s)) with o.
  by rewrite Hi, Hd, Hp, Hn, Ho.
Qed.

Lemma afterOutputs_fields l n st :
  iterationCount (Nat.iter n (afterOutput l) st) = iterationCount st + Z.of_nat n ∧
  output (Nat.iter n (afterOutput l) st) = output st ++ repeat "" n ∧
  recursionDepth (Nat.iter n (afterOutput l) st) = recursionDepth st ∧
  procedures (Nat.iter n (afterOutput l) st) = procedures st ∧
  nextRef (Nat.iter n (afterOutput l) st) = nextRef st.
Proof.
  induction n as [|n (Hi & Ho & Hd & Hp & Hn)].
  - simpl. rewrite app_nil_r. repeat split; lia.
  - rewrite Nat.iter_succ.
    destruct (afterOutput_fields l (Nat.iter n (afterOutput l) st))
      as (Hi' & Ho' & Hd' & Hp' & Hn').
    rewrite Hi', Ho', Hd', Hp', Hn', Hi, Ho, Hd, Hp, Hn.
    repeat split; try lia.
    rewrite <- app_assoc. f_equal. by rewrite <- repeat_cons.
Qed.

Lemma outputs_run fuel l context rest n : ∀ st,
  iterationCount st + Z.of_nat n ≤ MAX_ITERATIONS →
  forEach (λ stmt, executeNode host (interp host fuel) stmt context)
          (repeat (Output [] l) n ++ rest) st
  = forEach (λ stmt, executeNode host (interp host fuel) stmt context) rest
            (Nat.iter n (afterOutput l) st).
Proof.
  induction n as [|n IH]; intros st Hbudget; [done |].
  rewrite Nat.iter_succ_r. rewrite <- IH.
  - cbn [repeat app forEach]. unfold bind at 1, executeNode at 1. cbn [nodeLine].
    unfold bind at 1. rewrite countIteration_ok by lia.
    unfold executeOutput, mapM, bind, ret, yield, modify. reflexivity.
  - destruct (afterOutput_fields l st) as (Hi & _). lia.
Qed.





(** **** Parameter passing *)







(** The statements [p <- v] for the values [vs], in this order. *)
Definition assignAll (p : string) (vs : list any) (l : Z) : list ASTNode :=
  (λ v, Assignment (Identifier p l) (Literal v STRING l) l) <$> vs.












(** C10. INPUT into a declared variable, with an answer available, never
    throws: the answer is echoed as one line of output, the variable is
    marked initialized, and the value stored is 0 for an INTEGER variable
    whose answer [parseInt] turns into NaN, 0 for a REAL variable whose
    answer [parseFloat] turns into NaN, and for a BOOLEAN variable the
    truth of "the lower-cased answer is the text true". *)
Theorem input_never_throws this name l line context st ref variable input rest :
  getVariable name context st = Some ref →
  variableHeap st !! ref = Some variable →
  pendingInput st = input :: rest →
  ∃ st' stored,
    executeInput host this (Identifier name l) line context st = Done tt st' ∧
    output st' = output st ++ [input] ∧
    pendingInput st' = rest ∧
    variableHeap st' !! ref
      = Some (mkVariable (type variable) stored (dimensions variable)
                         (elementType variable) true) ∧
    (type variable = INTEGER → parseInt host input = NaN → stored = VNumber (ofZ 0)) ∧
    (type variable = REAL → parseFloat host input = NaN → stored = VNumber (ofZ 0)) ∧
    (type variable = BOOLEAN →
     stored = VBoolean (String.eqb (toLowerCase host input) "true")).
Proof.
  intros Hget Hvar Hin.
  eexists _, (convertInput host (type variable) input).
  split.
  - unfold executeInput, bind, get, readVariable, awaitInput, assignVariable, yield,
      modify. rewrite Hget, Hvar, Hin. reflexivity.
  - simpl. split; [reflexivity |]. split; [reflexivity |]. split.
    + rewrite lookup_alter_eq, Hvar. reflexivity.
    + unfold convertInput. repeat split; intros ->; try intros ->; reflexivity.
Qed.

End InterpFacts.

(** *** Properties of every run *)

Section RunInvariant.
Import JS Interp.
Local Open Scope interp_scope.
Variable host : Host.

(** Two relations between the state in which a piece of the interpreter
    starts and the state it leaves: [R] when it returns, or is left by a
    RETURN statement; [E] when it throws or waits for an input. *)
Variables R E : Interpreter → Interpreter → Prop.

(** [post rv m]: every run of [m] is in the relations; with [rv] false,
    [m] is moreover never left by a RETURN statement. *)
Definition post {A} (rv : bool) (m : M A) : Prop :=
  ∀ st, match m st with
        | Done _ st' => R st st'
        | Thrown (ReturnValue _) st' => if rv then R st st' else False
        | Thrown _ st' | Suspended st' => E st st'
        | Unfinished => True
        end.

Hypothesis R_refl : ∀ st, R st st.
Hypothesis R_trans : ∀ a b c, R a b → R b c → R a c.
Hypothesis R_E : ∀ a b, R a b → E a b.
Hypothesis RE_trans : ∀ a b c, R a b → E b c → E a c.

Lemma post_weaken {A} (m : M A) : post false m → post true m.
Proof.
  intros H st. specialize (H st). destruct (m st) as [? ?|[]|?|]; done.
Qed.

Lemma post_any {A} rv (m : M A) : post false m → post rv m.
Proof. destruct rv; [apply post_weaken | done]. Qed.

Lemma post_ret {A} rv (a : A) : post rv (ret a).
Proof. intros st. apply R_refl. Qed.

Lemma post_throw_error {A} rv message line :
  post rv (throw (A := A) (RuntimeError message line)).
Proof. intros st. apply R_E, R_refl. Qed.

Lemma post_throw_type {A} rv message : post rv (throw (A := A) (TypeError message)).
Proof. intros st. apply R_E, R_refl. Qed.

Lemma post_throw_return {A} v : post true (throw (A := A) (ReturnValue v)).
Proof. intros st. apply R_refl. Qed.

Lemma post_get rv : post rv get.
Proof. intros st. apply R_refl. Qed.

Lemma post_modify rv f : (∀ st, R st (f st)) → post rv (modify f).
Proof. intros H st. apply H. Qed.

Lemma post_bind {A B} rv (m : M A) (k : A → M B) :
  post rv m → (∀ a, post rv (k a)) → post rv (bind m k).
Proof.
  intros Hm Hk st. unfold bind. specialize (Hm st).
  destruct (m st) as [a st1|e st1|st1|]; [|done..].
  specialize (Hk a st1).
  destruct (k a st1) as [b st2|[]|st2|]; destruct rv; eauto.
Qed.

Lemma post_forEach {A} rv (f : A → M unit) xs :
  (∀ x, post rv (f x)) → post rv (forEach f xs).
Proof.
  intros Hf. induction xs as [|x xs IH]; simpl.
  - apply post_ret.
  - apply post_bind; [apply Hf | intros _; apply IH].
Qed.

Lemma post_mapM {A B} rv (f : A → M B) xs :
  (∀ x, post rv (f x)) → post rv (mapM f xs).
Proof.
  intros Hf. induction xs as [|x xs IH]; simpl.
  - apply post_ret.
  - apply post_bind; [apply Hf | intros y].
    apply post_bind; [apply IH | intros ys; apply post_ret].
Qed.


(** The state updates of expression evaluation and of the statements a
    function body can hold. *)
Hypothesis R_variableHeap : ∀ x st, R st (setVariableHeap x st).
Hypothesis R_arrayHeap : ∀ x st, R st (setArrayHeap x st).
Hypothesis R_contextHeap : ∀ x st, R st (setContextHeap x st).
Hypothesis R_nextRef : ∀ x st, R st (setNextRef x st).
Hypothesis R_randomCalls : ∀ x st, R st (setRandomCalls x st).

(** A call: the depth counter goes up, the call runs, and the counter
    goes down again. *)
Hypothesis R_function : ∀ st st',
  R (setRecursionDepth (recursionDepth st + 1) st) st' →
  R st (setRecursionDepth (recursionDepth st' - 1) st').
Hypothesis E_function : ∀ st st',
  E (setRecursionDepth (recursionDepth st + 1) st) st' →
  E st (setRecursionDepth (recursionDepth st' - 1) st').
Hypothesis E_enter : ∀ st st',
  E (setRecursionDepth (recursionDepth st + 1) st) st' → E st st'.

(** A result that is not the exception of a RETURN statement. *)
Definition noReturn {A} (r : Exception + A) : Prop :=
  match r with
  | inl (ReturnValue _) => False
  | _ => True
  end.

Lemma post_liftResult {A} rv (r : Exception + A) : noReturn r → post rv (liftResult r).
Proof.
  destruct r as [[]|a]; simpl; intros H; [| done | |].
  - apply post_throw_error.
  - apply post_throw_type.
  - apply post_ret.
Qed.

Lemma noReturn_getArrayElement arr indices dimensions line :
  noReturn (getArrayElement arr indices dimensions line).
Proof.
  revert arr dimensions. induction indices as [|idx rest IH]; intros arr dimensions; [done |].
  destruct dimensions as [|[lower upper] dimensions']; [by destruct rest |].
  assert (Hget : ∀ k, match getProperty arr k with inl (ReturnValue _) => False | _ => True end).
  { intros k. unfold getProperty.
    destruct arr as [[]|[? ? slots]]; try done.
    - by destruct (charIndex k _).
    - by destruct (lookupSlot k slots). }
  assert (Hinit : ∀ el, match readInitialized el with inl (ReturnValue _) => False | _ => True end).
  { intros [[]|[]]; done. }
  simpl. destruct rest as [|idx' rest'].
  - destruct (outOfBounds idx lower upper); [done |].
    specialize (Hget idx). destruct (getProperty arr idx) as [e|el]; [done |].
    specialize (Hinit el). destruct (readInitialized el) as [e|[]]; done.
  - destruct (outOfBounds idx lower upper); [done |].
    specialize (Hget idx). destruct (getProperty arr idx) as [e|sub]; [done |].
    apply IH.
Qed.

Lemma noReturn_setArrayElement arr indices v dimensions line :
  noReturn (setArrayElement arr indices v dimensions line).
Proof.
  revert arr dimensions. induction indices as [|idx rest IH]; intros arr dimensions; [done |].
  destruct dimensions as [|[lower upper] dimensions']; [by destruct rest |].
  assert (Hget : ∀ k, match getProperty arr k with inl (ReturnValue _) => False | _ => True end).
  { intros k. unfold getProperty.
    destruct arr as [[]|[? ? slots]]; try done.
    - by destruct (charIndex k _).
    - by destruct (lookupSlot k slots). }
  simpl. destruct rest as [|idx' rest'].
  - destruct (outOfBounds idx lower upper); [done |]. by destruct arr as [?|[]].
  - destruct (outOfBounds idx lower upper); [done |].
    specialize (Hget idx). destruct (getProperty arr idx) as [e|sub]; [done |].
    specialize (IH sub dimensions').
    destruct (setArrayElement sub (idx' :: rest') v dimensions' line) as [e|sub'];
      [done | by destruct arr as [?|[]]].
Qed.

Lemma noReturn_applyBinaryOp operator l r line :
  noReturn (applyBinaryOp host operator l r line).
Proof.
  unfold applyBinaryOp.
  repeat match goal with
         | |- noReturn (if ?b then _ else _) => destruct b
         | |- noReturn (match ?x with _ => _ end) => destruct x
         end; done.
Qed.

Create HintDb post discriminated.
#[local] Hint Resolve post_ret post_throw_error post_throw_type post_get post_weaken
  noReturn_getArrayElement noReturn_setArrayElement noReturn_applyBinaryOp : post.

(** One step of a proof that a piece of the interpreter is in the
    relations: the rule of its head. *)
Ltac post_step :=
  match goal with
  | |- post _ (ret _) => apply post_ret
  | |- post _ (throw (RuntimeError _ _)) => apply post_throw_error
  | |- post _ (throw (TypeError _)) => apply post_throw_type
  | |- post _ (throw (ReturnValue _)) => apply post_throw_return
  | |- post _ get => apply post_get
  | |- post _ (liftResult _) => apply post_liftResult; solve [auto with post]
  | |- post _ (modify _) =>
      apply post_modify; intros ?; solve [eauto using R_trans with post]
  | |- post _ (bind _ _) => apply post_bind; [| intros ?]
  | |- post _ (forEach _ _) => apply post_forEach; intros ?
  | |- post _ (mapM _ _) => apply post_mapM; intros ?
  | |- post _ (match ?x with _ => _ end) => destruct x
  | |- post _ _ => solve [auto 3 with post]
  end.

Ltac post_auto := repeat post_step.

Lemma post_readVariable rv ref : post rv (readVariable ref).
Proof.
  intros st. unfold readVariable. destruct (variableHeap st !! ref); [apply R_refl |].
  apply R_E, R_refl.
Qed.

Lemma post_allocVariable rv v : post rv (allocVariable v).
Proof. intros st. simpl. eapply R_trans; [apply R_variableHeap | apply R_nextRef]. Qed.

Lemma post_allocArray rv o : post rv (allocArray o).
Proof. intros st. simpl. eapply R_trans; [apply R_arrayHeap | apply R_nextRef]. Qed.

Lemma post_allocContext rv c : post rv (allocContext c).
Proof. intros st. simpl. eapply R_trans; [apply R_contextHeap | apply R_nextRef]. Qed.

#[local] Hint Resolve post_readVariable post_allocVariable post_allocArray post_allocContext
  R_variableHeap R_arrayHeap R_contextHeap R_nextRef R_randomCalls : post.

Lemma post_bindName rv context name ref : post rv (bindName context name ref).
Proof. unfold bindName. post_auto. Qed.

Lemma post_assignVariable rv ref v : post rv (assignVariable ref v).
Proof. unfold assignVariable. post_auto. Qed.

Lemma post_expectBoolean rv v message line : post rv (expectBoolean v message line).
Proof. unfold expectBoolean. post_auto. Qed.

Lemma post_evaluateIdentifier rv name line context :
  post rv (evaluateIdentifier name line context).
Proof. unfold evaluateIdentifier. post_auto. Qed.

Lemma post_arrayVariable rv array context line : post rv (arrayVariable array context line).
Proof. unfold arrayVariable. post_auto. Qed.

#[local] Hint Resolve post_bindName post_assignVariable post_expectBoolean
  post_evaluateIdentifier post_arrayVariable : post.

(** What the proofs assume of the methods called through [this]:
    expression evaluation, then the statements, in a function body
    ([sync]) or outside. *)
Record goodRun (this : Self) (sync : bool) : Prop := mkGoodRun {
  gr_node : ∀ node context, post true (runNode this sync node context);
  gr_while : ∀ condition body line context,
      post true (this_whileLoop this sync condition body line context);
  gr_repeat : ∀ body condition line context,
      post true (this_repeatLoop this sync body condition line context);
  gr_for : ∀ up variable end_ step body context,
      post true (this_forLoop this sync up variable end_ step body context)
}.

Record goodExpr (this : Self) : Prop := mkGoodExpr {
  ge_expr : ∀ expr context, post false (this_evaluateExpression this expr context);
  ge_sync : goodRun this true
}.

#[local] Hint Resolve ge_expr ge_sync gr_node gr_while gr_repeat gr_for : post.

Section Expressions.
Variable this : Self.
Hypothesis Hthis : goodExpr this.

Lemma post_evaluateIndices rv indices context line :
  post rv (evaluateIndices this indices context line).
Proof.
  unfold evaluateIndices. apply post_any. post_auto.
Qed.

Lemma post_evaluateArrayAccess rv array indices line context :
  post rv (evaluateArrayAccess this array indices line context).
Proof.
  unfold evaluateArrayAccess. pose proof post_evaluateIndices. post_auto.
Qed.

Lemma post_evaluateBinaryOp rv operator lhs rhs line context :
  post rv (evaluateBinaryOp host this operator lhs rhs line context).
Proof. unfold evaluateBinaryOp. apply post_any. post_auto. Qed.

Lemma post_evaluateUnaryOp rv operator operand line context :
  post rv (evaluateUnaryOp this operator operand line context).
Proof. unfold evaluateUnaryOp. apply post_any. post_auto. Qed.

Lemma post_evaluateBuiltInFunction rv name args context line :
  post rv (evaluateBuiltInFunction host this name args context line).
Proof.
  unfold evaluateBuiltInFunction. cbv zeta.
  assert (Harg : ∀ k, post false
            match args !! k with
            | Some e => this_evaluateExpression this e context
            | None => throw (TypeError "Cannot read properties of undefined")
            end).
  { intros k. post_auto. }
  apply post_any. repeat first [ apply Harg | post_step ].
Qed.

Lemma post_newLocalContext rv : post rv newLocalContext.
Proof. unfold newLocalContext. post_auto. Qed.

Lemma post_bindParameters parameters : ∀ args localContext callerContext callLine,
  post false (bindParameters this parameters args localContext callerContext callLine).
Proof.
  induction parameters as [|param parameters IH]; intros args lc cc l; simpl.
  - apply post_ret.
  - destruct args as [|arg args]; [apply post_ret |].
    apply post_bind; [| intros _; apply IH]. post_auto.
Qed.

(** The frame of a function call around the new context [prepare], the
    binding of the parameters [setup] and the body [body]. *)
Lemma post_function_frame {A} callLine (prepare : M A) (setup body : A → M unit) message :
  post false prepare → (∀ a, post false (setup a)) → (∀ a, post true (body a)) →
  post false
    (enterCall callLine >>
     let* a := prepare in
     setup a >>
     finally
       (catch (body a >> throw (RuntimeError message callLine))
              (λ e, match e with
                    | ReturnValue v => ret v
                    | _ => throw e
                    end))
       (λ st, setRecursionDepth (recursionDepth st - 1) st)).
Proof.
  intros Hprepare Hsetup Hbody st.
  unfold bind at 1, enterCall, bind at 1 2, get, modify.
  set (st1 := setRecursionDepth (recursionDepth st + 1) st).
  destruct (decide (recursionDepth st + 1 > MAX_RECURSION_DEPTH)).
  { unfold throw. apply E_enter, R_E, R_refl. }
  unfold ret, bind at 1. specialize (Hprepare st1).
  destruct (prepare st1) as [a st2|e st2|st2|]; [| | |done].
  - unfold bind at 1. specialize (Hsetup a st2).
    destruct (setup a st2) as [[] st3|e st3|st3|]; [| | |done].
    + assert (R st1 st3) by by apply (R_trans _ st2).
      unfold finally, catch, bind, throw, ret. specialize (Hbody a st3).
      destruct (body a st3) as [[] st4|e st4|st4|]; [| | |done].
      * apply E_function, R_E. by apply (R_trans _ st3).
      * destruct e.
        -- apply E_function. by apply (RE_trans _ st3).
        -- apply R_function. by apply (R_trans _ st3).
        -- apply E_function. by apply (RE_trans _ st3).
      * apply E_enter. by apply (RE_trans _ st3).
    + destruct e; [|done|]; by apply E_enter, (RE_trans _ st2).
    + by apply E_enter, (RE_trans _ st2).
  - destruct e; [by apply E_enter | done | by apply E_enter].
  - by apply E_enter.
Qed.

Lemma post_executeFunction rv func args callerContext callLine :
  post rv (executeFunction this func args callerContext callLine).
Proof.
  apply post_any. unfold executeFunction. destruct (decide _); [post_auto |].
  apply (post_function_frame callLine newLocalContext
           (λ localContext,
              bindParameters this (funcParameters func) args localContext callerContext
                             callLine)
           (λ localContext,
              forEach (λ stmt, this_executeSyncNode this stmt localContext) (funcBody func))).
  - apply post_newLocalContext.
  - intros lc. apply post_bindParameters.
  - intros lc. apply post_forEach. intros stmt.
    apply (gr_node this true (ge_sync this Hthis)).
Qed.

Lemma post_evaluateFunctionCall rv name args line context :
  post rv (evaluateFunctionCall host this name args line context).
Proof.
  unfold evaluateFunctionCall.
  pose proof post_evaluateBuiltInFunction. pose proof post_executeFunction. post_auto.
Qed.

Lemma post_evaluateExpression rv expr context :
  post rv (evaluateExpression host this expr context).
Proof.
  pose proof post_evaluateArrayAccess. pose proof post_evaluateBinaryOp.
  pose proof post_evaluateUnaryOp. pose proof post_evaluateFunctionCall.
  destruct expr; simpl; post_auto.
Qed.

(** **** The statements of a function body *)

Lemma post_executeDeclare rv identifier dataType arrayBounds arrayElementType context :
  post rv (executeDeclare identifier dataType arrayBounds arrayElementType context).
Proof. unfold executeDeclare. post_auto. Qed.

Lemma post_storeArrayElement rv ref indices v line :
  post rv (storeArrayElement ref indices v line).
Proof. unfold storeArrayElement. post_auto. Qed.

Lemma post_storeTarget rv target line context v :
  post rv (storeTarget this target line context v).
Proof.
  unfold storeTarget. pose proof post_storeArrayElement. pose proof post_evaluateIndices.
  post_auto.
Qed.

Lemma post_executeAssignment rv target valueExpr line context :
  post rv (executeAssignment host this target valueExpr line context).
Proof.
  unfold executeAssignment. pose proof post_storeTarget. pose proof post_evaluateExpression.
  post_auto.
Qed.

Lemma post_advance rv ref step : post rv (advance host ref step).
Proof. unfold advance. post_auto. Qed.

Section Statements.
Variable sync : bool.
Hypothesis Hrun : goodRun this sync.

Lemma post_runBlock block context : post true (runBlock this sync block context).
Proof. unfold runBlock. post_auto. Qed.

Lemma post_runElseIfs blocks line context :
  post true (runElseIfs host this sync blocks line context).
Proof.
  pose proof post_runBlock. pose proof post_evaluateExpression.
  induction blocks as [|[condition block] blocks IH]; simpl; post_auto.
Qed.

Lemma post_executeIf condition thenBlock elseIfBlocks elseBlock line context :
  post true (executeIf host this sync condition thenBlock elseIfBlocks elseBlock line
                       context).
Proof.
  unfold executeIf.
  pose proof post_runBlock. pose proof post_runElseIfs. pose proof post_evaluateExpression.
  post_auto.
Qed.

Lemma post_whileLoop condition body line context :
  post true (whileLoop host this sync condition body line context).
Proof.
  unfold whileLoop. pose proof post_runBlock. pose proof post_evaluateExpression.
  post_auto.
Qed.

Lemma post_repeatLoop body condition line context :
  post true (repeatLoop host this sync body condition line context).
Proof.
  unfold repeatLoop. pose proof post_runBlock. pose proof post_evaluateExpression.
  post_auto.
Qed.

Lemma post_forLoop up variable end_ step body context :
  post true (forLoop host this sync up variable end_ step body context).
Proof.
  unfold forLoop. pose proof post_runBlock. pose proof post_advance. post_auto.
Qed.

Lemma post_executeFor variable start end_ step body line context :
  post true (executeFor host this sync variable start end_ step body line context).
Proof.
  unfold executeFor. pose proof post_forLoop. pose proof post_evaluateExpression.
  post_auto.
Qed.

Lemma post_runCases v cases context :
  post true (runCases host this sync v cases context).
Proof.
  pose proof post_runBlock. pose proof post_evaluateExpression.
  induction cases as [|[single rangeStart rangeEnd statements] cases IH]; simpl; post_auto.
Qed.

Lemma post_executeCase expression cases otherwiseBlock context :
  post true (executeCase host this sync expression cases otherwiseBlock context).
Proof.
  unfold executeCase.
  pose proof post_runBlock. pose proof post_runCases. pose proof post_evaluateExpression.
  post_auto.
Qed.

End Statements.

Lemma post_executeSyncNode node context :
  post true (executeSyncNode host this node context).
Proof.
  pose proof (ge_sync this Hthis) as Hsync.
  pose proof post_executeDeclare. pose proof post_executeAssignment.
  pose proof (post_executeIf true Hsync). pose proof (post_whileLoop true Hsync).
  pose proof (post_repeatLoop true Hsync). pose proof (post_executeFor true Hsync).
  pose proof (post_executeCase true Hsync). pose proof post_evaluateExpression.
  destruct node; simpl; post_auto.
Qed.

End Expressions.

(** The methods of the interpreter that an expression can reach are in
    the relations, however deep the calls nest. *)
Lemma interp_goodExpr fuel : goodExpr (interp host fuel).
Proof.
  induction fuel as [|fuel IH].
  - split; [|split]; intros; intros st; exact I.
  - pose proof (ge_sync _ IH) as Hsync. split; [|split]; intros; cbn.
    + by apply post_evaluateExpression.
    + by apply post_executeSyncNode.
    + by apply post_whileLoop.
    + by apply post_repeatLoop.
    + by apply post_forLoop.
Qed.

(** **** The statements outside function bodies *)

Hypothesis R_fileHandles : ∀ x st, R st (setFileHandles x st).
Hypothesis R_pendingInput : ∀ x st, R st (setPendingInput x st).
Hypothesis R_output : ∀ text st, R st (setOutput (output st ++ [text]) st).
Hypothesis post_countIteration : ∀ line, post true (countIteration line).

(** A procedure call: the depth counter goes up, the parameters are
    bound, the frame is pushed, the body runs, and the frame and the counter
    are taken back. *)
Hypothesis R_procedure : ∀ st mid st' frame,
  R (setRecursionDepth (recursionDepth st + 1) st) mid →
  R (setCallStack (callStack mid ++ [frame]) mid) st' →
  R st (setRecursionDepth (recursionDepth st' - 1)
          (setCallStack (removelast (callStack st')) st')).
Hypothesis E_procedure : ∀ st mid st' frame,
  R (setRecursionDepth (recursionDepth st + 1) st) mid →
  E (setCallStack (callStack mid ++ [frame]) mid) st' →
  E st (setRecursionDepth (recursionDepth st' - 1)
          (setCallStack (removelast (callStack st')) st')).
Hypothesis E_suspended : ∀ st mid st' frame,
  R (setRecursionDepth (recursionDepth st + 1) st) mid →
  E (setCallStack (callStack mid ++ [frame]) mid) st' →
  E st st'.

#[local] Hint Resolve R_fileHandles R_pendingInput R_output post_countIteration : post.

Lemma post_yield rv text : post rv (yield text).
Proof. unfold yield. post_auto. Qed.

Lemma post_awaitInput rv : post rv awaitInput.
Proof.
  intros st. unfold awaitInput. destruct (pendingInput st); [apply R_E, R_refl |].
  apply R_pendingInput.
Qed.

Lemma post_openHandle rv filename line : post rv (openHandle filename line).
Proof. unfold openHandle. post_auto. Qed.

Lemma post_setHandle rv filename fileHandle : post rv (setHandle filename fileHandle).
Proof. unfold setHandle. post_auto. Qed.

#[local] Hint Resolve post_yield post_awaitInput post_openHandle post_setHandle : post.

Record goodAll (this : Self) : Prop := mkGoodAll {
  ga_expr : goodExpr this;
  ga_run : goodRun this false
}.

#[local] Hint Resolve ga_expr ga_run : post.

Section AllStatements.
Variable this : Self.
Hypothesis Hthis : goodAll this.

Lemma post_executeOutput rv expressions context :
  post rv (executeOutput host this expressions context).
Proof.
  unfold executeOutput.
  pose proof (post_evaluateExpression this (ga_expr this Hthis)). post_auto.
Qed.

Lemma post_executeInput rv target line context :
  post rv (executeInput host this target line context).
Proof.
  unfold executeInput.
  pose proof (post_evaluateIndices this (ga_expr this Hthis)).
  pose proof post_storeArrayElement. post_auto.
Qed.

Lemma post_evaluateFilename rv filename line context :
  post rv (evaluateFilename host this filename line context).
Proof.
  unfold evaluateFilename.
  pose proof (post_evaluateExpression this (ga_expr this Hthis)). post_auto.
Qed.

Lemma post_executeOpenFile rv filename m line context :
  post rv (executeOpenFile host this filename m line context).
Proof. unfold executeOpenFile. pose proof post_evaluateFilename. post_auto. Qed.

Lemma post_executeCloseFile rv filename line context :
  post rv (executeCloseFile host this filename line context).
Proof. unfold executeCloseFile. pose proof post_evaluateFilename. post_auto. Qed.

Lemma post_executeReadFile rv filename target line context :
  post rv (executeReadFile host this filename target line context).
Proof.
  unfold executeReadFile. pose proof post_evaluateFilename.
  pose proof (post_storeTarget this (ga_expr this Hthis)). post_auto.
Qed.

Lemma post_executeWriteFile rv filename dataExpr line context :
  post rv (executeWriteFile host this filename dataExpr line context).
Proof.
  unfold executeWriteFile. pose proof post_evaluateFilename.
  pose proof (post_evaluateExpression this (ga_expr this Hthis)). post_auto.
Qed.

(** The frame of a procedure call around the new context [prepare], the
    binding of the parameters [setup] and the body [body]. *)
Lemma post_procedure_frame {A} callLine (prepare : M A) (setup body : A → M unit) frame :
  post false prepare → (∀ a, post false (setup a)) → (∀ a, post true (body a)) →
  post true
    (enterCall callLine >>
     let* a := prepare in
     setup a >>
     modify (λ st, setCallStack (callStack st ++ [frame]) st) >>
     finally (body a)
             (λ st, setRecursionDepth (recursionDepth st - 1)
                      (setCallStack (removelast (callStack st)) st))).
Proof.
  intros Hprepare Hsetup Hbody st.
  unfold bind at 1, enterCall, bind at 1 2, get, modify.
  set (st1 := setRecursionDepth (recursionDepth st + 1) st).
  destruct (decide (recursionDepth st + 1 > MAX_RECURSION_DEPTH)).
  { unfold throw. apply E_enter, R_E, R_refl. }
  unfold ret, bind at 1. specialize (Hprepare st1).
  destruct (prepare st1) as [a st2|e st2|st2|]; [| | |done].
  - unfold bind at 1. specialize (Hsetup a st2).
    destruct (setup a st2) as [[] st3|e st3|st3|]; [| | |done].
    + assert (R st1 st3) by by apply (R_trans _ st2).
      unfold bind, finally. specialize (Hbody a (setCallStack (callStack st3 ++ [frame]) st3)).
      destruct (body a _) as [[] st4|e st4|st4|]; [| | |done].
      * by apply (R_procedure _ st3 _ frame).
      * destruct e.
        -- by apply (E_procedure _ st3 _ frame).
        -- by apply (R_procedure _ st3 _ frame).
        -- by apply (E_procedure _ st3 _ frame).
      * by apply (E_suspended _ st3 _ frame).
    + destruct e; [|done|]; by apply E_enter, (RE_trans _ st2).
    + by apply E_enter, (RE_trans _ st2).
  - destruct e; [by apply E_enter | done | by apply E_enter].
  - by apply E_enter.
Qed.

Lemma post_executeProcedure procedure args callerContext callLine :
  post true (executeProcedure this procedure args callerContext callLine).
Proof.
  unfold executeProcedure. destruct (decide _); [post_auto |].
  apply (post_procedure_frame callLine newLocalContext
           (λ localContext,
              bindParameters this (procParameters procedure) args localContext
                             callerContext callLine)
           (λ localContext,
              forEach (λ stmt, this_executeNode this stmt localContext)
                      (procBody procedure))).
  - apply post_newLocalContext.
  - intros lc. apply post_bindParameters, Hthis.
  - intros lc. apply post_forEach. intros stmt.
    apply (gr_node this false (ga_run this Hthis)).
Qed.

Lemma post_executeCall name args line context :
  post true (executeCall this name args line context).
Proof. unfold executeCall. pose proof post_executeProcedure. post_auto. Qed.

Lemma post_executeNode node context : post true (executeNode host this node context).
Proof.
  pose proof (ga_expr this Hthis) as Hexpr. pose proof (ga_run this Hthis) as Hrun.
  pose proof post_executeDeclare. pose proof (post_executeAssignment this Hexpr).
  pose proof post_executeOutput. pose proof post_executeInput.
  pose proof (post_executeIf this Hexpr false Hrun).
  pose proof (post_whileLoop this Hexpr false Hrun).
  pose proof (post_repeatLoop this Hexpr false Hrun).
  pose proof (post_executeFor this Hexpr false Hrun).
  pose proof (post_executeCase this Hexpr false Hrun).
  pose proof post_executeCall. pose proof (post_evaluateExpression this Hexpr).
  pose proof post_executeOpenFile. pose proof post_executeCloseFile.
  pose proof post_executeReadFile. pose proof post_executeWriteFile.
  unfold executeNode. apply post_bind; [apply post_countIteration | intros _].
  destruct node; post_auto.
Qed.

End AllStatements.

(** Every method of the interpreter is in the relations, however deep
    the calls nest. *)
Lemma interp_goodAll fuel : goodAll (interp host fuel).
Proof.
  induction fuel as [|fuel IH].
  - split; [apply (interp_goodExpr 0) |]. split; intros; intros st; exact I.
  - pose proof (ga_expr _ IH) as Hexpr. pose proof (ga_run _ IH) as Hrun.
    split; [apply (interp_goodExpr (S fuel)) |]. split; intros; cbn.
    + by apply post_executeNode.
    + by apply post_whileLoop.
    + by apply post_repeatLoop.
    + by apply post_forLoop.
Qed.

(** The two passes of [execute], for relations that the registration of
    a procedure or a function is in. *)
Lemma post_execute fuel ast :
  (∀ x st, R st (setProcedures x st)) → (∀ x st, R st (setFunctions x st)) →
  post true (execute host (interp host fuel) ast).
Proof.
  intros Hprocedures Hfunctions. unfold execute.
  pose proof (post_executeNode _ (interp_goodAll fuel)). post_auto.
Qed.

Lemma post_statement fuel node context :
  post true (executeNode host (interp host fuel) node context).
Proof. apply post_executeNode, interp_goodAll. Qed.

Lemma post_expression fuel expr context :
  post false (evaluateExpression host (interp host fuel) expr context).
Proof. apply post_evaluateExpression, interp_goodExpr. Qed.

End RunInvariant.

Section RunFacts.
Import JS Interp.
Variable host : Host.

(** **** What no statement changes *)

Definition keeps (st st' : Interpreter) : Prop :=
  procedures st' = procedures st ∧ functions st' = functions st ∧
  globalContext st' = globalContext st ∧
  memory st' = memory st ∧ variableAddresses st' = variableAddresses st ∧
  debugMode st' = debugMode st ∧ hasStepCallback st' = hasStepCallback st ∧
  fileWriteOutput st' = fileWriteOutput st ∧ fileUploadHandler st' = fileUploadHandler st.

Ltac keeps_tac :=
  unfold keeps; intros;
  repeat match goal with H : _ ∧ _ |- _ => destruct H end;
  cbn in *; repeat split; congruence.

Lemma keeps_countIteration line : post keeps keeps true (countIteration line).
Proof.
  intros st. unfold countIteration, bind, get, modify, throw, ret.
  destruct (decide _); [keeps_tac |].
  destruct (debugMode _ && hasStepCallback _); [|keeps_tac].
  cbn [callStack setIterationCount]. destruct (reverse (callStack st)); keeps_tac.
Qed.

Lemma keeps_statement fuel node context :
  post keeps keeps true (executeNode host (interp host fuel) node context).
Proof.
  apply post_statement; try keeps_tac. apply keeps_countIteration.
Qed.

(** No statement of a program, whatever it is and however it ends,
    changes the procedure table, the function table, the global context, the
    memory engine, the variable addresses, the debug switches or the file
    settings: statements do not define procedures, and no statement
    allocates, writes or frees arena memory. *)
Theorem statements_keep_tables fuel node context st :
  match executeNode host (interp host fuel) node context st with
  | Done _ st' | Thrown _ st' | Suspended st' => keeps st st'
  | Unfinished => True
  end.
Proof.
  pose proof (keeps_statement fuel node context st) as H.
  destruct (executeNode _ _ _ _ _) as [? ?|[]|?|]; done.
Qed.

(** **** Output and the statement counter *)

Definition grows (limit : Z) (st st' : Interpreter) : Prop :=
  output st `prefix_of` output st' ∧
  iterationCount st ≤ iterationCount st' ∧
  (iterationCount st ≤ MAX_ITERATIONS → iterationCount st' ≤ limit).

Ltac grows_tac :=
  unfold grows in *; intros;
  repeat match goal with H : _ ∧ _ |- _ => destruct H end;
  cbn in *;
  repeat split;
  first [ lia | done | by apply prefix_app_r | by etrans ].

Lemma grows_countIteration line :
  post (grows MAX_ITERATIONS) (grows (MAX_ITERATIONS + 1)) true (countIteration line).
Proof.
  intros st. unfold countIteration, bind, get, modify, throw, ret.
  destruct (decide _); [grows_tac |].
  destruct (debugMode _ && hasStepCallback _); [|grows_tac].
  cbn [callStack setIterationCount]. destruct (reverse (callStack st)); grows_tac.
Qed.

Lemma grows_program fuel ast :
  post (grows MAX_ITERATIONS) (grows (MAX_ITERATIONS + 1)) true (executeProgram host fuel ast).
Proof.
  apply post_execute; try grows_tac. apply grows_countIteration.
Qed.

(** The lines a program has output are never taken back: whatever the
    program does next and however the run ends, the output so far is a prefix
    of the output afterwards. *)
Theorem output_only_grows fuel ast st :
  match executeProgram host fuel ast st with
  | Done _ st' | Thrown _ st' | Suspended st' => output st `prefix_of` output st'
  | Unfinished => True
  end.
Proof.
  pose proof (grows_program fuel ast st) as H.
  destruct (executeProgram _ _ _ _) as [? ?|[]|?|]; try done; by destruct H.
Qed.

(** The statement counter only goes up, and the guard holds it: a run
    that starts within MAX_ITERATIONS and returns has counted at most
    MAX_ITERATIONS statements, and a run that throws or waits for input at
    most one more. *)
Theorem iteration_guard_bounds fuel ast st :
  iterationCount st ≤ MAX_ITERATIONS →
  match executeProgram host fuel ast st with
  | Done _ st' => iterationCount st ≤ iterationCount st' ≤ MAX_ITERATIONS
  | Thrown _ st' | Suspended st' =>
      iterationCount st ≤ iterationCount st' ≤ MAX_ITERATIONS + 1
  | Unfinished => True
  end.
Proof.
  intros Hst. pose proof (grows_program fuel ast st) as H.
  destruct (executeProgram _ _ _ _) as [? ?|[]|?|]; try done;
    destruct H as (_ & ? & Hlimit); specialize (Hlimit Hst); lia.
Qed.

(** **** Calls are balanced *)

Definition balanced (st st' : Interpreter) : Prop :=
  recursionDepth st' = recursionDepth st ∧
  length (callStack st') = length (callStack st).

Ltac balanced_tac :=
  unfold balanced in *; intros;
  repeat match goal with H : _ ∧ _ |- _ => destruct H end;
  cbn in *;
  repeat match goal with
         | H : context [length (_ ++ _)] |- _ => rewrite length_app in H; cbn in H
         end;
  rewrite ?removelast_firstn_len, ?length_take;
  first [ exact I | split; lia ].

Lemma balanced_countIteration line :
  post balanced (λ _ _, True) true (countIteration line).
Proof.
  intros st. unfold countIteration, bind, get, modify, throw, ret.
  destruct (decide _); [done |].
  destruct (debugMode _ && hasStepCallback _); [|balanced_tac].
  cbn [callStack setIterationCount]. destruct (reverse (callStack st)) as [|top below] eqn:Hr.
  - balanced_tac.
  - split; [done |]. cbn [callStack setCallStack]. rewrite length_reverse. cbn [length].
    by rewrite <- (length_reverse (callStack st)), Hr.
Qed.

Lemma balanced_statement fuel node context :
  post balanced (λ _ _, True) true (executeNode host (interp host fuel) node context).
Proof.
  apply post_statement; try balanced_tac. apply balanced_countIteration.
Qed.

(** A statement that completes, or that is left by a RETURN statement,
    leaves the recursion depth and the height of the call stack as it found
    them: every call that was entered has been left. *)
Theorem calls_balanced fuel node context st :
  match executeNode host (interp host fuel) node context st with
  | Done _ st' | Thrown (ReturnValue _) st' =>
      recursionDepth st' = recursionDepth st ∧
      length (callStack st') = length (callStack st)
  | _ => True
  end.
Proof.
  pose proof (balanced_statement fuel node context st) as H.
  destruct (executeNode _ _ _ _ _) as [? ?|[]|?|]; done.
Qed.

(** **** Expressions have no effect outside the variables *)

Definition untouched (st st' : Interpreter) : Prop :=
  output st' = output st ∧ pendingInput st' = pendingInput st ∧
  fileHandles st' = fileHandles st ∧ iterationCount st' = iterationCount st ∧
  callStack st' = callStack st ∧ keeps st st'.

Definition restored (st st' : Interpreter) : Prop :=
  untouched st st' ∧ recursionDepth st' = recursionDepth st.

Ltac untouched_tac :=
  unfold restored, untouched, keeps in *; intros;
  repeat match goal with H : _ ∧ _ |- _ => destruct H end;
  cbn in *; repeat split; first [ congruence | lia ].

Lemma untouched_expression fuel expr context :
  post restored untouched false (evaluateExpression host (interp host fuel) expr context).
Proof. apply post_expression; untouched_tac. Qed.

(** The evaluation of an expression, the calls of user-defined functions
    in it included, outputs nothing, consumes no input, touches no file, is
    not counted by the statement counter and leaves the call stack and the
    tables as they are; when it returns the recursion depth is as before;
    and it is never left by a RETURN statement.  What it can change is
    the variables and arrays that function bodies assign. *)
Theorem expressions_leave_io_untouched fuel expr context st :
  match evaluateExpression host (interp host fuel) expr context st with
  | Done _ st' => untouched st st' ∧ recursionDepth st' = recursionDepth st
  | Thrown e st' => untouched st st' ∧ ∀ v, e ≠ ReturnValue v
  | Suspended st' => untouched st st'
  | Unfinished => True
  end.
Proof.
  pose proof (untouched_expression fuel expr context st) as H.
  destruct (evaluateExpression _ _ _ _ _) as [? ?|[]|?|]; done.
Qed.

End RunFacts.

(** *** Loops and the iteration guard *)

Section LoopFacts.
Import JS Interp.
Local Open Scope interp_scope.
Variable host : Host.

(** A loop whose condition is the literal TRUE and whose body is empty
    never ends: the statement counter counts statements, and the loop
    executes none.  The same holds for REPEAT with an empty body UNTIL
    FALSE.  No number of nested calls and loop turns is enough. *)
Theorem empty_loop_diverges fuel sync ty l line context st :
  whileLoop host (interp host fuel) sync (Literal (VBoolean true) ty l) [] line context st
  = Unfinished ∧
  repeatLoop host (interp host fuel) sync [] (Literal (VBoolean false) ty l) line context st
  = Unfinished.
Proof.
  induction fuel as [|fuel [IHw IHr]]; split; try done.
Qed.

(** When the budget ends inside a run of OUTPUT statements. *)
Lemma outputs_timeout fuel l context n rest st k :
  iterationCount st + Z.of_nat k = MAX_ITERATIONS → (k < n)%nat →
  forEach (λ stmt, executeNode host (interp host fuel) stmt context)
          (repeat (Output [] l) n ++ rest) st
  = Thrown (RuntimeError "Execution timeout: Possible infinite loop" l)
           (setIterationCount (MAX_ITERATIONS + 1) (Nat.iter k (afterOutput l) st)).
Proof.
  intros Hk Hn.
  replace n with (k + S (n - S k))%nat by lia.
  rewrite repeat_app, <- app_assoc, outputs_run by lia.
  destruct (afterOutputs_fields l k st) as (Hi & _).
  cbn [repeat app forEach]. unfold bind at 1, executeNode at 1. cbn [nodeLine].
  unfold bind at 1. rewrite countIteration_timeout by lia.
  by rewrite Hi, Hk.
Qed.

(** The iteration guard ends a loop that would go on for ever at exactly
    its budget: WHILE TRUE around one or more OUTPUT statements, started
    when [k] statements are left of the budget MAX_ITERATIONS, outputs
    exactly [k] lines and then throws "Execution timeout: Possible
    infinite loop", in the middle of the body if need be. *)
Theorem while_true_stops_at_budget n l ty lc line context k : ∀ fuel st,
  iterationCount st + Z.of_nat k = MAX_ITERATIONS → (k < fuel)%nat →
  ∃ st',
    whileLoop host (interp host fuel) false (Literal (VBoolean true) ty lc)
              (repeat (Output [] l) (S n)) line context st
    = Thrown (RuntimeError "Execution timeout: Possible infinite loop" l) st' ∧
    output st' = output st ++ repeat "" k ∧
    iterationCount st' = MAX_ITERATIONS + 1.
Proof.
  induction k as [k IH] using lt_wf_ind. intros fuel st Hk Hfuel.
  destruct fuel as [|fuel]; [lia |].
  unfold whileLoop, evaluateExpression, expectBoolean, bind at 1 2, ret.
  unfold runBlock, runNode. cbn [interp this_executeNode this_whileLoop].
  rewrite <- (app_nil_r (repeat _ _)).
  destruct (decide (k < S n)%nat) as [Hlt|Hge].
  - unfold bind at 1. rewrite (outputs_timeout _ _ _ _ _ _ k) by done.
    destruct (afterOutputs_fields l k st) as (_ & Ho & _).
    eexists. split; [reflexivity |]. by split.
  - unfold bind at 1. rewrite outputs_run by lia. cbn [forEach ret].
    destruct (afterOutputs_fields l (S n) st) as (Hi & Ho & _).
    destruct (IH (k - S n)%nat ltac:(lia) fuel (Nat.iter (S n) (afterOutput l) st))
      as (st' & Hrun & Hout & Hcount); [lia | lia |].
    exists st'. split; [by rewrite app_nil_r |]. split; [|done].
    rewrite Hout, Ho, <- app_assoc, <- repeat_app. f_equal. f_equal. lia.
Qed.


(** The body [OUTPUT variable] when the budget is used up. *)
Lemma observe_timeout fuel variable l1 l2 context st :
  iterationCount st = MAX_ITERATIONS →
  runBlock (interp host (S fuel)) false (observe variable l1 l2) context st
  = Thrown (RuntimeError "Execution timeout: Possible infinite loop" l2)
           (setIterationCount (MAX_ITERATIONS + 1) st).
Proof.
  intros Hcount. unfold runBlock, observe, forEach, runNode. cbn [interp this_executeNode].
  unfold executeNode. cbn [nodeLine]. unfold bind at 1 2.
  rewrite countIteration_timeout by lia. by rewrite Hcount.
Qed.

(** A FOR loop whose step floors to 0 and whose test holds: the variable
    stays where it is until the budget ends. *)
Lemma forLoop_stuck (up : bool) variable l1 l2 context ref end_ t ty dims et v k :
  JS.floor t = ofZ 0 → continues up end_ v = true →
  ∀ fuel st,
    (k < fuel)%nat →
    getVariable variable context st = Some ref →
    variableHeap st !! ref = Some (mkVariable ty (VNumber (ofZ v)) dims et true) →
    iterationCount st + Z.of_nat k = MAX_ITERATIONS →
    ∃ st',
      forLoop host (interp host fuel) false up ref end_ t (observe variable l1 l2) context st
      = Thrown (RuntimeError "Execution timeout: Possible infinite loop" l2) st' ∧
      output st' = output st ++ repeat (numberToString host (ofZ v)) k ∧
      variableHeap st' = variableHeap st.
Proof.
  intros Hfloor Hnow.
  induction k as [|k IH]; intros fuel st Hfuel Hget Hvar Hbudget;
    (destruct fuel as [|fuel]; [lia |]);
    unfold forLoop at 1; unfold bind at 1, readVariable at 1; rewrite Hvar;
    cbn [value toNumber]; unfold continues in Hnow;
    replace (if up then JS.leb (ofZ v) end_ else JS.geb (ofZ v) end_) with true
      by (by destruct up);
    unfold bind at 1.
  - rewrite observe_timeout by (simpl in Hbudget; lia).
    eexists. split; [reflexivity |]. simpl. by rewrite app_nil_r.
  - rewrite (observe_runs host fuel variable l1 l2 context st ref _ Hget Hvar eq_refl)
      by lia.
    cbn [value valueToString].
    set (st1 := setOutput (output st ++ [numberToString host (ofZ v)]) (afterCount l2 st)).
    destruct (afterCount_fields l2 st) as (Hv & Hc & Ho & Hi & _).
    unfold bind at 1, advance, modify.
    assert (Hheap1 : variableHeap st1 = variableHeap st) by (by subst st1).
    assert (Hadv : alter (λ r, mkVariable (type r) (jsPlus host (value r) (JS.floor t))
                                  (dimensions r) (elementType r) (initialized r))
                         ref (variableHeap st1) = variableHeap st).
    { rewrite Hheap1. apply map_eq. intros i. destruct (decide (i = ref)) as [->|Hne].
      - rewrite lookup_alter_eq, Hvar.
        cbn [fmap option_fmap option_map type value dimensions elementType
             initialized jsPlus toNumber].
        by rewrite Hfloor, add_ofZ, Z.add_0_r.
      - by rewrite lookup_alter_ne. }
    rewrite Hadv. cbn [interp this_forLoop].
    destruct (IH fuel (setVariableHeap (variableHeap st) st1))
      as (st' & Hrun & Hout & Hheap); [lia | | done | |].
    + rewrite (getVariable_contexts _ _ st); [done | by subst st1].
    + subst st1. simpl. lia.
    + exists st'. split; [exact Hrun |]. split; [|by rewrite Hheap].
      rewrite Hout. subst st1. simpl. by rewrite <- app_assoc.
Qed.

Lemma Qfloor_fraction q : (0 < q)%Q → (q < 1)%Q → Qfloor q = 0.
Proof.
  intros H0 H1.
  pose proof (Qfloor_le q) as Hle. pose proof (Qlt_floor q) as Hlt.
  assert (Qfloor q < 1).
  { rewrite Zlt_Qlt. eapply Qle_lt_trans; [exact Hle | exact H1]. }
  assert (0 < Qfloor q + 1).
  { rewrite Zlt_Qlt. eapply Qlt_trans; [exact H0 | exact Hlt]. }
  lia.
Qed.

(** A step between 0 and 1 is floored to 0, and zero is what the loop
    variable then moves by: FOR over a declared variable with a start that
    passes the loop test and such a step outputs the same value again and
    again and ends only with "Execution timeout: Possible infinite loop",
    after as many lines as the budget had statements left. *)
Theorem fractional_step_never_advances
    fuel variable context st ref record qs qe qt tys tye tyt ls le lt l1 l2 line k :
  getVariable variable context st = Some ref →
  variableHeap st !! ref = Some record →
  (0 < qt)%Q → (qt < 1)%Q →
  (inject_Z (Qfloor qs) <= qe)%Q →
  iterationCount st + Z.of_nat k = MAX_ITERATIONS →
  (k < fuel)%nat →
  ∃ st',
    executeFor host (interp host fuel) false variable
               (Literal (VNumber (Fin qs)) tys ls) (Literal (VNumber (Fin qe)) tye le)
               (Literal (VNumber (Fin qt)) tyt lt) (observe variable l1 l2) line context st
    = Thrown (RuntimeError "Execution timeout: Possible infinite loop" l2) st' ∧
    output st' = output st ++ repeat (numberToString host (ofZ (Qfloor qs))) k ∧
    variableHeap st' !! ref
    = Some (mkVariable (type record) (VNumber (ofZ (Qfloor qs)))
                       (dimensions record) (elementType record) true).
Proof.
  intros Hget Hvar Hpos Hone Hstart Hbudget Hfuel.
  assert (Hzero : JS.isZero (Fin qt) = false).
  { unfold JS.isZero, JS.eqb, ofZ. apply not_true_is_false. intros H%Qeq_bool_iff.
    rewrite H in Hpos. by apply Qlt_irrefl in Hpos. }
  assert (Hup : JS.gtb (Fin qt) (ofZ 0) = true).
  { unfold JS.gtb, JS.ltb, ofZ, Qltb. apply negb_true_iff, not_true_is_false.
    intros H%Qle_bool_iff. by apply Qle_not_lt in H. }
  set (st1 := setVariableHeap
                (<[ref := mkVariable (type record) (VNumber (ofZ (Qfloor qs)))
                                     (dimensions record) (elementType record) true]>
                   (variableHeap st)) st).
  destruct (forLoop_stuck true variable l1 l2 context ref (Fin qe) (Fin qt) (type record)
              (dimensions record) (elementType record) (Qfloor qs) k) with (fuel := fuel)
              (st := st1) as (st' & Hrun & Hout & Hheap); try done.
  { unfold JS.floor. by rewrite Qfloor_fraction. }
  { unfold continues, JS.leb, ofZ. by apply Qle_bool_iff. }
  { subst st1. simpl. apply lookup_insert_eq. }
  exists st'. split; [|split].
  - rewrite (executeFor_literals _ _ _ _ _ _ _ _ _ _ _ _ _ _ _ _ _ ref) by done.
    rewrite Hzero, Hup.
    match goal with
    | |- forLoop _ _ _ _ _ _ _ _ _ ?s = _ => replace s with st1; [exact Hrun |]
    end.
    subst st1. f_equal. apply map_eq. intros i.
    destruct (decide (i = ref)) as [->|Hne].
    + by rewrite lookup_alter_eq, lookup_insert_eq, Hvar.
    + by rewrite lookup_alter_ne, lookup_insert_ne.
  - exact Hout.
  - rewrite Hheap. subst st1. simpl. apply lookup_insert_eq.
Qed.



End LoopFacts.

(** *** Files *)

Section FileFacts.
Import JS Interp.
Local Open Scope interp_scope.
Variable host : Host.

Lemma evaluateFilename_literal this f ty l line context st :
  f ≠ "" →
  evaluateFilename host this (Literal (VString f) ty l) line context st = Done f st.
Proof.
  intros Hf. unfold evaluateFilename, evaluateExpression, bind, ret. cbn [valueToString].
  by apply String.eqb_neq in Hf as ->.
Qed.

(** CLOSEFILE of a file that was opened for WRITE or APPEND reports the
    lines written and keeps the handle, so that the name stays taken: every
    later OPENFILE of it, in whatever mode, APPEND included, throws "File
    .. is already open".  CLOSEFILE of a file opened for READ drops the
    handle. *)
Theorem close_keeps_written_files this f h ty1 l1 ty2 l2 line line' context st :
  f ≠ "" →
  fileHandles st !! f = Some h →
  ∃ st1,
    executeCloseFile host this (Literal (VString f) ty1 l1) line context st = Done tt st1 ∧
    match mode h with
    | READ =>
        fileHandles st1 = delete f (fileHandles st) ∧
        output st1 = output st ++ ["Closed file '" +:+ f +:+ "'"]
    | _ =>
        fileHandles st1 = fileHandles st ∧
        output st1
        = output st ++ ["Closed file '" +:+ f +:+ "' ("
                        +:+ numberToString host (ofZ (Z.of_nat (length (data h))))
                        +:+ " lines written)"] ∧
        ∀ m, executeOpenFile host this (Literal (VString f) ty2 l2) m line' context st1
             = Thrown (RuntimeError ("File '" +:+ f +:+ "' is already open") line') st1
    end.
Proof.
  intros Hf Hh. unfold executeCloseFile. unfold bind at 1.
  rewrite evaluateFilename_literal by done.
  unfold bind at 1, openHandle, bind at 1, get. rewrite Hh. unfold ret.
  destruct (mode h) eqn:Hmode.
  - eexists. split; [reflexivity |]. by split.
  - eexists. split; [reflexivity |]. split; [done |]. split; [done |].
    intros m. unfold executeOpenFile. unfold bind at 1.
    rewrite evaluateFilename_literal by done. unfold bind, get, yield, modify. simpl.
    by rewrite Hh.
  - eexists. split; [reflexivity |]. split; [done |]. split; [done |].
    intros m. unfold executeOpenFile. unfold bind at 1.
    rewrite evaluateFilename_literal by done. unfold bind, get, yield, modify. simpl.
    by rewrite Hh.
Qed.

(** The call [EOF(f)] on a file open for reading. *)
Definition eofCall (f : string) (l : Z) : ExpressionNode :=
  FunctionCall "EOF" [Literal (VString f) STRING l] l.

Lemma eofCall_read fuel f l context st h :
  f ≠ "" →
  fileHandles st !! f = Some h →
  mode h = READ →
  evaluateExpression host (interp host (S fuel)) (eofCall f l) context st
  = Done (VBoolean (Nat.leb (length (data h)) (position h))) st.
Proof.
  intros Hf Hh Hm. unfold eofCall, evaluateExpression, evaluateFunctionCall.
  unfold bind at 1. unfold evaluateBuiltInFunction.
  repeat match goal with
         | |- context [String.eqb ?a ?b] =>
             let v := eval vm_compute in (String.eqb a b) in
             change (String.eqb a b) with v
         end.
  cbv iota. rewrite decide_True by done.
  cbn [lookup list_lookup interp this_evaluateExpression evaluateExpression].
  unfold bind at 1, ret. cbn [valueToString].
  apply String.eqb_neq in Hf as ->. unfold bind, get. by rewrite Hh, Hm.
Qed.

Lemma splitLines_length current s : (1 ≤ length (splitLines current s))%nat.
Proof.
  revert current. induction s as [|c s IH]; intros current; simpl; [lia |].
  destruct (Ascii.eqb c "010"); simpl; [lia | apply IH].
Qed.

Lemma executeOpenFile_read this f upload ty l line context st :
  f ≠ "" →
  fileHandles st !! f = None →
  fileUploadHandler st = Some upload →
  executeOpenFile host this (Literal (VString f) ty l) READ line context st
  = Done tt (setOutput (output st ++ ["Opened file '" +:+ f +:+ "' in READ mode"])
               (setFileHandles (<[f := mkFileHandle READ (splitLines "" (upload f)) 0]>
                                  (fileHandles st)) st)).
Proof.
  intros Hf Hh Hu. unfold executeOpenFile. unfold bind at 1.
  rewrite evaluateFilename_literal by done.
  unfold bind, get, setHandle, yield, modify, ret. by rewrite Hh, Hu.
Qed.

(** OPENFILE .. FOR READ where no file of the name is open: the lines are
    the text the upload handler gives, cut at the newlines, and they are at
    least one, so that [EOF] is FALSE right after the file is opened,
    whatever the file holds, an empty file included. *)
Theorem opened_file_not_at_eof fuel f upload ty l line l' context st :
  f ≠ "" →
  fileHandles st !! f = None →
  fileUploadHandler st = Some upload →
  ∃ st1,
    executeOpenFile host (interp host (S fuel)) (Literal (VString f) ty l) READ line context st
    = Done tt st1 ∧
    fileHandles st1
    = <[f := mkFileHandle READ (splitLines "" (upload f)) 0]> (fileHandles st) ∧
    output st1 = output st ++ ["Opened file '" +:+ f +:+ "' in READ mode"] ∧
    evaluateExpression host (interp host (S fuel)) (eofCall f l') context st1
    = Done (VBoolean false) st1.
Proof.
  intros Hf Hh Hu. rewrite (executeOpenFile_read _ _ upload) by done.
  eexists. split; [reflexivity |]. split; [done |]. split; [done |].
  erewrite eofCall_read; [| done | apply lookup_insert_eq | done].
  cbn [data position]. pose proof (splitLines_length "" (upload f)).
  destruct (length (splitLines "" (upload f))); [lia | done].
Qed.

(** No newline in the text. *)
Fixpoint noNewline (s : string) : bool :=
  match s with
  | EmptyString => true
  | String c s' => negb (Ascii.eqb c "010") && noNewline s'
  end.

Lemma append_assoc (a b c : string) : (a +:+ b) +:+ c = a +:+ b +:+ c.
Proof.
  induction a as [|x a IH]; [done |].
  change (String x ((a +:+ b) +:+ c) = String x (a +:+ b +:+ c)). by f_equal.
Qed.

Lemma append_nil_r (a : string) : a +:+ "" = a.
Proof.
  induction a as [|x a IH]; [done |]. change (String x (a +:+ "") = String x a).
  by f_equal.
Qed.

Lemma splitLines_line line : ∀ current rest,
  noNewline line →
  splitLines current (line +:+ rest) = splitLines (current +:+ line) rest.
Proof.
  induction line as [|c line IH]; intros current rest Hline.
  - by rewrite append_nil_r.
  - change (String c line +:+ rest) with (String c (line +:+ rest)).
    cbn [splitLines]. cbn [noNewline] in Hline.
    apply andb_prop_elim in Hline as [Hc Hline].
    destruct (Ascii.eqb c "010"); [done |].
    rewrite IH by done. by rewrite append_assoc.
Qed.

Lemma splitLines_joinLines line lines :
  Forall noNewline (line :: lines) →
  splitLines "" (joinLines (line :: lines)) = line :: lines.
Proof.
  revert line. induction lines as [|line' lines IH]; intros line Hlines.
  - apply Forall_inv in Hlines. cbn [joinLines].
    rewrite <- (append_nil_r line) at 1. by rewrite splitLines_line.
  - change (joinLines (line :: line' :: lines))
      with (line +:+ String "010" (joinLines (line' :: lines))).
    rewrite splitLines_line by by apply Forall_inv in Hlines.
    cbn [splitLines Ascii.eqb Bool.eqb]. cbv iota. f_equal.
    apply IH. by apply Forall_inv_tail in Hlines.
Qed.

(** What was written is what is read back: when the text of a file, as
    [getFileContent] gives it, is the text the upload handler gives for the
    name, OPENFILE .. FOR READ cuts it into the lines that were written,
    provided none of them holds a newline.  The one exception is a file
    without lines, which is read back as one empty line. *)
Theorem written_lines_read_back this f upload ty l line context st st0 h0 :
  f ≠ "" →
  fileHandles st !! f = None →
  fileUploadHandler st = Some upload →
  fileHandles st0 !! f = Some h0 →
  Forall noNewline (data h0) →
  getFileContent f st0 = Some (upload f) →
  ∃ st1,
    executeOpenFile host this (Literal (VString f) ty l) READ line context st = Done tt st1 ∧
    fileHandles st1 !! f
    = Some (mkFileHandle READ (match data h0 with [] => [""] | _ => data h0 end) 0).
Proof.
  intros Hf Hh Hu Hh0 Hlines Hcontent.
  rewrite (executeOpenFile_read _ _ upload) by done.
  eexists. split; [reflexivity |]. cbn [fileHandles setOutput setFileHandles].
  rewrite lookup_insert_eq. do 2 f_equal.
  unfold getFileContent in Hcontent. rewrite Hh0 in Hcontent. simpl in Hcontent.
  injection Hcontent as <-.
  destruct (data h0) as [|line0 lines]; [done |]. by apply splitLines_joinLines.
Qed.

(** The statements [WRITEFILE f, v] for the values [vs], in this order. *)
Definition writeAll (f : string) (vs : list any) (l : Z) : list ASTNode :=
  (λ v, WriteFile (Literal (VString f) STRING l) (Literal v STRING l) l) <$> vs.

Lemma afterCount_files line st :
  fileHandles (afterCount line st) = fileHandles st ∧
  fileWriteOutput (afterCount line st) = fileWriteOutput st ∧
  fileUploadHandler (afterCount line st) = fileUploadHandler st.
Proof.
  unfold afterCount. destruct (debugMode st && hasStepCallback st); [|done].
  simpl. by destruct (reverse (callStack st)).
Qed.

(** WRITEFILE appends: the values written, as OUTPUT would print them, come
    after the lines the file held, in the order of the statements, the
    position moves on by one for each, and each write is echoed when
    [fileWriteOutput] is set.  [getFileContent] then gives all the lines,
    joined by newlines. *)
Theorem writes_append_in_order fuel f l context vs : ∀ st h,
  f ≠ "" →
  fileHandles st !! f = Some h →
  mode h ≠ READ →
  iterationCount st + Z.of_nat (length vs) ≤ MAX_ITERATIONS →
  ∃ st',
    forEach (λ stmt, executeNode host (interp host fuel) stmt context) (writeAll f vs l) st
    = Done tt st' ∧
    fileHandles st'
    = <[f := mkFileHandle (mode h) (data h ++ (valueToString host <$> vs))
                          (position h + length vs)]> (fileHandles st) ∧
    output st'
    = output st ++ (if fileWriteOutput st
                    then (λ v, "[Write to " +:+ f +:+ "] " +:+ valueToString host v) <$> vs
                    else []) ∧
    getFileContent f st' = Some (joinLines (data h ++ (valueToString host <$> vs))).
Proof.
  induction vs as [|v vs IH]; intros st h Hf Hh Hm Hbudget.
  - exists st. simpl. rewrite app_nil_r, Nat.add_0_r.
    replace (mkFileHandle (mode h) (data h) (position h)) with h by by destruct h.
    rewrite insert_id by done. unfold getFileContent. rewrite Hh.
    repeat split; try done. by destruct (fileWriteOutput st); rewrite app_nil_r.
  - destruct (afterCount_fields l st) as (_ & _ & Ho & Hi & _).
    destruct (afterCount_files l st) as (Hfh & Hfw & _).
    simpl in Hbudget.
    set (h1 := mkFileHandle (mode h) (data h ++ [valueToString host v]) (S (position h))).
    set (st1 := setFileHandles (<[f := h1]> (fileHandles st)) (afterCount l st)).
    set (st2 := if fileWriteOutput st
                then setOutput (output st1 ++ ["[Write to " +:+ f +:+ "] "
                                               +:+ valueToString host v]) st1
                else st1).
    assert (Hfw2 : fileWriteOutput st2 = fileWriteOutput st).
    { subst st2 st1. by destruct (fileWriteOutput st) eqn:E; simpl; rewrite Hfw. }
    assert (Hfh2 : fileHandles st2 = <[f := h1]> (fileHandles st)).
    { subst st2 st1. by destruct (fileWriteOutput st). }
    assert (Hi2 : iterationCount st2 = iterationCount st + 1).
    { subst st2 st1. by destruct (fileWriteOutput st). }
    assert (Ho2 : output st2
                  = output st ++ (if fileWriteOutput st
                                  then ["[Write to " +:+ f +:+ "] " +:+ valueToString host v]
                                  else [])).
    { subst st2 st1. destruct (fileWriteOutput st); simpl; rewrite Ho; [done |].
      by rewrite app_nil_r. }
    destruct (IH st2 h1) as (st' & Hrun & Hfiles & Hout & Hcontent).
    + done.
    + rewrite Hfh2. apply lookup_insert_eq.
    + by subst h1.
    + rewrite Hi2. lia.
    + exists st'. split; [|split; [|split]].
      * cbn [writeAll fmap list_fmap forEach]. unfold bind at 1, executeNode at 1.
        cbn [nodeLine]. unfold bind at 1. rewrite countIteration_ok by lia.
        unfold executeWriteFile. unfold bind at 1.
        rewrite evaluateFilename_literal by done.
        unfold bind at 1, openHandle at 1, bind at 1, get at 1. rewrite Hfh, Hh.
        unfold ret at 1.
        cbv beta iota.
        assert (Hrest :
          (let* _ :=
             (let* dataValue := evaluateExpression host (interp host fuel)
                                  (Literal v STRING l) context in
              let dataString := valueToString host dataValue in
              let* fileHandle := openHandle f l in
              setHandle f (mkFileHandle (mode fileHandle) (data fileHandle ++ [dataString])
                                        (S (position fileHandle))) >>
              let* st := get in
              if fileWriteOutput st
              then yield ("[Write to " +:+ f +:+ "] " +:+ dataString)
              else ret tt) in
           forEach (λ stmt, executeNode host (interp host fuel) stmt context)
                   (writeAll f vs l)) (afterCount l st) = Done tt st').
        { unfold evaluateExpression, openHandle, setHandle, yield, bind, ret, get, modify.
          rewrite Hfh, Hh. cbv beta iota. cbn [mode data position]. fold h1.
          rewrite ?Hfh. fold st1.
          change (fileWriteOutput st1) with (fileWriteOutput (afterCount l st)).
          rewrite Hfw. rewrite <- Hrun. subst st2. by destruct (fileWriteOutput st). }
        destruct (mode h); [done | |]; exact Hrest.
      * rewrite Hfiles, Hfh2. subst h1. cbn [mode data position].
        rewrite insert_insert_eq. cbn [fmap list_fmap length].
        by rewrite <- app_assoc, Nat.add_succ_r.
      * rewrite Hout, Ho2, Hfw2. destruct (fileWriteOutput st); [|by rewrite !app_nil_r].
        by rewrite <- app_assoc.
      * rewrite Hcontent. subst h1. cbn [data fmap list_fmap]. by rewrite <- app_assoc.
Qed.


(** The statement [READFILE f, x], [n] times. *)
Definition readAll (f x : string) (n : nat) (l : Z) : list ASTNode :=
  replicate n (ReadFile (Literal (VString f) STRING l) (Identifier x l) l).

(** The record of a variable after the lines [texts] were read into it. *)
Definition readInto (record : VariableRecord) (texts : list string) : VariableRecord :=
  foldl (λ r text, mkVariable (type r) (convertInput host (type r) text)
                              (dimensions r) (elementType r) true) record texts.

Lemma reads_run fuel f x l context r n : ∀ st h record,
  f ≠ "" →
  fileHandles st !! f = Some h →
  mode h = READ →
  getVariable x context st = Some r →
  variableHeap st !! r = Some record →
  (position h + n ≤ length (data h))%nat →
  iterationCount st + Z.of_nat n ≤ MAX_ITERATIONS →
  ∃ st',
    forEach (λ stmt, executeNode host (interp host fuel) stmt context) (readAll f x n l) st
    = Done tt st' ∧
    fileHandles st' = <[f := mkFileHandle READ (data h) (position h + n)]> (fileHandles st) ∧
    output st' = output st ++ take n (drop (position h) (data h)) ∧
    variableHeap st'
    = <[r := readInto record (take n (drop (position h) (data h)))]> (variableHeap st).
Proof.
  induction n as [|n IH]; intros st h record Hf Hh Hm Hget Hvar Hpos Hbudget.
  - exists st. simpl. rewrite Nat.add_0_r, app_nil_r.
    replace (mkFileHandle READ (data h) (position h)) with h
      by (destruct h; simpl in *; by subst).
    rewrite !insert_id by done. by repeat split.
  - destruct (afterCount_fields l st) as (Hv & Hc & Ho & Hi & _).
    destruct (afterCount_files l st) as (Hfh & _ & _).
    destruct (lookup_lt_is_Some_2 (data h) (position h)) as [text Htext]; [lia |].
    set (h1 := mkFileHandle READ (data h) (S (position h))).
    set (record1 := mkVariable (type record) (convertInput host (type record) text)
                               (dimensions record) (elementType record) true).
    set (st1 := setOutput (output st ++ [text])
                  (setVariableHeap (<[r := record1]> (variableHeap st))
                     (setFileHandles (<[f := h1]> (fileHandles st)) (afterCount l st)))).
    destruct (IH st1 h1 record1) as (st' & Hrun & Hfiles & Hout & Hheap).
    + done.
    + subst st1. simpl. apply lookup_insert_eq.
    + done.
    + rewrite (getVariable_contexts _ _ st); [done | by subst st1].
    + subst st1. simpl. apply lookup_insert_eq.
    + subst h1. simpl. lia.
    + subst st1. simpl. rewrite Hi. lia.
    + exists st'. split; [|split; [|split]].
      * cbn [readAll replicate forEach]. unfold bind at 1, executeNode at 1.
        cbn [nodeLine]. unfold bind at 1. rewrite countIteration_ok by lia.
        unfold executeReadFile. unfold bind at 1.
        rewrite evaluateFilename_literal by done.
        unfold bind at 1, openHandle at 1, bind at 1, get at 1. rewrite Hfh, Hh.
        unfold ret at 1. cbv beta iota. rewrite Hm, Htext.
        unfold setHandle, storeTarget, yield, assignVariable, readVariable,
          bind, get, modify.
        cbv beta iota. cbn [variableHeap setFileHandles].
        rewrite (getVariable_contexts _ _ st) by (simpl; exact Hc).
        rewrite Hget. cbn [variableHeap setFileHandles]. rewrite Hv, Hvar. cbv beta iota.
        rewrite <- Hrun. f_equal. subst st1. cbn [output setVariableHeap setFileHandles].
        rewrite Ho, Hfh. fold h1. f_equal. f_equal. cbn [variableHeap setFileHandles].
        rewrite Hv. apply map_eq. intros i.
        destruct (decide (i = r)) as [->|Hne].
        -- by rewrite lookup_alter_eq, lookup_insert_eq, Hvar.
        -- by rewrite lookup_alter_ne, lookup_insert_ne.
      * rewrite Hfiles. subst st1 h1. simpl. by rewrite insert_insert_eq, Nat.add_succ_r.
      * rewrite Hout. subst st1 h1. simpl. rewrite (drop_S _ _ _ Htext). simpl.
        by rewrite <- app_assoc.
      * rewrite Hheap. subst st1 h1. simpl. rewrite (drop_S _ _ _ Htext). simpl.
        by rewrite insert_insert_eq.
Qed.

(** READFILE reads the lines in order: [n] statements [READFILE f, x], when
    at least [n] lines are left, output the next [n] lines and move the
    position on by [n]; the variable holds the last of them, converted to
    its declared type.  [EOF(f)] is then TRUE exactly when the position has
    reached the number of lines, and there every further READFILE throws
    "Attempt to read past end of file", whatever its target. *)
Theorem reads_in_order fuel f x l context r n st h record :
  f ≠ "" →
  fileHandles st !! f = Some h →
  mode h = READ →
  getVariable x context st = Some r →
  variableHeap st !! r = Some record →
  (position h + n ≤ length (data h))%nat →
  iterationCount st + Z.of_nat n ≤ MAX_ITERATIONS →
  ∃ st',
    forEach (λ stmt, executeNode host (interp host fuel) stmt context) (readAll f x n l) st
    = Done tt st' ∧
    fileHandles st' = <[f := mkFileHandle READ (data h) (position h + n)]> (fileHandles st) ∧
    output st' = output st ++ take n (drop (position h) (data h)) ∧
    variableHeap st'
    = <[r := readInto record (take n (drop (position h) (data h)))]> (variableHeap st) ∧
    evaluateExpression host (interp host (S fuel)) (eofCall f l) context st'
    = Done (VBoolean (bool_decide (position h + n = length (data h))%nat)) st' ∧
    ((position h + n = length (data h))%nat →
     ∀ target,
       executeReadFile host (interp host fuel) (Literal (VString f) STRING l) target l
                       context st'
       = Thrown (RuntimeError ("Attempt to read past end of file '" +:+ f +:+ "'") l) st').
Proof.
  intros Hf Hh Hm Hget Hvar Hpos Hbudget.
  destruct (reads_run fuel f x l context r n st h record) as (st' & Hrun & Hfiles & Hout & Hheap);
    try done.
  exists st'. repeat (split; [done |]).
  assert (Hh' : fileHandles st' !! f = Some (mkFileHandle READ (data h) (position h + n))).
  { rewrite Hfiles. apply lookup_insert_eq. }
  split.
  - erewrite eofCall_read; [| done | exact Hh' | done]. cbn [data position].
    do 2 f_equal. case_bool_decide as Hd.
    + apply Nat.leb_le. lia.
    + apply Nat.leb_gt. lia.
  - intros Hend target. unfold executeReadFile. unfold bind at 1.
    rewrite evaluateFilename_literal by done.
    unfold bind at 1, openHandle, bind at 1, get. rewrite Hh'. unfold ret.
    cbn [mode data position]. by rewrite Hend, lookup_ge_None_2.
Qed.

End FileFacts.

(** *** The two passes of [execute] *)

Section ProgramFacts.
Import JS Interp.
Local Open Scope interp_scope.
Variable host : Host.

(** The first loop of [execute], as a function of the state. *)
Definition registerAll (ast : list ASTNode) (st : Interpreter) : Interpreter :=
  foldl (λ st node,
           match node with
           | Procedure name parameters body _ =>
               setProcedures (<[name := mkProcedure name parameters body]> (procedures st)) st
           | Function name parameters returnType body _ =>
               setFunctions (<[name := mkFunction name parameters returnType body]>
                               (functions st)) st
           | _ => st
           end) st ast.

(** The procedures and the functions a program defines, in the order of the
    text. *)
Definition definedProcedures (ast : list ASTNode) : list ProcedureNode :=
  omap (λ node, match node with
                | Procedure name parameters body _ => Some (mkProcedure name parameters body)
                | _ => None
                end) ast.

Definition definedFunctions (ast : list ASTNode) : list FunctionNode :=
  omap (λ node, match node with
                | Function name parameters returnType body _ =>
                    Some (mkFunction name parameters returnType body)
                | _ => None
                end) ast.

(** The table after the definitions [defs] were entered under their names:
    the last definition of a name, or else what the table held. *)
Definition entered {A} (nameOf : A → string) (defs : list A) (table : gmap string A)
           (name : string) : option A :=
  match last (filter (λ d, nameOf d = name) defs) with
  | Some d => Some d
  | None => table !! name
  end.

Lemma lookup_entered {A} (nameOf : A → string) defs : ∀ table name,
  foldl (λ t d, <[nameOf d := d]> t) table defs !! name = entered nameOf defs table name.
Proof.
  induction defs as [|d defs IH] using rev_ind; intros table name; [done |].
  rewrite foldl_app. cbn [foldl]. unfold entered. rewrite filter_app.
  destruct (decide (nameOf d = name)) as [<-|Hne].
  - rewrite lookup_insert_eq. rewrite filter_cons_True by done.
    rewrite filter_nil. by rewrite last_snoc.
  - rewrite lookup_insert_ne by done. rewrite filter_cons_False by done.
    rewrite filter_nil, app_nil_r. apply IH.
Qed.

Lemma registerAll_tables ast : ∀ st,
  procedures (registerAll ast st)
  = foldl (λ t d, <[procName d := d]> t) (procedures st) (definedProcedures ast) ∧
  functions (registerAll ast st)
  = foldl (λ t d, <[funcName d := d]> t) (functions st) (definedFunctions ast).
Proof.
  induction ast as [|node ast IH]; intros st; [done |].
  unfold registerAll, definedProcedures, definedFunctions. cbn [foldl omap list_omap].
  destruct node;
    first [ exact (IH st) | exact (IH (setProcedures _ st)) | exact (IH (setFunctions _ st)) ].
Qed.

Lemma firstPass_registerAll ast : ∀ st,
  forEach (λ node,
             match node with
             | Procedure name parameters body _ =>
                 modify (λ st, setProcedures
                                 (<[name := mkProcedure name parameters body]>
                                    (procedures st)) st)
             | Function name parameters returnType body _ =>
                 modify (λ st, setFunctions
                                 (<[name := mkFunction name parameters returnType body]>
                                    (functions st)) st)
             | _ => ret tt
             end) ast st
  = Done tt (registerAll ast st).
Proof.
  induction ast as [|node ast IH]; intros st; [done |].
  cbn [forEach]. unfold bind at 1.
  destruct node; unfold modify, ret;
    first [ exact (IH st) | exact (IH (setProcedures _ st)) | exact (IH (setFunctions _ st)) ].
Qed.

Lemma registerAll_globalContext ast : ∀ st,
  globalContext (registerAll ast st) = globalContext st.
Proof.
  induction ast as [|node ast IH]; intros st; [done |].
  unfold registerAll. cbn [foldl].
  destruct node;
    first [ exact (IH st) | exact (IH (setProcedures _ st)) | exact (IH (setFunctions _ st)) ].
Qed.

(** Definitions are gathered before anything runs.  A run of a program is
    the run of its statements from the state in which every PROCEDURE and
    FUNCTION of the text is registered, so a call may stand before the
    definition in the text; and however the run ends, the tables are then what
    they were before with the definitions of the text entered over them: of
    two definitions of one name the later one counts, and a name the text does
    not define keeps the definition of an earlier run. *)
Theorem definitions_registered fuel ast st :
  executeProgram host fuel ast st
  = forEach (λ node,
               match node with
               | Procedure _ _ _ _ | Function _ _ _ _ _ => ret tt
               | _ => executeNode host (interp host fuel) node (globalContext st)
               end) ast (registerAll ast st) ∧
  match executeProgram host fuel ast st with
  | Done _ st' | Thrown _ st' | Suspended st' =>
      ∀ name,
        procedures st' !! name
        = entered procName (definedProcedures ast) (procedures st) name ∧
        functions st' !! name
        = entered funcName (definedFunctions ast) (functions st) name
  | Unfinished => True
  end.
Proof.
  assert (Hrun : executeProgram host fuel ast st
                 = forEach (λ node,
                              match node with
                              | Procedure _ _ _ _ | Function _ _ _ _ _ => ret tt
                              | _ => executeNode host (interp host fuel) node
                                                 (globalContext st)
                              end) ast (registerAll ast st)).
  { unfold executeProgram, execute. unfold bind at 1. rewrite firstPass_registerAll.
    unfold bind, get. by rewrite registerAll_globalContext. }
  split; [exact Hrun |]. rewrite Hrun.
  assert (Hkeeps : post (keeps) (keeps) true
            (forEach (λ node,
                        match node with
                        | Procedure _ _ _ _ | Function _ _ _ _ _ => ret tt
                        | _ => executeNode host (interp host fuel) node (globalContext st)
                        end) ast)).
  { apply post_forEach.
    - unfold keeps. tauto.
    - unfold keeps. intros a b c H1 H2.
      repeat match goal with H : _ ∧ _ |- _ => destruct H end. repeat split; congruence.
    - unfold keeps. intros a b c H1 H2.
      repeat match goal with H : _ ∧ _ |- _ => destruct H end. repeat split; congruence.
    - intros node.
      destruct node; try apply keeps_statement; intros s; unfold ret, keeps; tauto. }
  specialize (Hkeeps (registerAll ast st)).
  destruct (registerAll_tables ast st) as [Hp Hf].
  assert (Hgoal : ∀ st', keeps (registerAll ast st) st' →
            ∀ name,
              procedures st' !! name
              = entered procName (definedProcedures ast) (procedures st) name ∧
              functions st' !! name
              = entered funcName (definedFunctions ast) (functions st) name).
  { intros st' (Hp' & Hf' & _) name. rewrite Hp', Hf', Hp, Hf.
    by rewrite !lookup_entered. }
  destruct (forEach _ ast (registerAll ast st)) as [? st'|[] st'|st'|]; try done;
    by apply Hgoal.
Qed.

End ProgramFacts.

(** *** Arrays *)

Section ArrayFacts.
Import JS Interp.

Lemma outOfBounds_ofZ_iff i lower upper :
  outOfBounds (ofZ i) lower upper = false ↔ lower ≤ i ≤ upper.
Proof.
  unfold outOfBounds, JS.gtb, JS.ltb, ofZ, Qltb. rewrite !Qle_bool_inject_Z.
  destruct (Z.leb_spec lower i), (Z.leb_spec i upper); simpl; split; (done || lia).
Qed.

Lemma keyEqb_ofZ_trans k i j :
  keyEqb k (ofZ i) = true → keyEqb k (ofZ j) = true → i = j.
Proof.
  destruct k as [q| | |]; simpl; try done. intros Hi Hj.
  apply Qeq_bool_iff in Hi, Hj. rewrite Hi in Hj.
  apply Qeq_bool_iff in Hj. rewrite Qeq_bool_inject_Z in Hj. lia.
Qed.

Lemma lookup_storeSlot_ne i j o slots :
  i ≠ j →
  lookupSlot (ofZ j) (storeSlot (ofZ i) o slots) = lookupSlot (ofZ j) slots.
Proof.
  intros Hne. induction slots as [|[k o'] slots IH]; cbn [storeSlot lookupSlot].
  - rewrite keyEqb_ofZ. by destruct (Z.eqb_spec i j).
  - destruct (keyEqb k (ofZ i)) eqn:Ei; cbn [lookupSlot].
    + destruct (keyEqb k (ofZ j)) eqn:Ej; [|done].
      by destruct Hne; apply (keyEqb_ofZ_trans k).
    + destruct (keyEqb k (ofZ j)); [done | apply IH].
Qed.

Lemma getArrayElement_cons arr idx idx2 rest lower upper dims line :
  getArrayElement arr (idx :: idx2 :: rest) ((lower, upper) :: dims) line
  = if outOfBounds idx lower upper
    then inl (RuntimeError "Array index out of bounds" line)
    else match getProperty arr idx with
         | inl e => inl e
         | inr sub => getArrayElement sub (idx2 :: rest) dims line
         end.
Proof. reflexivity. Qed.

Lemma setArrayElement_cons arr idx idx2 rest v lower upper dims line :
  setArrayElement arr (idx :: idx2 :: rest) v ((lower, upper) :: dims) line
  = if outOfBounds idx lower upper
    then inl (RuntimeError "Array index out of bounds" line)
    else match getProperty arr idx with
         | inl e => inl e
         | inr sub =>
             match setArrayElement sub (idx2 :: rest) v dims line, arr with
             | inl e, _ => inl e
             | inr sub', RObject (mkObject i w slots) =>
                 inr (mkObject i w (storeSlot idx sub' slots))
             | inr _, RPrimitive _ => inl (TypeError "Cannot set properties of a primitive")
             end
         end.
Proof. reflexivity. Qed.

Lemma setArrayElement_object arr indices v dims line o' :
  setArrayElement arr indices v dims line = inr o' → ∃ o, arr = RObject o.
Proof.
  destruct indices as [|idx [|idx2 rest]]; [done | |];
    (destruct dims as [|[lower upper] dims]; [done |]).
  - simpl. destruct (outOfBounds idx lower upper); [done |].
    destruct arr as [p|o]; [done | eauto].
  - rewrite setArrayElement_cons. destruct (outOfBounds idx lower upper); [done |].
    destruct (getProperty arr idx) as [e|sub]; [done |].
    destruct (setArrayElement sub _ _ _ _); [done |].
    destruct arr as [p|o]; [done | eauto].
Qed.

(** An assignment to one element of an array leaves every other element as
    it was: after a successful [setArrayElement] at the indices [idxs], a
    read at any other indices, as many of them, gives what it gave
    before, be it a value or an error. *)
Theorem array_writes_are_local idxs : ∀ idxs' arr v dims line line' o',
  setArrayElement arr (ofZ <$> idxs) v dims line = inr o' →
  length idxs' = length idxs →
  idxs' ≠ idxs →
  getArrayElement (RObject o') (ofZ <$> idxs') dims line'
  = getArrayElement arr (ofZ <$> idxs') dims line'.
Proof.
  induction idxs as [|i rest IH]; intros idxs' arr v dims line line' o' Hset Hlen Hne;
    [done |].
  destruct idxs' as [|j rest']; [done |].
  destruct dims as [|[lower upper] dims]; [by destruct rest |].
  destruct rest as [|i2 rest].
  - destruct rest' as [|? ?]; [|done]. cbn [fmap list_fmap] in *. simpl in Hset |- *.
    destruct (outOfBounds (ofZ i) lower upper); [done |].
    destruct arr as [p|[ini w slots]]; [done |]. injection Hset as <-.
    destruct (outOfBounds (ofZ j) lower upper); [done |].
    cbn [getProperty]. rewrite lookup_storeSlot_ne; [done | congruence].
  - destruct rest' as [|j2 rest']; [done |].
    cbn [fmap list_fmap] in *. rewrite setArrayElement_cons in Hset.
    rewrite !getArrayElement_cons.
    destruct (outOfBounds (ofZ i) lower upper); [done |].
    destruct (getProperty arr (ofZ i)) as [e|sub] eqn:Hsub; [done |].
    destruct (setArrayElement sub _ v dims line) as [e|sub'] eqn:Hsub'; [done |].
    destruct arr as [p|[ini w slots]]; [done |]. injection Hset as <-.
    destruct (outOfBounds (ofZ j) lower upper); [done |].
    cbn [getProperty] in *.
    destruct (decide (i = j)) as [->|Hij].
    + rewrite lookup_storeSlot. rewrite Hsub.
      apply (IH (j2 :: rest') sub v dims line line' sub' Hsub').
      * simpl in *. lia.
      * congruence.
    + by rewrite lookup_storeSlot_ne.
Qed.

(** The arrays of the bounds [dims]: the one DECLARE creates, and what
    assignments with one integer index for each dimension make of it. *)
Inductive arrayOf (dims : list (Z * Z)) : JSObject → Prop :=
| arrayOf_created o : createArray dims = Some o → arrayOf dims o
| arrayOf_assigned o idxs v line o' :
    arrayOf dims o →
    length idxs = length dims →
    setArrayElement (RObject o) (ofZ <$> idxs) v dims line = inr o' →
    arrayOf dims o'.

(** Every index within the bounds of the first dimension has a slot, and
    so on in the slots. *)
Fixpoint shaped (dims : list (Z * Z)) (o : JSObject) : Prop :=
  match dims, o with
  | [], _ => True
  | (lower, upper) :: dims', mkObject _ _ slots =>
      ∀ i, lower ≤ i ≤ upper →
           ∃ sub, lookupSlot (ofZ i) slots = Some sub ∧ shaped dims' sub
  end.

Lemma createArray_cons lower upper d dims :
  createArray ((lower, upper) :: d :: dims)
  = if decide (lower ≤ upper) then
      match createArray (d :: dims) with
      | Some sub => Some (mkObject None None
                      ((λ i, (ofZ i, sub)) <$> seqZ lower (upper - lower + 1)))
      | None => None
      end
    else Some (mkObject None None []).
Proof. reflexivity. Qed.

Lemma createArray_shaped dims : ∀ o, createArray dims = Some o → shaped dims o.
Proof.
  induction dims as [|[lower upper] dims IH]; intros o Hcreate; [done |].
  destruct dims as [|d dims].
  - simpl in Hcreate. injection Hcreate as <-. intros i Hi. eexists. split; [|done].
    apply (lookupSlot_fresh (mkObject (Some false) (Some VUndefined) [])).
    apply elem_of_seqZ. lia.
  - rewrite createArray_cons in Hcreate. destruct (decide (lower ≤ upper)).
    + destruct (createArray (d :: dims)) as [sub|]; [|done]. injection Hcreate as <-.
      intros i Hi. exists sub. split; [|by apply IH].
      apply lookupSlot_fresh. apply elem_of_seqZ. lia.
    + injection Hcreate as <-. intros i Hi. lia.
Qed.

Lemma setArrayElement_shaped idxs : ∀ dims o v line o',
  shaped dims o →
  length idxs = length dims →
  setArrayElement (RObject o) (ofZ <$> idxs) v dims line = inr o' →
  shaped dims o'.
Proof.
  induction idxs as [|i rest IH]; intros dims o v line o' Hshape Hlen Hset; [done |].
  destruct dims as [|[lower upper] dims]; [done |].
  destruct o as [ini w slots]. destruct rest as [|i2 rest].
  - destruct dims; [|done]. simpl in Hset.
    destruct (outOfBounds (ofZ i) lower upper); [done |]. injection Hset as <-.
    intros j Hj. destruct (decide (i = j)) as [->|Hij].
    + rewrite lookup_storeSlot. eexists. by split.
    + rewrite lookup_storeSlot_ne by done. by apply Hshape.
  - cbn [fmap list_fmap] in Hset. rewrite setArrayElement_cons in Hset.
    destruct (outOfBounds (ofZ i) lower upper) eqn:Hb; [done |].
    apply outOfBounds_ofZ_iff in Hb.
    destruct (Hshape i Hb) as (sub & Hsub & Hsubshape).
    cbn [getProperty] in Hset. rewrite Hsub in Hset.
    destruct (setArrayElement (RObject sub) _ v dims line) as [e|sub'] eqn:Hsub'; [done |].
    injection Hset as <-.
    intros j Hj. destruct (decide (i = j)) as [->|Hij].
    + rewrite lookup_storeSlot. exists sub'. split; [done |].
      apply (IH dims sub v line sub'); [done | simpl in *; lia | done].
    + rewrite lookup_storeSlot_ne by done. by apply Hshape.
Qed.

Lemma arrayOf_shaped dims o : arrayOf dims o → shaped dims o.
Proof.
  induction 1 as [o Hcreate|o idxs v line o' _ IH Hlen Hset].
  - by apply createArray_shaped.
  - by apply (setArrayElement_shaped idxs dims o v line o').
Qed.

Lemma shaped_bounds idxs : ∀ dims o v line,
  shaped dims o →
  length idxs = length dims →
  idxs ≠ [] →
  (withinBounds idxs dims →
   (∃ o', setArrayElement (RObject o) (ofZ <$> idxs) v dims line = inr o') ∧
   (getArrayElement (RObject o) (ofZ <$> idxs) dims line
    = inl (RuntimeError "Array element accessed before assignment" line) ∨
    ∃ w, getArrayElement (RObject o) (ofZ <$> idxs) dims line = inr w)) ∧
  (¬ withinBounds idxs dims →
   setArrayElement (RObject o) (ofZ <$> idxs) v dims line
   = inl (RuntimeError "Array index out of bounds" line) ∧
   getArrayElement (RObject o) (ofZ <$> idxs) dims line
   = inl (RuntimeError "Array index out of bounds" line)).
Proof.
  induction idxs as [|i rest IH]; intros dims o v line Hshape Hlen Hne; [done |].
  destruct dims as [|[lower upper] dims]; [done |].
  destruct o as [ini w slots]. destruct rest as [|i2 rest].
  - destruct dims; [|done]. simpl.
    destruct (outOfBounds (ofZ i) lower upper) eqn:Hb.
    + split; [|done]. intros Hin. apply Forall2_cons_1 in Hin as [Hi _].
      apply outOfBounds_ofZ_iff in Hi. simpl in Hi. congruence.
    + apply outOfBounds_ofZ_iff in Hb. split.
      * intros _. split; [eauto |].
        destruct (Hshape i Hb) as ([ini' w' slots'] & -> & _). simpl.
        destruct (default false ini'); eauto.
      * intros Hout. destruct Hout. apply Forall2_cons. split; [done | constructor].
  - cbn [fmap list_fmap]. rewrite setArrayElement_cons, getArrayElement_cons.
    destruct (outOfBounds (ofZ i) lower upper) eqn:Hb.
    + split; [|done]. intros Hin. apply Forall2_cons_1 in Hin as [Hi _].
      apply outOfBounds_ofZ_iff in Hi. simpl in Hi. congruence.
    + apply outOfBounds_ofZ_iff in Hb.
      destruct (Hshape i Hb) as (sub & Hsub & Hsubshape).
      cbn [getProperty]. rewrite Hsub.
      destruct (IH dims sub v line Hsubshape) as [Hin Hout];
        [simpl in *; lia | done |].
      cbn [fmap list_fmap] in Hin, Hout. split.
      * intros Hall. apply Forall2_cons_1 in Hall as [_ Hall].
        destruct (Hin Hall) as [[sub' ->] Hget]. split; [eauto | exact Hget].
      * intros Hnot. destruct Hout as [-> ->]; [|done].
        intros Hall. apply Hnot. by apply Forall2_cons.
Qed.

(** The bounds of an array are checked in every dimension.  On an array as
    DECLARE creates it, and after any assignments to its elements, an access
    with one integer index for each dimension does this: if every index is
    within its bounds, an assignment succeeds and a read gives a value or
    throws "Array element accessed before assignment"; if not, both throw
    "Array index out of bounds". *)
Theorem array_bounds_checked dims o idxs v line :
  arrayOf dims o →
  length idxs = length dims →
  (withinBounds idxs dims →
   (∃ o', setArrayElement (RObject o) (ofZ <$> idxs) v dims line = inr o') ∧
   (getArrayElement (RObject o) (ofZ <$> idxs) dims line
    = inl (RuntimeError "Array element accessed before assignment" line) ∨
    ∃ w, getArrayElement (RObject o) (ofZ <$> idxs) dims line = inr w)) ∧
  (¬ withinBounds idxs dims →
   setArrayElement (RObject o) (ofZ <$> idxs) v dims line
   = inl (RuntimeError "Array index out of bounds" line) ∧
   getArrayElement (RObject o) (ofZ <$> idxs) dims line
   = inl (RuntimeError "Array index out of bounds" line)).
Proof.
  intros Harr Hlen. apply shaped_bounds; [by apply arrayOf_shaped | done |].
  intros ->. destruct dims; [|done].
  clear Hlen. induction Harr as [o Hcreate|]; done.
Qed.

End ArrayFacts.

(** *** Integer division *)

Section ArithmeticFacts.
Import JS Interp.
Variable host : Host.







End ArithmeticFacts.

(** *** CASE and DECLARE *)

Section ControlFacts.
Import JS Interp.
Local Open Scope interp_scope.
Variable host : Host.

Definition caseStatements (c : CaseBlock) : list ASTNode :=
  match c with mkCaseBlock _ _ _ statements => statements end.

(** The test of one case of a CASE statement on the value [v], when the
    expressions of the case evaluate in the state [st] and leave it as it
    is: a single value is compared with [===], a range with [>=] and [<=] on
    numbers. *)
Definition caseTest (this : Self) (context : nat) (st : Interpreter) (v : any)
           (c : CaseBlock) (matched : bool) : Prop :=
  match c with
  | mkCaseBlock (Some e) _ _ _ =>
      ∃ w, evaluateExpression host this e context st = Done w st ∧
           matched = strictEquals v w
  | mkCaseBlock None (Some s) (Some e) _ =>
      ∃ lo hi, evaluateExpression host this s context st = Done lo st ∧
               evaluateExpression host this e context st = Done hi st ∧
               matched = JS.geb (caseNumber host v) (caseNumber host lo)
                         && JS.leb (caseNumber host v) (caseNumber host hi)
  | _ => matched = false
  end.

Lemma runCases_skip this sync v context st pre : ∀ cases,
  Forall (λ c, caseTest this context st v c false) pre →
  runCases host this sync v (pre ++ cases) context st
  = runCases host this sync v cases context st.
Proof.
  induction pre as [|[single rangeStart rangeEnd statements] pre IH]; intros cases Hpre;
    [done |].
  apply Forall_cons in Hpre as [Hc Hpre]. cbn [app runCases]. unfold bind at 1.
  destruct single as [e|]; [|destruct rangeStart as [s|]; [destruct rangeEnd as [e|] |]];
    simpl in Hc.
  - destruct Hc as (w & Hw & Hfalse). unfold bind at 1. rewrite Hw. unfold ret at 1.
    rewrite <- Hfalse. by apply IH.
  - destruct Hc as (lo & hi & Hlo & Hhi & Hfalse). unfold bind at 1. rewrite Hlo.
    unfold bind at 1. rewrite Hhi. unfold ret at 1. rewrite <- Hfalse. by apply IH.
  - unfold ret at 1. by apply IH.
  - unfold ret at 1. by apply IH.
Qed.

Lemma runCases_match this sync v context st c cases :
  caseTest this context st v c true →
  runCases host this sync v (c :: cases) context st
  = (runBlock this sync (caseStatements c) context >> ret true) st.
Proof.
  destruct c as [single rangeStart rangeEnd statements]. intros Hc.
  cbn [runCases caseStatements]. unfold bind at 1.
  destruct single as [e|]; [|destruct rangeStart as [s|]; [destruct rangeEnd as [e|] |]];
    simpl in Hc; try done.
  - destruct Hc as (w & Hw & Htrue). unfold bind at 1. rewrite Hw. unfold ret at 1.
    by rewrite <- Htrue.
  - destruct Hc as (lo & hi & Hlo & Hhi & Htrue). unfold bind at 1. rewrite Hlo.
    unfold bind at 1. rewrite Hhi. unfold ret at 1. by rewrite <- Htrue.
Qed.

(** CASE runs the first case that matches and nothing else.  The cases are
    tested in the order of the text; the statements of the first one whose
    test holds are run, and the cases after it are not even evaluated, so
    that an error in one of them is not raised and a second case that would
    match is not run.  When no case matches, the OTHERWISE block is run, if
    there is one. *)
Theorem case_runs_first_match this sync expression v cases otherwiseBlock context st :
  evaluateExpression host this expression context st = Done v st →
  (∀ pre c rest,
     cases = pre ++ c :: rest →
     Forall (λ c', caseTest this context st v c' false) pre →
     caseTest this context st v c true →
     executeCase host this sync expression cases otherwiseBlock context st
     = runBlock this sync (caseStatements c) context st) ∧
  (Forall (λ c', caseTest this context st v c' false) cases →
   executeCase host this sync expression cases otherwiseBlock context st
   = match otherwiseBlock with
     | Some block => runBlock this sync block context st
     | None => Done tt st
     end).
Proof.
  intros Hv. split.
  - intros pre c rest -> Hpre Hc. unfold executeCase. unfold bind at 1. rewrite Hv.
    unfold bind at 1. rewrite runCases_skip by done. rewrite runCases_match by done.
    unfold bind, ret.
    destruct (runBlock this sync (caseStatements c) context st) as [[] st'|e st'|st'|];
      by destruct otherwiseBlock.
  - intros Hall. unfold executeCase. unfold bind at 1. rewrite Hv. unfold bind at 1.
    rewrite <- (app_nil_r cases) at 1. rewrite runCases_skip by done.
    cbn [runCases]. unfold ret at 1. by destruct otherwiseBlock.
Qed.

Lemma lookupChain_bindName heap context ctx identifier ref name n : ∀ current,
  heap !! context = Some ctx →
  name ≠ identifier →
  lookupChain n (alter (λ c, mkContext (<[identifier := ref]> (variables c)) (parent c))
                       context heap) current name
  = lookupChain n heap current name.
Proof.
  intros current Hctx Hne. revert current.
  induction n as [|n IH]; intros [c|]; try done. cbn [lookupChain].
  destruct (decide (c = context)) as [->|Hc].
  - rewrite lookup_alter_eq, Hctx. cbn [fmap option_fmap option_map variables parent].
    rewrite lookup_insert_ne by done. destruct (variables ctx !! name); [done | apply IH].
  - rewrite lookup_alter_ne by done. destruct (heap !! c) as [ctx'|]; [|done].
    destruct (variables ctx' !! name); [done | apply IH].
Qed.

Lemma size_alter_context (heap : gmap nat ExecutionContext) f context :
  size (alter f context heap) = size heap.
Proof.
  destruct (heap !! context) as [ctx|] eqn:Hctx.
  - rewrite <- (insert_id heap context ctx) at 1 by done.
    rewrite alter_insert_eq. apply map_size_insert_Some. by exists ctx.
  - f_equal. apply map_eq. intros c. destruct (decide (c = context)) as [->|Hc].
    + by rewrite lookup_alter_eq, Hctx.
    + by rewrite lookup_alter_ne.
Qed.

(** DECLARE of a name that is declared already does not throw: it binds the
    name, in the context of the statement, to a new variable without a value.
    The value the name had is out of reach, a read of the name throws "used
    before assignment" until it is assigned again, and every other name is
    found as before, from every context. *)
Theorem declare_replaces identifier dataType arrayBounds arrayElementType context ctx st :
  dataType ≠ ARRAY →
  contextHeap st !! context = Some ctx →
  ∃ st',
    executeDeclare identifier dataType arrayBounds arrayElementType context st
    = Done tt st' ∧
    getVariable identifier context st' = Some (nextRef st) ∧
    variableHeap st' !! nextRef st = Some (mkVariable dataType VUndefined None None false) ∧
    (∀ ref, ref ≠ nextRef st → variableHeap st' !! ref = variableHeap st !! ref) ∧
    (∀ line,
       evaluateIdentifier identifier line context st'
       = Thrown (RuntimeError ("Variable '" +:+ identifier +:+ "' used before assignment")
                              line) st') ∧
    (∀ name c, name ≠ identifier → getVariable name c st' = getVariable name c st).
Proof.
  intros Htype Hctx.
  set (st' := setContextHeap
                (alter (λ c, mkContext (<[identifier := nextRef st]> (variables c))
                                       (parent c)) context (contextHeap st))
                (setNextRef (S (nextRef st))
                   (setVariableHeap
                      (<[nextRef st := mkVariable dataType VUndefined None None false]>
                         (variableHeap st)) st))).
  assert (Hrun : executeDeclare identifier dataType arrayBounds arrayElementType context st
                 = Done tt st') by by destruct dataType.
  assert (Hget : getVariable identifier context st' = Some (nextRef st)).
  { unfold getVariable. cbn [lookupChain]. subst st'. cbn [contextHeap setContextHeap].
    rewrite lookup_alter_eq, Hctx. cbn [fmap option_fmap option_map variables].
    by rewrite lookup_insert_eq. }
  exists st'. split; [exact Hrun |]. split; [exact Hget |]. split; [|split; [|split]].
  - subst st'. simpl. apply lookup_insert_eq.
  - intros ref Href. subst st'. simpl. by rewrite lookup_insert_ne.
  - intros line. unfold evaluateIdentifier, bind, get, readVariable. rewrite Hget.
    subst st'. simpl. by rewrite lookup_insert_eq.
  - intros name c Hne. unfold getVariable. subst st'. cbn [contextHeap setContextHeap].
    rewrite size_alter_context. cbn [contextHeap setNextRef setVariableHeap].
    by apply lookupChain_bindName with ctx.
Qed.

End ControlFacts.

(** *** Built-in functions *)

Section BuiltInFacts.
Import JS Interp.
Local Open Scope interp_scope.
Variable host : Host.

Lemma substring_clamp s : ∀ a m,
  String.substring (a `min` String.length s)
                   ((a + m) `min` String.length s - a `min` String.length s) s
  = String.substring a m s.
Proof.
  induction s as [|c s IH]; intros a m.
  - cbn [String.length]. rewrite !Nat.min_0_r. by destruct a, m.
  - cbn [String.length]. destruct a as [|a].
    + rewrite Nat.min_0_l, Nat.sub_0_r, Nat.add_0_l. destruct m as [|m]; [done |].
      rewrite <- Nat.succ_min_distr. cbn [String.substring]. f_equal.
      specialize (IH 0%nat m). by rewrite Nat.min_0_l, Nat.sub_0_r, Nat.add_0_l in IH.
    + rewrite Nat.add_succ_l, <- !Nat.succ_min_distr. cbn [Nat.sub String.substring].
      apply IH.
Qed.

Lemma length_substring s : ∀ a m,
  String.length (String.substring a m s) = (m `min` (String.length s - a))%nat.
Proof.
  induction s as [|c s IH]; intros a m.
  - destruct a, m; done.
  - destruct a as [|a]; cbn [String.length String.substring Nat.sub].
    + destruct m as [|m]; [done |]. cbn [String.length]. rewrite IH.
      rewrite Nat.sub_0_r. by rewrite <- Nat.succ_min_distr.
    + apply IH.
Qed.

Lemma substring_all s : String.substring 0 (String.length s) s = s.
Proof. induction s as [|c s IH]; [done |]. cbn [String.length String.substring]. by f_equal. Qed.

Lemma Qtrunc_inject_Z z : Qtrunc (inject_Z z) = z.
Proof.
  unfold Qtrunc, Qceiling. destruct (Qle_bool 0 (inject_Z z)).
  - apply Qfloor_Z.
  - change (- inject_Z z)%Q with (inject_Z (- z)). rewrite Qfloor_Z. lia.
Qed.

Lemma clampIndex_ofZ z len :
  0 ≤ z → clampIndex (ofZ z) len = (Z.to_nat z `min` len)%nat.
Proof. intros Hz. unfold clampIndex, ofZ. rewrite Qtrunc_inject_Z. lia. Qed.

(** The call [SUBSTRING(s, start, n)] on literals. *)
Definition substringCall (s : string) (start n : Z) (l : Z) : ExpressionNode :=
  FunctionCall "SUBSTRING" [Literal (VString s) STRING l;
                            Literal (VNumber (ofZ start)) INTEGER l;
                            Literal (VNumber (ofZ n)) INTEGER l] l.

(** SUBSTRING counts from 1 and never reads past the end.  For integers
    [start >= 1] and [n >= 0] the call gives the [n] characters from
    position [start], or as many as the text has from there (none when
    [start] is past the end), and does not throw; the whole text is
    [SUBSTRING(s, 1, LENGTH(s))]. *)
Theorem substring_counts_from_one fuel s start n l context st :
  1 ≤ start →
  0 ≤ n →
  ∃ r,
    evaluateExpression host (interp host (S fuel)) (substringCall s start n l) context st
    = Done (VString r) st ∧
    r = String.substring (Z.to_nat (start - 1)) (Z.to_nat n) s ∧
    Z.of_nat (String.length r)
    = Z.min n (Z.max 0 (Z.of_nat (String.length s) - (start - 1))) ∧
    (start = 1 → n = Z.of_nat (String.length s) → r = s).
Proof.
  intros Hstart Hn. eexists. split; [|split; [reflexivity |split]].
  - unfold substringCall, evaluateExpression, evaluateFunctionCall.
    unfold bind at 1. unfold evaluateBuiltInFunction.
    repeat match goal with
           | |- context [String.eqb ?a ?b] =>
               let v := eval vm_compute in (String.eqb a b) in
               change (String.eqb a b) with v
           end.
    cbv iota. rewrite decide_True by done.
    cbn [lookup list_lookup interp this_evaluateExpression evaluateExpression].
    unfold bind, ret.
    assert (Hlt1 : JS.ltb (ofZ start) (ofZ 1) = false).
    { unfold JS.ltb, ofZ, Qltb. rewrite Qle_bool_inject_Z.
      destruct (Z.leb_spec 1 start); [done | lia]. }
    assert (Hlt0 : JS.ltb (ofZ n) (ofZ 0) = false).
    { unfold JS.ltb, ofZ, Qltb. rewrite Qle_bool_inject_Z.
      destruct (Z.leb_spec 0 n); [done | lia]. }
    rewrite Hlt1, Hlt0. do 3 f_equal.
    assert (Hfrom : JS.sub (ofZ start) (ofZ 1) = ofZ (start - 1)).
    { unfold JS.sub. change (JS.neg (ofZ 1)) with (ofZ (-1)). by rewrite add_ofZ. }
    rewrite Hfrom, add_ofZ. unfold substring.
    rewrite !clampIndex_ofZ by lia.
    rewrite Nat.min_l, Nat.max_r.
    + rewrite <- (substring_clamp s (Z.to_nat (start - 1)) (Z.to_nat n)).
      by rewrite Z2Nat.inj_add by lia.
    + apply Nat.min_le_compat_r. lia.
    + apply Nat.min_le_compat_r. lia.
  - rewrite length_substring. lia.
  - intros -> ->. change (Z.to_nat (1 - 1)) with 0%nat. rewrite Nat2Z.id.
    apply substring_all.
Qed.

End BuiltInFacts.

Section InterpExamples.
Import JS Interp.

Definition run (fuel : nat) (inputs : list string) (ast : list ASTNode) : Outcome unit :=
  executeProgram ReferenceHost.host fuel ast (create inputs false false true None).

Definition stateOf {A} (r : Outcome A) : Interpreter :=
  match r with
  | Done _ st | Thrown _ st | Suspended st => st
  | Unfinished => create [] false false true None
  end.


Definition outputOf {A} (r : Outcome A) : option (list string) :=
  match r with
  | Done _ st => Some (output st)
  | _ => None
  end.

Definition num (z : Z) : ExpressionNode := Literal (VNumber (ofZ z)) INTEGER 1.

(** FOR i <- 1 TO 5 STEP 1 / OUTPUT i / NEXT i *)
Example for_1_to_5 :
  outputOf (run 20 [] [For "i" (num 1) (num 5) (num 1) [Output [Identifier "i" 2] 2] 1])
  = Some ["1"; "2"; "3"; "4"; "5"].
Proof. vm_compute. reflexivity. Qed.

Example for_5_to_1 :
  outputOf (run 20 [] [For "i" (num 5) (num 1)
                         (Literal (VNumber (Fin (-3 # 2))) REAL 1)
                         [Output [Identifier "i" 2] 2] 1])
  = Some ["5"; "3"; "1"].
Proof. vm_compute. reflexivity. Qed.

(** DECLARE x : INTEGER / DECLARE p, q : POINTER_TO_INTEGER /
    p <- &x / q <- p / *q <- 7 / OUTPUT x *)
Definition aliasingProgram : list ASTNode :=
  [ DeclareNode "x" INTEGER None None 1;
    DeclareNode "p" POINTER_TO_INTEGER None None 2;
    DeclareNode "q" POINTER_TO_INTEGER None None 2;
    Assignment (Identifier "p" 3) (AddressOf (Identifier "x" 3) 3) 3;
    Assignment (Identifier "q" 4) (Identifier "p" 4) 4;
    Assignment (Dereference (Identifier "q" 5) 5) (num 7) 5;
    Output [Identifier "x" 6] 6 ].

(** C2 fails on the code: the program stops at [p <- &x] with a run-time
    error, for every depth of run that reaches the statement, and nothing
    is ever output. *)
Lemma aliasing_program_throws fuel :
  (1 ≤ fuel)%nat →
  ∃ st, run fuel [] aliasingProgram
        = Thrown (RuntimeError "Unknown expression type: AddressOf" 3) st ∧
        output st = [].
Proof.
  intros Hfuel. destruct fuel as [|fuel]; [lia |].
  eexists. split; [vm_compute; reflexivity | reflexivity].
Qed.

Lemma aliasing_program_throws_witness :
  ∃ st, run 5 [] aliasingProgram
        = Thrown (RuntimeError "Unknown expression type: AddressOf" 3) st ∧
        output st = [].
Proof. apply (aliasing_program_throws 5). lia. Defined.

(** INPUT n for an INTEGER n and the answer [abc]. *)
Definition declaredN : Interpreter :=
  stateOf (run 1 ["abc"] [DeclareNode "n" INTEGER None None 1]).

Lemma input_never_throws_witness :
  ∃ st' stored,
    executeInput ReferenceHost.host (interp ReferenceHost.host 0)
                 (Identifier "n" 2) 2 0%nat declaredN = Done tt st' ∧
    output st' = output declaredN ++ ["abc"] ∧
    pendingInput st' = [] ∧
    variableHeap st' !! 1%nat = Some (mkVariable INTEGER stored None None true) ∧
    (INTEGER = INTEGER → parseInt ReferenceHost.host "abc" = NaN →
     stored = VNumber (ofZ 0)) ∧
    (INTEGER = REAL → parseFloat ReferenceHost.host "abc" = NaN →
     stored = VNumber (ofZ 0)) ∧
    (INTEGER = BOOLEAN →
     stored = VBoolean (String.eqb (toLowerCase ReferenceHost.host "abc") "true")).
Proof.
  apply (input_never_throws ReferenceHost.host (interp ReferenceHost.host 0) "n" 2 2
           0%nat declaredN 1%nat (mkVariable INTEGER VUndefined None None false)
           "abc" []); vm_compute; reflexivity.
Defined.






(** The same calls as programs: after CALL R(x) the caller's x is 2, after
    CALL V(x) it is still 7. *)
Example byref_call_changes_caller :
  outputOf (run 3 []
    [ Procedure "R" [mkParameter "p" INTEGER true None]
                (assignAll "p" [VNumber (ofZ 1); VNumber (ofZ 2)] 2) 1;
      DeclareNode "x" INTEGER None None 3;
      Assignment (Identifier "x" 4) (num 7) 4;
      Call "R" [Identifier "x" 5] 5;
      Output [Identifier "x" 6] 6 ])
  = Some ["2"].
Proof. vm_compute. reflexivity. Qed.

Example byval_call_keeps_caller :
  outputOf (run 3 []
    [ Procedure "V" [mkParameter "p" INTEGER false None]
                (assignAll "p" [VNumber (ofZ 1); VNumber (ofZ 2)] 2) 1;
      DeclareNode "x" INTEGER None None 3;
      Assignment (Identifier "x" 4) (num 7) 4;
      Call "V" [Identifier "x" 5] 5;
      Output [Identifier "x" 6] 6 ])
  = Some ["7"].
Proof. vm_compute. reflexivity. Qed.

(** DECLARE i : INTEGER, then FOR i <- 5 TO 1 STEP -1.5 / OUTPUT i. *)
Definition declaredI : Interpreter :=
  stateOf (run 1 [] [DeclareNode "i" INTEGER None None 1]).


Example for_visits :
  visits (Qfloor 1) (Qfloor 1) 5 = [1; 2; 3; 4; 5] ∧
  visits (Qfloor 5) (Qfloor (-3 # 2)) 3 = [5; 3; 1] ∧
  continues (JS.gtb (Fin (-3 # 2)) (ofZ 0)) (Fin 1) (-1) = false.
Proof. repeat split; reflexivity. Qed.


(** DECLARE a : ARRAY[1:3] OF INTEGER / a[2] <- 5 / OUTPUT a[2] / OUTPUT a[1] *)
Example array_element_reads :
  run 5 [] [ DeclareNode "a" ARRAY (Some [(1, 3)]) (Some INTEGER) 1;
             Assignment (ArrayAccess "a" [num 2] 2) (num 5) 2;
             Output [ArrayAccess "a" [num 2] 3] 3;
             Output [ArrayAccess "a" [num 1] 4] 4 ]
  = Thrown (RuntimeError "Array element accessed before assignment" 4)
           (stateOf (run 5 [] [ DeclareNode "a" ARRAY (Some [(1, 3)]) (Some INTEGER) 1;
                                Assignment (ArrayAccess "a" [num 2] 2) (num 5) 2;
                                Output [ArrayAccess "a" [num 2] 3] 3;
                                Output [ArrayAccess "a" [num 1] 4] 4 ])) ∧
  output (stateOf (run 5 [] [ DeclareNode "a" ARRAY (Some [(1, 3)]) (Some INTEGER) 1;
                              Assignment (ArrayAccess "a" [num 2] 2) (num 5) 2;
                              Output [ArrayAccess "a" [num 2] 3] 3;
                              Output [ArrayAccess "a" [num 1] 4] 4 ])) = ["5"].
Proof. split; vm_compute; reflexivity. Qed.

Example input_examples :
  convertInput ReferenceHost.host INTEGER "abc" = VNumber (ofZ 0) ∧
  convertInput ReferenceHost.host INTEGER "12abc" = VNumber (ofZ 12) ∧
  convertInput ReferenceHost.host REAL "x1.5" = VNumber (ofZ 0) ∧
  convertInput ReferenceHost.host BOOLEAN "TrUe" = VBoolean true ∧
  convertInput ReferenceHost.host BOOLEAN "yes" = VBoolean false.
Proof. repeat split; vm_compute; reflexivity. Qed.

End InterpExamples.

Section RunExamples.
Import JS Interp.

(** OUTPUT 1 / OUTPUT 2 in a fresh interpreter. *)
Lemma iteration_guard_bounds_witness :
  match executeProgram ReferenceHost.host 2 [Output [num 1] 1; Output [num 2] 2]
                       (create [] false false true None) with
  | Done _ st' =>
      iterationCount (create [] false false true None) ≤ iterationCount st'
      ≤ MAX_ITERATIONS
  | Thrown _ st' | Suspended st' =>
      iterationCount (create [] false false true None) ≤ iterationCount st'
      ≤ MAX_ITERATIONS + 1
  | Unfinished => True
  end.
Proof.
  apply (iteration_guard_bounds ReferenceHost.host 2 [Output [num 1] 1; Output [num 2] 2]
           (create [] false false true None)).
  vm_compute. discriminate.
Defined.

End RunExamples.

Section LoopExamples.
Import JS Interp.

(** A fresh interpreter with two statements left of the budget. *)
Definition nearBudget : Interpreter :=
  setIterationCount (MAX_ITERATIONS - 2) (create [] false false true None).

Lemma while_true_stops_at_budget_witness :
  ∃ st',
    whileLoop ReferenceHost.host (interp ReferenceHost.host 3) false
              (Literal (VBoolean true) BOOLEAN 1) (repeat (Output [] 2) (S 2)) 1 0%nat
              nearBudget
    = Thrown (RuntimeError "Execution timeout: Possible infinite loop" 2) st' ∧
    output st' = output nearBudget ++ repeat "" 2 ∧
    iterationCount st' = MAX_ITERATIONS + 1.
Proof.
  apply (while_true_stops_at_budget ReferenceHost.host 2 2 BOOLEAN 1 1 0%nat 2 3 nearBudget).
  - reflexivity.
  - lia.
Defined.

(** DECLARE i : INTEGER, with two statements left of the budget, then
    FOR i <- 5 TO 9 STEP 0.5 / OUTPUT i. *)
Definition declaredINearBudget : Interpreter :=
  setIterationCount (MAX_ITERATIONS - 2) declaredI.

Lemma fractional_step_never_advances_witness :
  ∃ st',
    executeFor ReferenceHost.host (interp ReferenceHost.host 3) false "i"
               (Literal (VNumber (Fin 5)) INTEGER 2) (Literal (VNumber (Fin 9)) INTEGER 2)
               (Literal (VNumber (Fin (1 # 2))) REAL 2) (observe "i" 3 3) 2 0%nat
               declaredINearBudget
    = Thrown (RuntimeError "Execution timeout: Possible infinite loop" 3) st' ∧
    output st'
    = output declaredINearBudget
      ++ repeat (numberToString ReferenceHost.host (ofZ (Qfloor 5))) 2 ∧
    variableHeap st' !! 1%nat
    = Some (mkVariable (type (mkVariable INTEGER VUndefined None None false))
                       (VNumber (ofZ (Qfloor 5)))
                       (dimensions (mkVariable INTEGER VUndefined None None false))
                       (elementType (mkVariable INTEGER VUndefined None None false)) true).
Proof.
  apply (fractional_step_never_advances ReferenceHost.host 3 "i" 0%nat declaredINearBudget
           1%nat (mkVariable INTEGER VUndefined None None false) 5 9 (1 # 2)
           INTEGER INTEGER REAL 2 2 2 3 3 2 2).
  - vm_compute; reflexivity.
  - vm_compute; reflexivity.
  - reflexivity.
  - reflexivity.
  - vm_compute. discriminate.
  - reflexivity.
  - lia.
Defined.


End LoopExamples.

Section FileExamples.
Import JS Interp.

(** DECLARE i : INTEGER, with log.txt open for writing, one line written,
    and in.txt open for reading, two lines, none read. *)
Definition withFiles : Interpreter :=
  setFileHandles {[ "log.txt" := mkFileHandle WRITE ["x"] 1;
                    "in.txt" := mkFileHandle READ ["7"; "b"] 0 ]} declaredI.

Lemma close_keeps_written_files_witness :
  ∃ st1,
    executeCloseFile ReferenceHost.host (interp ReferenceHost.host 1)
                     (Literal (VString "log.txt") STRING 1) 1 0%nat withFiles
    = Done tt st1 ∧
    match mode (mkFileHandle WRITE ["x"] 1) with
    | READ =>
        fileHandles st1 = delete "log.txt" (fileHandles withFiles) ∧
        output st1 = output withFiles ++ ["Closed file '" +:+ "log.txt" +:+ "'"]
    | _ =>
        fileHandles st1 = fileHandles withFiles ∧
        output st1
        = output withFiles
          ++ ["Closed file '" +:+ "log.txt" +:+ "' ("
              +:+ numberToString ReferenceHost.host
                    (ofZ (Z.of_nat (length (data (mkFileHandle WRITE ["x"] 1)))))
              +:+ " lines written)"] ∧
        ∀ m, executeOpenFile ReferenceHost.host (interp ReferenceHost.host 1)
                             (Literal (VString "log.txt") STRING 2) m 2 0%nat st1
             = Thrown (RuntimeError ("File '" +:+ "log.txt" +:+ "' is already open") 2) st1
    end.
Proof.
  apply (close_keeps_written_files ReferenceHost.host (interp ReferenceHost.host 1)
           "log.txt" (mkFileHandle WRITE ["x"] 1) STRING 1 STRING 2 1 2 0%nat withFiles).
  - discriminate.
  - vm_compute; reflexivity.
Defined.

(** A fresh interpreter whose upload handler gives the empty text. *)
Definition emptyUploads : Interpreter := create [] false false true (Some (λ _, "")).

Lemma opened_file_not_at_eof_witness :
  ∃ st1,
    executeOpenFile ReferenceHost.host (interp ReferenceHost.host 1)
                    (Literal (VString "in.txt") STRING 1) READ 1 0%nat emptyUploads
    = Done tt st1 ∧
    fileHandles st1
    = <["in.txt" := mkFileHandle READ (splitLines "" "") 0]> (fileHandles emptyUploads) ∧
    output st1 = output emptyUploads ++ ["Opened file '" +:+ "in.txt" +:+ "' in READ mode"] ∧
    evaluateExpression ReferenceHost.host (interp ReferenceHost.host 1) (eofCall "in.txt" 2)
                       0%nat st1
    = Done (VBoolean false) st1.
Proof.
  apply (opened_file_not_at_eof ReferenceHost.host 0 "in.txt" (λ _, "") STRING 1 1 2 0%nat
           emptyUploads).
  - discriminate.
  - reflexivity.
  - reflexivity.
Defined.

Lemma written_lines_read_back_witness :
  ∃ st1,
    executeOpenFile ReferenceHost.host (interp ReferenceHost.host 1)
                    (Literal (VString "log.txt") STRING 1) READ 1 0%nat
                    (create [] false false true (Some (λ _, "x")))
    = Done tt st1 ∧
    fileHandles st1 !! "log.txt"
    = Some (mkFileHandle READ
              (match data (mkFileHandle WRITE ["x"] 1) with
               | [] => [""]
               | _ => data (mkFileHandle WRITE ["x"] 1)
               end) 0).
Proof.
  apply (written_lines_read_back ReferenceHost.host (interp ReferenceHost.host 1) "log.txt"
           (λ _, "x") STRING 1 1 0%nat (create [] false false true (Some (λ _, "x")))
           withFiles (mkFileHandle WRITE ["x"] 1)).
  - discriminate.
  - reflexivity.
  - reflexivity.
  - vm_compute; reflexivity.
  - repeat constructor.
  - vm_compute; reflexivity.
Defined.

Lemma writes_append_in_order_witness :
  ∃ st',
    forEach (λ stmt, executeNode ReferenceHost.host (interp ReferenceHost.host 1) stmt 0%nat)
            (writeAll "log.txt" [VString "y"; VBoolean true] 2) withFiles
    = Done tt st' ∧
    fileHandles st'
    = <["log.txt" := mkFileHandle (mode (mkFileHandle WRITE ["x"] 1))
                       (data (mkFileHandle WRITE ["x"] 1)
                        ++ (valueToString ReferenceHost.host
                              <$> [VString "y"; VBoolean true]))
                       (position (mkFileHandle WRITE ["x"] 1)
                        + length [VString "y"; VBoolean true])]> (fileHandles withFiles) ∧
    output st'
    = output withFiles
      ++ (if fileWriteOutput withFiles
          then (λ v, "[Write to " +:+ "log.txt" +:+ "] "
                     +:+ valueToString ReferenceHost.host v)
                 <$> [VString "y"; VBoolean true]
          else []) ∧
    getFileContent "log.txt" st'
    = Some (joinLines (data (mkFileHandle WRITE ["x"] 1)
                       ++ (valueToString ReferenceHost.host
                             <$> [VString "y"; VBoolean true]))).
Proof.
  apply (writes_append_in_order ReferenceHost.host 1 "log.txt" 2 0%nat
           [VString "y"; VBoolean true] withFiles (mkFileHandle WRITE ["x"] 1)).
  - discriminate.
  - vm_compute; reflexivity.
  - discriminate.
  - vm_compute. discriminate.
Defined.

Lemma reads_in_order_witness :
  ∃ st',
    forEach (λ stmt, executeNode ReferenceHost.host (interp ReferenceHost.host 1) stmt 0%nat)
            (readAll "in.txt" "i" 2 2) withFiles
    = Done tt st' ∧
    fileHandles st'
    = <["in.txt" := mkFileHandle READ (data (mkFileHandle READ ["7"; "b"] 0))
                      (position (mkFileHandle READ ["7"; "b"] 0) + 2)]>
        (fileHandles withFiles) ∧
    output st'
    = output withFiles
      ++ take 2 (drop (position (mkFileHandle READ ["7"; "b"] 0))
                      (data (mkFileHandle READ ["7"; "b"] 0))) ∧
    variableHeap st'
    = <[1%nat := readInto ReferenceHost.host (mkVariable INTEGER VUndefined None None false)
                   (take 2 (drop (position (mkFileHandle READ ["7"; "b"] 0))
                                 (data (mkFileHandle READ ["7"; "b"] 0))))]>
        (variableHeap withFiles) ∧
    evaluateExpression ReferenceHost.host (interp ReferenceHost.host 2) (eofCall "in.txt" 2)
                       0%nat st'
    = Done (VBoolean (bool_decide
                        (position (mkFileHandle READ ["7"; "b"] 0) + 2
                         = length (data (mkFileHandle READ ["7"; "b"] 0)))%nat)) st' ∧
    ((position (mkFileHandle READ ["7"; "b"] 0) + 2
      = length (data (mkFileHandle READ ["7"; "b"] 0)))%nat →
     ∀ target,
       executeReadFile ReferenceHost.host (interp ReferenceHost.host 1)
                       (Literal (VString "in.txt") STRING 2) target 2 0%nat st'
       = Thrown (RuntimeError ("Attempt to read past end of file '" +:+ "in.txt" +:+ "'") 2)
                st').
Proof.
  apply (reads_in_order ReferenceHost.host 1 "in.txt" "i" 2 0%nat 1%nat 2 withFiles
           (mkFileHandle READ ["7"; "b"] 0)
           (mkVariable INTEGER VUndefined None None false)).
  - discriminate.
  - vm_compute; reflexivity.
  - reflexivity.
  - vm_compute; reflexivity.
  - vm_compute; reflexivity.
  - simpl. lia.
  - vm_compute. discriminate.
Defined.

End FileExamples.

Section MoreExamples.
Import JS Interp.

(** DECLARE grid : ARRAY[1:3, 0:1], and grid[2, 0] <- 5. *)
Definition grid : JSObject :=
  default (mkObject None None []) (createArray [(1, 3); (0, 1)]).

Definition gridAssigned : JSObject :=
  match setArrayElement (RObject grid) (ofZ <$> [2; 0]) (VNumber (ofZ 5))
                        [(1, 3); (0, 1)] 1 with
  | inr o => o
  | inl _ => grid
  end.

Lemma array_writes_are_local_witness :
  getArrayElement (RObject gridAssigned) (ofZ <$> [2; 1]) [(1, 3); (0, 1)] 2
  = getArrayElement (RObject grid) (ofZ <$> [2; 1]) [(1, 3); (0, 1)] 2.
Proof.
  apply (array_writes_are_local [2; 0] [2; 1] (RObject grid) (VNumber (ofZ 5))
           [(1, 3); (0, 1)] 1 2 gridAssigned).
  - vm_compute; reflexivity.
  - reflexivity.
  - discriminate.
Defined.

Lemma array_bounds_checked_witness :
  (withinBounds [2; 2] [(1, 3); (0, 1)] →
   (∃ o', setArrayElement (RObject gridAssigned) (ofZ <$> [2; 2]) (VBoolean true)
                          [(1, 3); (0, 1)] 3 = inr o') ∧
   (getArrayElement (RObject gridAssigned) (ofZ <$> [2; 2]) [(1, 3); (0, 1)] 3
    = inl (RuntimeError "Array element accessed before assignment" 3) ∨
    ∃ w, getArrayElement (RObject gridAssigned) (ofZ <$> [2; 2]) [(1, 3); (0, 1)] 3
         = inr w)) ∧
  (¬ withinBounds [2; 2] [(1, 3); (0, 1)] →
   setArrayElement (RObject gridAssigned) (ofZ <$> [2; 2]) (VBoolean true)
                   [(1, 3); (0, 1)] 3
   = inl (RuntimeError "Array index out of bounds" 3) ∧
   getArrayElement (RObject gridAssigned) (ofZ <$> [2; 2]) [(1, 3); (0, 1)] 3
   = inl (RuntimeError "Array index out of bounds" 3)).
Proof.
  apply (array_bounds_checked [(1, 3); (0, 1)] gridAssigned [2; 2] (VBoolean true) 3).
  - apply (arrayOf_assigned _ grid [2; 0] (VNumber (ofZ 5)) 1).
    + apply arrayOf_created. reflexivity.
    + reflexivity.
    + vm_compute; reflexivity.
  - reflexivity.
Defined.


(** CASE OF 2 / 1 : OUTPUT "a" / 2 : OUTPUT "b" / 1 TO 3 : OUTPUT "c". *)
Definition threeCases : list CaseBlock :=
  [mkCaseBlock (Some (Literal (VNumber (ofZ 1)) INTEGER 2)) None None
               [Output [Literal (VString "a") STRING 2] 2];
   mkCaseBlock (Some (Literal (VNumber (ofZ 2)) INTEGER 3)) None None
               [Output [Literal (VString "b") STRING 3] 3];
   mkCaseBlock None (Some (Literal (VNumber (ofZ 1)) INTEGER 4))
               (Some (Literal (VNumber (ofZ 3)) INTEGER 4))
               [Output [Literal (VString "c") STRING 4] 4]].

Lemma case_runs_first_match_witness :
  (∀ pre c rest,
     threeCases = pre ++ c :: rest →
     Forall (λ c', caseTest ReferenceHost.host (interp ReferenceHost.host 2) 0%nat
                            (create [] false false true None) (VNumber (ofZ 2)) c' false)
            pre →
     caseTest ReferenceHost.host (interp ReferenceHost.host 2) 0%nat
              (create [] false false true None) (VNumber (ofZ 2)) c true →
     executeCase ReferenceHost.host (interp ReferenceHost.host 2) false
                 (Literal (VNumber (ofZ 2)) INTEGER 1) threeCases None 0%nat
                 (create [] false false true None)
     = runBlock (interp ReferenceHost.host 2) false (caseStatements c) 0%nat
                (create [] false false true None)) ∧
  (Forall (λ c', caseTest ReferenceHost.host (interp ReferenceHost.host 2) 0%nat
                          (create [] false false true None) (VNumber (ofZ 2)) c' false)
          threeCases →
   executeCase ReferenceHost.host (interp ReferenceHost.host 2) false
               (Literal (VNumber (ofZ 2)) INTEGER 1) threeCases None 0%nat
               (create [] false false true None)
   = match None with
     | Some block => runBlock (interp ReferenceHost.host 2) false block 0%nat
                              (create [] false false true None)
     | None => Done tt (create [] false false true None)
     end).
Proof.
  apply (case_runs_first_match ReferenceHost.host (interp ReferenceHost.host 2) false
           (Literal (VNumber (ofZ 2)) INTEGER 1) (VNumber (ofZ 2)) threeCases None 0%nat
           (create [] false false true None)).
  reflexivity.
Defined.

Lemma declare_replaces_witness :
  ∃ st',
    executeDeclare "i" STRING None None 0%nat declaredI = Done tt st' ∧
    getVariable "i" 0%nat st' = Some (nextRef declaredI) ∧
    variableHeap st' !! nextRef declaredI
    = Some (mkVariable STRING VUndefined None None false) ∧
    (∀ ref, ref ≠ nextRef declaredI → variableHeap st' !! ref = variableHeap declaredI !! ref) ∧
    (∀ line,
       evaluateIdentifier "i" line 0%nat st'
       = Thrown (RuntimeError ("Variable '" +:+ "i" +:+ "' used before assignment") line)
                st') ∧
    (∀ name c, name ≠ "i" → getVariable name c st' = getVariable name c declaredI).
Proof.
  apply (declare_replaces "i" STRING None None 0%nat (mkContext {["i" := 1%nat]} None)
           declaredI).
  - discriminate.
  - vm_compute; reflexivity.
Defined.

Lemma substring_counts_from_one_witness :
  ∃ r,
    evaluateExpression ReferenceHost.host (interp ReferenceHost.host 1)
                       (substringCall "hello" 1 5 1) 0%nat (create [] false false true None)
    = Done (VString r) (create [] false false true None) ∧
    r = String.substring (Z.to_nat (1 - 1)) (Z.to_nat 5) "hello" ∧
    Z.of_nat (String.length r)
    = Z.min 5 (Z.max 0 (Z.of_nat (String.length "hello") - (1 - 1))) ∧
    (1 = 1 → 5 = Z.of_nat (String.length "hello") → r = "hello").
Proof.
  apply (substring_counts_from_one ReferenceHost.host 0 "hello" 1 5 1 0%nat
           (create [] false false true None)).
  - lia.
  - lia.
Defined.

End MoreExamples.
